(** * The client-classification expression parser (src/lib/eval/parser.cc)

    A shallow embedding of the Bison LALR(1) parser [isc::eval::EvalParser]:
    its tables, the table-driven loop of [EvalParser::parse], the semantic
    actions that append tokens to [ctx.expression], and the verbose
    syntax-error message of [EvalParser::yysyntax_error_].  The second half
    of the file states and proves properties of that parser. *)

From Stdlib Require Import ZArith List String Ascii Bool Lia.
Import ListNotations.
Local Open Scope string_scope.
Local Open Scope list_scope.
Local Open Scope Z_scope.

(** ** Source locations

    [location.hh] and [position.hh] are generated next to the parser and are
    not among the sources; a location ([location_type] in the parser) is
    the pair of positions that [YYLLOC_DEFAULT] reads and writes, [begin]
    and [end]. *)

Record position := mkPosition { line : Z; column : Z }.

Record location_type := mkLocation { loc_begin : position; loc_end : position }.

Definition position0 : position := mkPosition 1 1.

(** A default-constructed location. *)
Definition location0 : location_type := mkLocation position0 position0.

(** ** Protocol family, [Option::Universe] *)

Inductive Universe := V4 | V6.

(** ** The evaluation tokens built by the semantic actions

    The classes are declared in [token.h]; the constructors below take the
    arguments exactly as [parser.cc] passes them.  An argument that a call
    leaves to the header's default is recorded as [None]. *)

Module TokenOption.
Inductive RepresentationType := TEXTUAL | HEXADECIMAL | EXISTS.
End TokenOption.

Module TokenPkt.
Inductive MetadataType := IFACE | SRC | DST | LEN.
End TokenPkt.

Module TokenPkt4.
Inductive FieldType :=
  CHADDR | HLEN | HTYPE | CIADDR | GIADDR | YIADDR | SIADDR | MSGTYPE | TRANSID.
End TokenPkt4.

Module TokenPkt6.
Inductive FieldType := MSGTYPE | TRANSID.
End TokenPkt6.

Module TokenRelay6Field.
Inductive FieldType := PEERADDR | LINKADDR.
End TokenRelay6Field.

Module TokenVendor.
(** Only the two enumerators the parser names. *)
Inductive FieldType := ENTERPRISE_ID | DATA.
End TokenVendor.

Inductive Token :=
| TokenNot
| TokenAnd
| TokenOr
| TokenEqual
| TokenOption (option_code : Z) (rep_type : TokenOption.RepresentationType)
| TokenRelay4Option (option_code : Z) (rep_type : TokenOption.RepresentationType)
| TokenRelay6Option (nest_level : Z) (option_code : Z)
                    (rep_type : TokenOption.RepresentationType)
| TokenVendorRepr (u : Universe) (vendor_id : Z)
                  (repr : TokenOption.RepresentationType) (option_code : option Z)
| TokenVendorField (u : Universe) (vendor_id : Z) (field : TokenVendor.FieldType)
| TokenVendorClassRepr (u : Universe) (vendor_id : Z)
                       (repr : TokenOption.RepresentationType)
| TokenVendorClassField (u : Universe) (vendor_id : Z)
                        (field : TokenVendor.FieldType) (index : option Z)
| TokenString (str : string)
| TokenHexString (str : string)
| TokenIpAddress (addr : string)
| TokenPkt (type : TokenPkt.MetadataType)
| TokenPkt4 (type : TokenPkt4.FieldType)
| TokenPkt6 (type : TokenPkt6.FieldType)
| TokenRelay6Field (nest_level : Z) (type : TokenRelay6Field.FieldType)
| TokenSubstring
| TokenConcat
| TokenInteger (value : Z).

(** ** Errors

    Every compile-time rejection leaves the parser through
    [EvalParser::error (loc, what)], which hands over to [EvalContext::error];
    the conversion helpers of the context reject a literal on their own. *)

Inductive error_kind := SyntaxError | SemanticError.

Inductive exception :=
| ParseError (kind : error_kind) (loc : location_type) (what : string)
| ConversionError (loc : location_type) (literal : string).

Inductive result (A : Type) :=
| Ok (a : A)
| Throw (e : exception)
| Undefined.
Arguments Ok {A} a.
Arguments Throw {A} e.
Arguments Undefined {A}.

Definition bind {A B} (c : result A) (k : A -> result B) : result B :=
  match c with
  | Ok a => k a
  | Throw e => Throw e
  | Undefined => Undefined
  end.

Declare Scope result_scope.
Delimit Scope result_scope with result.
Notation "x <- c ;; k" := (bind c (fun x => k))
  (at level 61, c at next level, right associativity) : result_scope.
Local Open Scope result_scope.

(** ** The evaluation context, [EvalContext] ([eval_context.h])

    The part of the context that a parse only reads: the protocol family and
    the literal conversions.  [ctx.expression], which the actions extend, is
    threaded through the parser state below.  A conversion returns [None]
    when it rejects the literal. *)

Record EvalContext := mkEvalContext {
  getUniverse : Universe;
  convertUint8 : string -> location_type -> option Z;
  convertUint32 : string -> location_type -> option Z;
  convertOptionCode : string -> location_type -> option Z;
  convertOptionName : string -> location_type -> option Z;
  convertNestLevelNumber : string -> location_type -> option Z
}.

(** Modelled from the spec: [EvalContext::error] is defined in
    [eval_context.cc], which is not among the sources.  Compile-time errors
    are "surfaced to the caller ... as rejection with message and location"
    and abort the parse, so the call never returns: it raises an error that
    carries the location and the message.  [kind] records which of the
    spec's categories the calling site belongs to. *)
Definition error {A} (kind : error_kind) (loc : location_type) (what : string) : result A :=
  Throw (ParseError kind loc what).

(** Modelled from the spec: the conversion helpers are defined in
    [eval_context.cc] as well.  A conversion that overflows its target width
    or fails the name lookup is reported as a [ConversionError] "carrying
    the triggering construct's source span". *)
Definition convert (f : string -> location_type -> option Z)
           (literal : string) (loc : location_type) : result Z :=
  match f literal loc with
  | Some n => Ok n
  | None => Throw (ConversionError loc literal)
  end.

(** ** Parser tables

    The arrays of [parser.cc], element for element.  [t.[i]] reads an array;
    the C++ code never reads outside an array on a well-formed stack, and the
    model returns [0] there. *)

Definition at_ (t : list Z) (i : Z) : Z := nth (Z.to_nat i) t 0.
Notation "t .[ i ]" := (at_ t i) (at level 1, left associativity, format "t .[ i ]").

Definition yypact_ninf_ : Z := -98.

Definition yytable_ninf_ : Z := -1.

Definition yypact_ : list Z :=
  [
    (-23);    41;    41;    36;    41;    41;    28;    31;    35;    56;
       60;    92;    93;    84;  (-8);    59; (-98); (-98); (-98); (-98);
    (-98);    47;    55; (-98); (-98);    47;    55; (-98);    58; (-98);
       43;    43;    61;    17; (-14);    88;    88;    48; (-22);    73;
    (-22);    74;    41;    41;    88; (-98); (-98); (-98);   107;   108;
    (-98);   111; (-98); (-98); (-98); (-98); (-98); (-98); (-98); (-98);
    (-98); (-98); (-98); (-98); (-98); (-98); (-98);   113;   116;   117;
       91;    96;    71;    98; (-98); (-98); (-98); (-98); (-98);   119;
    (-98);   123; (-98); (-98);   126; (-98);   124;   125;   127;    43;
       43;    61; (-22); (-22);    94;    88;   128;   129;    52;    66;
       18;   131;   132;   133;   134;   135; (-98);   118;   147; (-15);
        2; (-98); (-98); (-98); (-98); (-98); (-98);   138; (-98); (-98);
    (-98);   139;   140;   141;   142;   143; (-29); (-98); (-98);   146;
      148; (-98);    43;    62;    62;    20;   120;   145; (-98); (-98);
      157;   121;    43;   149;   151;   152; (-98);   153;   155;   156;
       43;    43; (-98);   158;    85;   160;   161;    97; (-98); (-98);
      162;   163; (-98); (-98);    62;    62
  ].

Definition yydefact_ : list Z :=
  [
        0;     0;     0;     0;     0;     0;     0;     0;     0;     0;
        0;     0;     0;     0;     0;     0;    18;    36;    19;    20;
        2;     6;     0;    35;     3;     4;     5;     1;     0;     8;
        0;     0;     0;     0;     0;     0;     0;     0;     0;     0;
        0;     0;     0;     0;     0;     7;    37;    38;     0;     0;
       41;     0;    42;    43;    44;    45;    24;    48;    49;    50;
       51;    52;    53;    54;    55;    56;    25;     0;     0;     0;
        0;     0;     0;     0;    57;    58;    26;    47;    46;     0;
       31;     0;    30;     9;    10;    11;     0;     0;     0;     0;
        0;     0;     0;     0;     0;     0;     0;     0;     0;     0;
        0;     0;     0;     0;     0;     0;    61;     0;     0;     0;
        0;    39;    40;    12;    21;    13;    22;     0;    59;    60;
       27;     0;     0;     0;     0;     0;     0;    29;    15;    33;
        0;    16;     0;     0;     0;     0;     0;     0;    63;    62;
        0;     0;     0;     0;     0;     0;    28;     0;     0;     0;
        0;     0;    34;     0;     0;     0;     0;     0;    14;    23;
        0;     0;    17;    32;     0;     0
  ].

Definition yypgoto_ : list Z :=
  [
    (-98); (-98); (-98); (-98);     5;  (-1); (-98); (-31); (-97);    76;
    (-98); (-37); (-98); (-98); (-98); (-98); (-98)
  ].

Definition yydefgoto_ : list Z :=
  [
     (-1);     3;    24;    20;    21;    22;    23;    48;   114;    51;
       56;    79;    66;    76;   120;   107;   140
  ].

Definition yytable_ : list Z :=
  [
       49;    26;   116;    81;   128;   138;    38;    25;    39;    28;
       29;   130;    57;    58;    59;    60;    61;    62;    63;   139;
       77;   131;     1;     2;    64;    65;    78;   117;   129;   144;
      118;   119;   118;   119;    72;    73;    27;   116;    52;    53;
       54;    55;    30;    85;     4;    31;     5;    83;    84;    32;
        6;     7;     8;    42;    43;   104;   105;   159;   101;   102;
      163;     9;    45;    44;    42;    43;    10;   159;   163;   111;
      112;   113;    33;    40;    11;    41;    34;    12;    13;   111;
      112;    14;    15;   111;   112;   115;    74;    75;    16;    17;
       18;    46;    19;    47;   108;    35;    36;    67;    68;    69;
       37;   143;   111;   112;   158;    92;    94;    39;     9;    50;
       93;   148;    41;    10;   111;   112;   162;    80;    82;   155;
      156;    11;    86;    87;    12;    13;    88;    89;    70;    71;
       90;    91;    42;    95;    96;    16;    17;    18;    97;    19;
       98;    99;   106;   100;   109;   110;   121;   122;   123;   124;
      125;   127;   132;   126;   145;   133;   134;   135;   136;   137;
      141;   146;   142;   129;   149;   150;   151;   103;   152;   147;
      153;     0;   154;     0;   157;   160;   161;     0;   164;   165
  ].

Definition yycheck_ : list Z :=
  [
       31;     2;    99;    40;    19;    34;    14;     2;    16;     4;
        5;     9;    26;    27;    28;    29;    30;    31;    32;    48;
       42;    19;    45;    46;    38;    39;    48;     9;    43;     9;
       12;    13;    12;    13;    35;    36;     0;   134;    21;    22;
       23;    24;    14;    44;     3;    14;     5;    42;    43;    14;
        9;    10;    11;     6;     7;    92;    93;   154;    89;    90;
      157;    20;     4;     8;     6;     7;    25;   164;   165;    17;
       18;    19;    16;    14;    33;    16;    16;    36;    37;    17;
       18;    40;    41;    17;    18;    19;    38;    39;    47;    48;
       49;    48;    51;    50;    95;     3;     3;     9;    10;    11;
       16;   132;    17;    18;    19;    14;    35;    16;    20;    48;
       14;   142;    16;    25;    17;    18;    19;    44;    44;   150;
      151;    33;    15;    15;    36;    37;    15;    14;    40;    41;
       14;    14;     6;    35;    15;    47;    48;    49;    15;    51;
       16;    16;    48;    16;    16;    16;    15;    15;    15;    15;
       15;     4;    14;    35;     9;    16;    16;    16;    16;    16;
       14;     4;    14;    43;    15;    14;    14;    91;    15;    48;
       15;  (-1);    16;  (-1);    16;    15;    15;  (-1);    16;    16
  ].

Definition yystos_ : list Z :=
  [
        0;    45;    46;    53;     3;     5;     9;    10;    11;    20;
       25;    33;    36;    37;    40;    41;    47;    48;    49;    51;
       55;    56;    57;    58;    54;    56;    57;     0;    56;    56;
       14;    14;    14;    16;    16;     3;     3;    16;    14;    16;
       14;    16;     6;     7;     8;     4;    48;    50;    59;    59;
       48;    61;    21;    22;    23;    24;    62;    26;    27;    28;
       29;    30;    31;    32;    38;    39;    64;     9;    10;    11;
       40;    41;    57;    57;    38;    39;    65;    42;    48;    63;
       44;    63;    44;    56;    56;    57;    15;    15;    15;    14;
       14;    14;    14;    14;    35;    35;    15;    15;    16;    16;
       16;    59;    59;    61;    63;    63;    48;    67;    57;    16;
       16;    17;    18;    19;    60;    19;    60;     9;    12;    13;
       66;    15;    15;    15;    15;    15;    35;     4;    19;    43;
        9;    19;    14;    16;    16;    16;    16;    16;    34;    48;
       68;    14;    14;    59;     9;     9;     4;    48;    59;    15;
       14;    14;    15;    15;    16;    59;    59;    16;    19;    60;
       15;    15;    19;    60;    16;    16
  ].

Definition yyr1_ : list Z :=
  [
        0;    52;    53;    53;    54;    54;    55;    56;    56;    56;
       56;    56;    56;    56;    56;    56;    56;    56;    57;    57;
       57;    57;    57;    57;    57;    57;    57;    57;    57;    57;
       57;    57;    57;    57;    57;    57;    58;    59;    59;    60;
       60;    61;    62;    62;    62;    62;    63;    63;    64;    64;
       64;    64;    64;    64;    64;    64;    64;    65;    65;    66;
       66;    67;    68;    68
  ].

Definition yyr2_ : list Z :=
  [
        0;     2;     2;     2;     1;     1;     1;     3;     2;     3;
        3;     3;     6;     6;    11;     6;     6;    11;     1;     1;
        1;     6;     6;    11;     3;     3;     3;     6;     8;     6;
        3;     3;    11;     6;     9;     1;     1;     1;     1;     1;
        1;     1;     1;     1;     1;     1;     1;     1;     1;     1;
        1;     1;     1;     1;     1;     1;     1;     1;     1;     1;
        1;     1;     1;     1
  ].


Definition dquote : ascii := "034"%char.

(** A name of [yytname_] that the source writes between escaped double
    quotes. *)
Definition quoted (s : string) : string :=
  String dquote (s ++ String dquote EmptyString)%string.

Definition yytname_ : list string :=
  [
    quoted "end of file"; "error"; "$undefined";
    quoted "("; quoted ")"; quoted "not";
    quoted "and"; quoted "or"; quoted "==";
    quoted "option"; quoted "relay4"; quoted "relay6";
    quoted "peeraddr"; quoted "linkaddr"; quoted "[";
    quoted "]"; quoted "."; quoted "text";
    quoted "hex"; quoted "exists"; quoted "pkt";
    quoted "iface"; quoted "src"; quoted "dst";
    quoted "len"; quoted "pkt4"; quoted "mac";
    quoted "hlen"; quoted "htype"; quoted "ciaddr";
    quoted "giaddr"; quoted "yiaddr"; quoted "siaddr";
    quoted "substring"; quoted "all"; quoted ",";
    quoted "concat"; quoted "pkt6"; quoted "msgtype";
    quoted "transid"; quoted "vendor-class"; quoted "vendor";
    quoted "*"; quoted "data"; quoted "enterprise";
    quoted "top-level bool"; quoted "top-level string"; quoted "constant string";
    quoted "integer"; quoted "constant hexstring"; quoted "option name";
    quoted "ip address"; "$accept"; "start";
    "string_expression"; "expression"; "bool_expr";
    "string_expr"; "integer_expr"; "option_code";
    "option_repr_type"; "nest_level"; "pkt_metadata";
    "enterprise_id"; "pkt4_field"; "pkt6_field";
    "relay6_field"; "start_expr"; "length_expr"
  ].

(** The constants below are declared in [parser.h]; Bison derives each of
    them from the tables above: [yylast_] is the last index of [yytable_],
    [yyntokens_] the index of ["$accept"] in [yytname_], [yyfinal_] the state
    entered on the end-of-file symbol, [yyterror_] and [yyeof_] the numbers
    of the symbols ["error"] and ["end of file"]. *)

Definition yylast_ : Z := 179.

Definition yyntokens_ : Z := 52.

Definition yyfinal_ : Z := 27.

Definition yyterror_ : Z := 1.

Definition yyeof_ : Z := 0.

(** ** Symbols and the parser stack *)

(** The variant of semantic values ([%define api.value.type variant]). *)
Inductive semantic_type :=
| v_none
| v_string (s : string)
| v_uint8 (n : Z)
| v_uint16 (n : Z)
| v_uint32 (n : Z)
| v_repr (r : TokenOption.RepresentationType)
| v_metadata (m : TokenPkt.MetadataType)
| v_pkt4 (f : TokenPkt4.FieldType)
| v_pkt6 (f : TokenPkt6.FieldType)
| v_relay6 (f : TokenRelay6Field.FieldType).

(** A symbol as the lexer returns it ([basic_symbol<by_type>]). *)
Record symbol_type := mkSymbol {
  type_get : Z;
  sym_value : semantic_type;
  sym_location : location_type
}.

(** A symbol on the parser stack ([basic_symbol<by_state>]). *)
Record stack_symbol_type := mkStackSymbol {
  state : Z;
  value : semantic_type;
  location : location_type
}.

(** [yystack_[i]], counted from the top of the stack (the head of the
    list).  Reading below the bottom is undefined behaviour. *)
Definition stack_at (yystack_ : list stack_symbol_type) (i : nat)
  : result stack_symbol_type :=
  match nth_error yystack_ i with
  | Some s => Ok s
  | None => Undefined
  end.

(** [value.as<T> ()]: reading a variant at another type than the one it
    holds is undefined behaviour. *)
Definition as_string (v : semantic_type) : result string :=
  match v with v_string s => Ok s | _ => Undefined end.

Definition as_uint8 (v : semantic_type) : result Z :=
  match v with v_uint8 n => Ok n | _ => Undefined end.

Definition as_uint16 (v : semantic_type) : result Z :=
  match v with v_uint16 n => Ok n | _ => Undefined end.

Definition as_uint32 (v : semantic_type) : result Z :=
  match v with v_uint32 n => Ok n | _ => Undefined end.

Definition as_repr (v : semantic_type) : result TokenOption.RepresentationType :=
  match v with v_repr r => Ok r | _ => Undefined end.

Definition as_metadata (v : semantic_type) : result TokenPkt.MetadataType :=
  match v with v_metadata m => Ok m | _ => Undefined end.

Definition as_pkt4 (v : semantic_type) : result TokenPkt4.FieldType :=
  match v with v_pkt4 f => Ok f | _ => Undefined end.

Definition as_pkt6 (v : semantic_type) : result TokenPkt6.FieldType :=
  match v with v_pkt6 f => Ok f | _ => Undefined end.

Definition as_relay6 (v : semantic_type) : result TokenRelay6Field.FieldType :=
  match v with v_relay6 f => Ok f | _ => Undefined end.

Definition value_at {T} (as_T : semantic_type -> result T)
           (yystack_ : list stack_symbol_type) (i : nat) : result T :=
  s <- stack_at yystack_ i ;; as_T (value s).

Definition location_at (yystack_ : list stack_symbol_type) (i : nat)
  : result location_type :=
  s <- stack_at yystack_ i ;; Ok (location s).

(** [YYLLOC_DEFAULT (Current, Rhs, N)] over the [N] topmost stack symbols:
    [Rhs[K]] is [yystack_[N - K]]. *)
Definition YYLLOC_DEFAULT (yystack_ : list stack_symbol_type) (N : nat)
  : result location_type :=
  match N with
  | O => rhs0 <- location_at yystack_ 0 ;;
         Ok (mkLocation (loc_end rhs0) (loc_end rhs0))
  | S _ => rhs1 <- location_at yystack_ (N - 1) ;;
           rhsN <- location_at yystack_ 0 ;;
           Ok (mkLocation (loc_begin rhs1) (loc_end rhsN))
  end.

(** ** [EvalParser::yy_lr_goto_state_] *)

Definition yy_lr_goto_state_ (yystate : Z) (yysym : Z) : Z :=
  let yyr := yypgoto_.[yysym - yyntokens_] + yystate in
  if (0 <=? yyr) && (yyr <=? yylast_) && (yycheck_.[yyr] =? yystate)
  then yytable_.[yyr]
  else yydefgoto_.[yysym - yyntokens_].

Definition yy_pact_value_is_default_ (yyvalue : Z) : bool :=
  yyvalue =? yypact_ninf_.

Definition yy_table_value_is_error_ (yyvalue : Z) : bool :=
  yyvalue =? yytable_ninf_.

(** ** The semantic actions, [switch (yyn)] in [EvalParser::parse]

    An action reads the topmost stack symbols, may call a conversion of the
    context, and either sets the value of the left-hand side ([yylhs.value])
    or appends one token to [ctx.expression].  The result is the value of
    the left-hand side and the expression after the action.  Every rule
    whose left-hand side carries a typed value assigns it, so the value that
    [yylhs.value.build<T> ()] default-initialises is never observed. *)

Section Actions.

Variable ctx : EvalContext.
Variable yystack_ : list stack_symbol_type.
Variable expression : list Token.

(** [ctx.expression.push_back (t)] *)
Definition push_back (t : Token) : result (semantic_type * list Token) :=
  Ok (v_none, expression ++ [t]).

(** [yylhs.value.as<T> () = v] *)
Definition assign (v : semantic_type) : result (semantic_type * list Token) :=
  Ok (v, expression).

Definition action (yyn : Z) : result (semantic_type * list Token) :=
  match yyn with
  | 8 => push_back TokenNot
  | 9 => push_back TokenAnd
  | 10 => push_back TokenOr
  | 11 => push_back TokenEqual
  | 12 =>
      code <- value_at as_uint16 yystack_ 3 ;;
      push_back (TokenOption code TokenOption.EXISTS)
  | 13 =>
      match getUniverse ctx with
      | V4 =>
          code <- value_at as_uint16 yystack_ 3 ;;
          push_back (TokenRelay4Option code TokenOption.EXISTS)
      | V6 =>
          loc <- location_at yystack_ 5 ;;
          error SemanticError loc "relay4 can only be used in DHCPv4."
      end
  | 14 =>
      match getUniverse ctx with
      | V6 =>
          nest <- value_at as_uint8 yystack_ 8 ;;
          code <- value_at as_uint16 yystack_ 3 ;;
          push_back (TokenRelay6Option nest code TokenOption.EXISTS)
      | V4 =>
          loc <- location_at yystack_ 10 ;;
          error SemanticError loc "relay6 can only be used in DHCPv6."
      end
  | 15 =>
      id <- value_at as_uint32 yystack_ 3 ;;
      push_back (TokenVendorClassRepr (getUniverse ctx) id TokenOption.EXISTS)
  | 16 =>
      id <- value_at as_uint32 yystack_ 3 ;;
      push_back (TokenVendorRepr (getUniverse ctx) id TokenOption.EXISTS None)
  | 17 =>
      id <- value_at as_uint32 yystack_ 8 ;;
      code <- value_at as_uint16 yystack_ 3 ;;
      push_back (TokenVendorRepr (getUniverse ctx) id TokenOption.EXISTS (Some code))
  | 18 =>
      s <- value_at as_string yystack_ 0 ;;
      push_back (TokenString s)
  | 19 =>
      s <- value_at as_string yystack_ 0 ;;
      push_back (TokenHexString s)
  | 20 =>
      s <- value_at as_string yystack_ 0 ;;
      push_back (TokenIpAddress s)
  | 21 =>
      code <- value_at as_uint16 yystack_ 3 ;;
      rep <- value_at as_repr yystack_ 0 ;;
      push_back (TokenOption code rep)
  | 22 =>
      match getUniverse ctx with
      | V4 =>
          code <- value_at as_uint16 yystack_ 3 ;;
          rep <- value_at as_repr yystack_ 0 ;;
          push_back (TokenRelay4Option code rep)
      | V6 =>
          loc <- location_at yystack_ 5 ;;
          error SemanticError loc "relay4 can only be used in DHCPv4."
      end
  | 23 =>
      match getUniverse ctx with
      | V6 =>
          nest <- value_at as_uint8 yystack_ 8 ;;
          code <- value_at as_uint16 yystack_ 3 ;;
          rep <- value_at as_repr yystack_ 0 ;;
          push_back (TokenRelay6Option nest code rep)
      | V4 =>
          loc <- location_at yystack_ 10 ;;
          error SemanticError loc "relay6 can only be used in DHCPv6."
      end
  | 24 =>
      m <- value_at as_metadata yystack_ 0 ;;
      push_back (TokenPkt m)
  | 25 =>
      match getUniverse ctx with
      | V4 =>
          f <- value_at as_pkt4 yystack_ 0 ;;
          push_back (TokenPkt4 f)
      | V6 =>
          loc <- location_at yystack_ 2 ;;
          error SemanticError loc "pkt4 can only be used in DHCPv4."
      end
  | 26 =>
      match getUniverse ctx with
      | V6 =>
          f <- value_at as_pkt6 yystack_ 0 ;;
          push_back (TokenPkt6 f)
      | V4 =>
          loc <- location_at yystack_ 2 ;;
          error SemanticError loc "pkt6 can only be used in DHCPv6."
      end
  | 27 =>
      match getUniverse ctx with
      | V6 =>
          nest <- value_at as_uint8 yystack_ 3 ;;
          f <- value_at as_relay6 yystack_ 0 ;;
          push_back (TokenRelay6Field nest f)
      | V4 =>
          loc <- location_at yystack_ 5 ;;
          error SemanticError loc "relay6 can only be used in DHCPv6."
      end
  | 28 => push_back TokenSubstring
  | 29 => push_back TokenConcat
  | 30 =>
      push_back (TokenVendorField (getUniverse ctx) 0 TokenVendor.ENTERPRISE_ID)
  | 31 =>
      push_back (TokenVendorClassField (getUniverse ctx) 0
                                       TokenVendor.ENTERPRISE_ID None)
  | 32 =>
      id <- value_at as_uint32 yystack_ 8 ;;
      rep <- value_at as_repr yystack_ 0 ;;
      code <- value_at as_uint16 yystack_ 3 ;;
      push_back (TokenVendorRepr (getUniverse ctx) id rep (Some code))
  | 33 =>
      id <- value_at as_uint32 yystack_ 3 ;;
      push_back (TokenVendorClassField (getUniverse ctx) id TokenVendor.DATA (Some 0))
  | 34 =>
      s <- value_at as_string yystack_ 1 ;;
      loc <- location_at yystack_ 1 ;;
      index <- convert (convertUint8 ctx) s loc ;;
      id <- value_at as_uint32 yystack_ 6 ;;
      push_back (TokenVendorClassField (getUniverse ctx) id TokenVendor.DATA (Some index))
  | 35 =>
      n <- value_at as_uint32 yystack_ 0 ;;
      push_back (TokenInteger n)
  | 36 =>
      s <- value_at as_string yystack_ 0 ;;
      loc <- location_at yystack_ 0 ;;
      n <- convert (convertUint32 ctx) s loc ;;
      assign (v_uint32 n)
  | 37 =>
      s <- value_at as_string yystack_ 0 ;;
      loc <- location_at yystack_ 0 ;;
      n <- convert (convertOptionCode ctx) s loc ;;
      assign (v_uint16 n)
  | 38 =>
      s <- value_at as_string yystack_ 0 ;;
      loc <- location_at yystack_ 0 ;;
      n <- convert (convertOptionName ctx) s loc ;;
      assign (v_uint16 n)
  | 39 => assign (v_repr TokenOption.TEXTUAL)
  | 40 => assign (v_repr TokenOption.HEXADECIMAL)
  | 41 =>
      s <- value_at as_string yystack_ 0 ;;
      loc <- location_at yystack_ 0 ;;
      n <- convert (convertNestLevelNumber ctx) s loc ;;
      assign (v_uint8 n)
  | 42 => assign (v_metadata TokenPkt.IFACE)
  | 43 => assign (v_metadata TokenPkt.SRC)
  | 44 => assign (v_metadata TokenPkt.DST)
  | 45 => assign (v_metadata TokenPkt.LEN)
  | 46 =>
      s <- value_at as_string yystack_ 0 ;;
      loc <- location_at yystack_ 0 ;;
      n <- convert (convertUint32 ctx) s loc ;;
      assign (v_uint32 n)
  | 47 => assign (v_uint32 0)
  | 48 => assign (v_pkt4 TokenPkt4.CHADDR)
  | 49 => assign (v_pkt4 TokenPkt4.HLEN)
  | 50 => assign (v_pkt4 TokenPkt4.HTYPE)
  | 51 => assign (v_pkt4 TokenPkt4.CIADDR)
  | 52 => assign (v_pkt4 TokenPkt4.GIADDR)
  | 53 => assign (v_pkt4 TokenPkt4.YIADDR)
  | 54 => assign (v_pkt4 TokenPkt4.SIADDR)
  | 55 => assign (v_pkt4 TokenPkt4.MSGTYPE)
  | 56 => assign (v_pkt4 TokenPkt4.TRANSID)
  | 57 => assign (v_pkt6 TokenPkt6.MSGTYPE)
  | 58 => assign (v_pkt6 TokenPkt6.TRANSID)
  | 59 => assign (v_relay6 TokenRelay6Field.PEERADDR)
  | 60 => assign (v_relay6 TokenRelay6Field.LINKADDR)
  | 61 =>
      s <- value_at as_string yystack_ 0 ;;
      push_back (TokenString s)
  | 62 =>
      s <- value_at as_string yystack_ 0 ;;
      push_back (TokenString s)
  | 63 => push_back (TokenString "all")
  | _ => Ok (v_none, expression)
  end.

End Actions.

(** ** [EvalParser::yytnamerr_]

    Strips the double quotes of a symbol name, unless the name contains an
    apostrophe, a comma, or a backslash that does not escape a backslash.
    [strip_quotes] is the [for (;;)] loop over the characters after the
    opening quote: [Some yyr] when it
    returns [yyr], [None] when it jumps to [do_not_strip_quotes] (a name that
    ends before its closing quote is not stripped either). *)

Fixpoint strip_quotes (yyp : string) (yyr : string) : option string :=
  match yyp with
  | EmptyString => None
  | String c rest =>
      if Ascii.eqb c "'"%char || Ascii.eqb c ","%char then None
      else if Ascii.eqb c "\"%char then
        match rest with
        | String c' rest' =>
            if Ascii.eqb c' "\"%char
            then strip_quotes rest' (yyr ++ String c' EmptyString)%string
            else None
        | EmptyString => None
        end
      else if Ascii.eqb c dquote then Some yyr
      else strip_quotes rest (yyr ++ String c EmptyString)%string
  end.

Definition yytnamerr_ (yystr : string) : string :=
  match yystr with
  | String c rest =>
      if Ascii.eqb c dquote then
        match strip_quotes rest "" with
        | Some yyr => yyr
        | None => yystr
        end
      else yystr
  | EmptyString => yystr
  end.

(** ** [EvalParser::yysyntax_error_] *)

Definition YYERROR_VERBOSE_ARGS_MAXIMUM : nat := 5.

(** The integers [lo], [lo + 1], ..., [hi - 1]. *)
Definition Zrange (lo hi : Z) : list Z :=
  map (fun k => lo + Z.of_nat k) (seq 0 (Z.to_nat (hi - lo))).

(** The loop [for (int yyx = yyxbegin; yyx < yyxend; ++yyx)]: [yycount]
    arguments are in [yyarg] so far.  When a sixth argument turns up the
    loop sets [yycount = 1] and breaks. *)
Fixpoint expected_loop (yyn : Z) (yyxs : list Z) (yycount : nat) (yyarg : list string)
  : nat * list string :=
  match yyxs with
  | [] => (yycount, yyarg)
  | yyx :: yyxs' =>
      if (yycheck_.[yyx + yyn] =? yyx) && negb (yyx =? yyterror_)
         && negb (yy_table_value_is_error_ yytable_.[yyx + yyn])
      then
        if Nat.eqb yycount YYERROR_VERBOSE_ARGS_MAXIMUM
        then (1%nat, yyarg)
        else expected_loop yyn yyxs' (S yycount)
                           (yyarg ++ [nth (Z.to_nat yyx) yytname_ ""])
      else expected_loop yyn yyxs' yycount yyarg
  end.

(** [switch (yycount)] over the [YYCASE_] lines; no other count occurs. *)
Definition yyformat (yycount : nat) : string :=
  match yycount with
  | 0%nat => "syntax error"
  | 1%nat => "syntax error, unexpected %s"
  | 2%nat => "syntax error, unexpected %s, expecting %s"
  | 3%nat => "syntax error, unexpected %s, expecting %s or %s"
  | 4%nat => "syntax error, unexpected %s, expecting %s or %s or %s"
  | 5%nat => "syntax error, unexpected %s, expecting %s or %s or %s or %s"
  | _ => ""
  end.

(** The loop that copies [yyformat] to [yyres], replacing the [yyi]-th
    ["%s"] by the [yyi]-th argument. *)
Fixpoint fill_format (yyp : string) (yyi yycount : nat) (yyarg : list string) : string :=
  match yyp with
  | EmptyString => EmptyString
  | String c rest =>
      match rest with
      | String c' rest' =>
          if Ascii.eqb c "%"%char && Ascii.eqb c' "s"%char && Nat.ltb yyi yycount
          then (yytnamerr_ (nth yyi yyarg "") ++ fill_format rest' (S yyi) yycount yyarg)%string
          else String c (fill_format rest yyi yycount yyarg)
      | EmptyString => String c EmptyString
      end
  end.

Definition yysyntax_error_ (yystate : Z) (yyla : option symbol_type) : string :=
  let '(yycount, yyarg) :=
    match yyla with
    | None => (0%nat, [])
    | Some la =>
        let yytoken := type_get la in
        let yyarg := [nth (Z.to_nat yytoken) yytname_ ""] in
        let yyn := yypact_.[yystate] in
        if yy_pact_value_is_default_ yyn then (1%nat, yyarg)
        else
          let yyxbegin := if yyn <? 0 then - yyn else 0 in
          let yychecklim := yylast_ - yyn + 1 in
          let yyxend := if yychecklim <? yyntokens_ then yychecklim else yyntokens_ in
          expected_loop yyn (Zrange yyxbegin yyxend) 1 yyarg
    end in
  fill_format (yyformat yycount) 0 yycount yyarg.

(** ** [EvalParser::parse]

    The state of one run of [parse ()]: the stack, the lookahead [yyla]
    ([None] when it is empty), the lexer, and [ctx.expression]. *)

(** Modelled from the spec: [yylex] is generated from [lexer.ll], which is
    not among the sources.  The lexer "converts raw expression text into a
    stream of typed tokens", each carrying its source span; the stream is
    the list [tokens], and once the text is used up the lexer returns the
    end-of-file symbol, located at [eof]. *)
Record lexer := mkLexer { tokens : list symbol_type; eof : location_type }.

Definition yylex (l : lexer) : symbol_type * lexer :=
  match tokens l with
  | [] => (mkSymbol yyeof_ v_none (eof l), l)
  | t :: ts => (t, mkLexer ts (eof l))
  end.

Record parser := mkParser {
  yystack_ : list stack_symbol_type;
  yyla : option symbol_type;
  lex : lexer;
  expression : list Token
}.

(** How [parse ()] ends: it returns 0 with the program in [ctx.expression],
    or an exception leaves it ([partial] is [ctx.expression] at that
    moment), or it runs into undefined behaviour.  [Timeout] belongs to the
    model only: the loop below runs on fuel.  Since [error] never returns,
    the error recovery after [yyerrlab] and the [YYABORT] it may end in are
    never entered and are not modelled. *)
Inductive outcome :=
| Accepted (program : list Token)
| Rejected (e : exception) (partial : list Token)
| Corrupt
| Timeout.

Section Parse.

Variable ctx : EvalContext.

(** [yyerrlab]: report the syntax error at the lookahead. *)
Definition yyerrlab (p : parser) : outcome :=
  let loc := match yyla p with
             | Some la => sym_location la
             | None => location0
             end in
  match yystack_ p with
  | top :: _ =>
      Rejected (ParseError SyntaxError loc (yysyntax_error_ (state top) (yyla p)))
               (expression p)
  | [] => Corrupt
  end.

(** [yyreduce]: reduce by rule [yyn] and push the left-hand side. *)
Definition yyreduce (yyn : Z) (p : parser) : parser + outcome :=
  let yylen := Z.to_nat yyr2_.[yyn] in
  let reduced :=
    below <- stack_at (yystack_ p) yylen ;;
    loc <- YYLLOC_DEFAULT (yystack_ p) yylen ;;
    r <- action ctx (yystack_ p) (expression p) yyn ;;
    Ok (mkStackSymbol (yy_lr_goto_state_ (state below) yyr1_.[yyn]) (fst r) loc,
        snd r) in
  match reduced with
  | Ok (yylhs, expression') =>
      inl (mkParser (yylhs :: skipn yylen (yystack_ p)) (yyla p) (lex p) expression')
  | Throw e => inr (Rejected e (expression p))
  | Undefined => inr Corrupt
  end.

(** [yydefault]: the default action of the current state. *)
Definition yydefault (yystate : Z) (p : parser) : parser + outcome :=
  let yyn := yydefact_.[yystate] in
  if yyn =? 0 then inr (yyerrlab p) else yyreduce yyn p.

(** One turn of the loop, from [yynewstate] to the next [goto yynewstate]. *)
Definition step (p : parser) : parser + outcome :=
  match yystack_ p with
  | [] => inr Corrupt
  | top :: _ =>
      if state top =? yyfinal_ then inr (Accepted (expression p))
      else
        let yyn := yypact_.[state top] in
        if yy_pact_value_is_default_ yyn then yydefault (state top) p
        else
          let '(la, lex') :=
            match yyla p with
            | Some la => (la, lex p)
            | None => yylex (lex p)
            end in
          let p := mkParser (yystack_ p) (Some la) lex' (expression p) in
          let yyn := yyn + type_get la in
          if (yyn <? 0) || (yylast_ <? yyn) || negb (yycheck_.[yyn] =? type_get la)
          then yydefault (state top) p
          else
            let yyn := yytable_.[yyn] in
            if yyn <=? 0 then
              if yy_table_value_is_error_ yyn then inr (yyerrlab p)
              else yyreduce (- yyn) p
            else
              inl (mkParser (mkStackSymbol yyn (sym_value la) (sym_location la)
                               :: yystack_ p)
                            None lex' (expression p))
  end.

Fixpoint run (fuel : nat) (p : parser) : outcome :=
  match fuel with
  | O => Timeout
  | S fuel' =>
      match step p with
      | inl p' => run fuel' p'
      | inr o => o
      end
  end.

(** The stack [parse ()] starts from: state 0 below everything, pushed with
    the still empty lookahead. *)
Definition initial (l : lexer) : parser :=
  mkParser [mkStackSymbol 0 v_none location0] None l [].

(** Fuel that every run stays within (see [parse_terminates]). *)
Definition fuel_for (l : lexer) : nat := (16 * List.length (tokens l) + 16)%nat.

Definition parse (l : lexer) : outcome := run (fuel_for l) (initial l).

End Parse.

(** ** A context after the spec

    Modelled from the spec: the conversions of [eval_context.cc].  Literals
    are decimal; "integer/option-name literal conversions that overflow
    their target width (8/16/32-bit) or fail name lookup" are rejected.  The
    widths are those of the types the parser stores the results in
    ([uint8_t], [uint16_t], [uint32_t]); the option names come from the
    option name registry, here a function from names to codes. *)

Definition digit_value (c : ascii) : option Z :=
  let n := Z.of_nat (nat_of_ascii c) in
  if (48 <=? n) && (n <=? 57) then Some (n - 48) else None.

Fixpoint digits_value (s : string) (acc : Z) : option Z :=
  match s with
  | EmptyString => Some acc
  | String c rest =>
      match digit_value c with
      | Some d => digits_value rest (10 * acc + d)
      | None => None
      end
  end.

(** The value of a decimal literal, with an optional minus sign. *)
Definition decimal (s : string) : option Z :=
  match s with
  | EmptyString => None
  | String c rest =>
      if Ascii.eqb c "-"%char then
        match rest with
        | EmptyString => None
        | _ => option_map Z.opp (digits_value rest 0)
        end
      else digits_value s 0
  end.

Definition convert_unsigned (bits : Z) (s : string) (loc : location_type) : option Z :=
  match decimal s with
  | Some n => if (0 <=? n) && (n <? 2 ^ bits) then Some n else None
  | None => None
  end.

Definition spec_context (u : Universe) (registry : string -> option Z) : EvalContext :=
  mkEvalContext u
    (convert_unsigned 8)
    (convert_unsigned 32)
    (convert_unsigned 16)
    (fun name _ => match registry name with
                   | Some code => if (0 <=? code) && (code <? 2 ^ 16) then Some code else None
                   | None => None
                   end)
    (convert_unsigned 8).

(** ** The grammar and its parse trees

    Modelled from the spec: the right-hand sides of the productions.  Bison
    keeps only their left-hand sides ([yyr1_]) and lengths ([yyr2_]) in
    [parser.cc]; [parser.yy] is not among the sources.  [yyrhs] lists the
    productions of the grammar in the order of the rule numbers of
    [switch (yyn)], in symbol numbers ([yytname_]), as the automaton of the
    tables reads them; where the tables differ from the grammar of the spec
    ([enterprise_id] is an integer or ["*"], the index of [data] is an
    integer literal) the tables decide.  Rule 0 does not exist. *)
Definition yyrhs : list (list Z) :=
  [ [];
    [53; 0];
    [45; 55];
    [46; 54];
    [56];
    [57];
    [56];
    [3; 56; 4];
    [5; 56];
    [56; 6; 56];
    [56; 7; 56];
    [57; 8; 57];
    [9; 14; 59; 15; 16; 19];
    [10; 14; 59; 15; 16; 19];
    [11; 14; 61; 15; 16; 9; 14; 59; 15; 16; 19];
    [40; 14; 63; 15; 16; 19];
    [41; 14; 63; 15; 16; 19];
    [41; 14; 63; 15; 16; 9; 14; 59; 15; 16; 19];
    [47];
    [49];
    [51];
    [9; 14; 59; 15; 16; 60];
    [10; 14; 59; 15; 16; 60];
    [11; 14; 61; 15; 16; 9; 14; 59; 15; 16; 60];
    [20; 16; 62];
    [25; 16; 64];
    [37; 16; 65];
    [11; 14; 61; 15; 16; 66];
    [33; 3; 57; 35; 67; 35; 68; 4];
    [36; 3; 57; 35; 57; 4];
    [41; 16; 44];
    [40; 16; 44];
    [41; 14; 63; 15; 16; 9; 14; 59; 15; 16; 60];
    [40; 14; 63; 15; 16; 43];
    [40; 14; 63; 15; 16; 43; 14; 48; 15];
    [58];
    [48];
    [48];
    [50];
    [17];
    [18];
    [48];
    [21];
    [22];
    [23];
    [24];
    [48];
    [42];
    [26];
    [27];
    [28];
    [29];
    [30];
    [31];
    [32];
    [38];
    [39];
    [38];
    [39];
    [12];
    [13];
    [48];
    [48];
    [34]
  ].

Definition rhs (r : Z) : list Z := nth (Z.to_nat r) yyrhs [].

(** A parse tree: a leaf is a symbol of the lexer, a node an instance of
    rule [r]. *)
#[local] Unset Elimination Schemes.
Inductive tree :=
| Leaf (t : symbol_type)
| Node (r : Z) (kids : list tree).
#[local] Set Elimination Schemes.

Definition root (t : tree) : Z :=
  match t with
  | Leaf s => type_get s
  | Node r _ => yyr1_.[r]
  end.

(** The text of a tree: its leaves from left to right. *)
Fixpoint yield (t : tree) : list symbol_type :=
  match t with
  | Leaf s => [s]
  | Node _ kids => flat_map yield kids
  end.

(** The type of the symbol that the lexer returns next when [w] is what is
    left of the text. *)
Definition next_type (w : list symbol_type) : Z :=
  match w with
  | t :: _ => type_get t
  | [] => yyeof_
  end.

(** The first symbol of [ts], or [la] when [ts] has no text. *)
Definition first_type (ts : list tree) (la : Z) : Z :=
  match flat_map yield ts with
  | t :: _ => type_get t
  | [] => la
  end.

(** Which rule may follow which lookahead: the five states that choose
    between a shift and a reduction on the lookahead.  [A or B] is not
    complete before [and] (rule 10), [vendor-class[...].data] not before
    ["["] (rule 33), and the top-level wrappers (rules 4 to 6) not before an
    operator. *)
Definition follow_ok (r la : Z) : bool :=
  (0 <=? la) && (la <? yyntokens_) &&
  match r with
  | 4 | 6 => negb ((la =? 6) || (la =? 7))
  | 5 => negb (la =? 8)
  | 10 => negb (la =? 6)
  | 33 => negb (la =? 14)
  | _ => true
  end.

(** Which rule [r'] the [i]-th symbol of rule [r] may be an instance of:
    the operand of [not] and the right operand of [and] are no [and]/[or];
    the left operand of [and] and the right operand of [or] are no [or]. *)
Definition allowed_child (r : Z) (i : nat) (r' : Z) : bool :=
  match r, i with
  | 8, 1%nat => negb ((r' =? 9) || (r' =? 10))
  | 9, 0%nat => negb (r' =? 10)
  | 9, 2%nat => negb ((r' =? 9) || (r' =? 10))
  | 10, 2%nat => negb (r' =? 10)
  | _, _ => true
  end.

Definition allowed (r : Z) (i : nat) (k : tree) : bool :=
  match k with
  | Leaf _ => true
  | Node r' _ => allowed_child r i r'
  end.

Definition list_eqb (l1 l2 : list Z) : bool :=
  (Nat.eqb (List.length l1) (List.length l2))
  && forallb (fun xy => fst xy =? snd xy) (combine l1 l2).

(** The children of an instance of rule [r], from the [i]-th on: each is
    allowed at its place and fits the symbol that follows it, which is the
    first symbol of its right neighbours or, for the last child, [la]. *)
Definition wf_kids (wf : Z -> tree -> bool) (r la : Z)
  : nat -> list tree -> bool :=
  fix go (i : nat) (ks : list tree) : bool :=
    match ks with
    | [] => true
    | k :: ks' => allowed r i k && wf (first_type ks' la) k && go (S i) ks'
    end.

(** [wf la t]: [t] is a parse tree of the grammar that the parser follows
    when the symbol after the text of [t] has type [la].  Every leaf is a
    terminal, every node an instance of its rule, operands respect
    precedence, and each subtree fits the symbol that follows it. *)
Fixpoint wf (la : Z) (t : tree) : bool :=
  match t with
  | Leaf s => (0 <=? type_get s) && (type_get s <? yyntokens_)
  | Node r kids =>
      (2 <=? r) && (r <=? 63)
      && list_eqb (map root kids) (rhs r)
      && follow_ok r la
      && wf_kids wf r la 0 kids
  end.

(** A whole text: an instance of [start] followed by the end of the file. *)
Definition wf_start (t : tree) : bool :=
  (root t =? 53) && wf yyeof_ t.

(** ** Syntax-directed evaluation of a parse tree

    The reference semantics of a text: visit the tree in post-order and run
    the action of every node on the symbols of its children, exactly as a
    recursive-descent translator would.  The result is the symbol of the
    root and [ctx.expression], or the way the translation ends early. *)
Definition evaluation : Type := (stack_symbol_type * list Token) + outcome.

(** The children from left to right; their symbols pile up on [stack], the
    last one on top. *)
Definition eval_kids (eval : tree -> list Token -> evaluation)
  : list tree -> list stack_symbol_type -> list Token
    -> (list stack_symbol_type * list Token) + outcome :=
  fix go (ks : list tree) (stack : list stack_symbol_type) (expression : list Token) :=
    match ks with
    | [] => inl (stack, expression)
    | k :: ks' =>
        match eval k expression with
        | inl (e, expression') => go ks' (e :: stack) expression'
        | inr o => inr o
        end
    end.

(** The action of rule [r] on the symbols of its children. *)
Definition eval_node (ctx : EvalContext) (r : Z)
           (stack : list stack_symbol_type) (expression : list Token) : evaluation :=
  match (loc <- YYLLOC_DEFAULT stack (Z.to_nat yyr2_.[r]) ;;
         res <- action ctx stack expression r ;;
         Ok (mkStackSymbol 0 (fst res) loc, snd res)) with
  | Ok res => inl res
  | Throw e => inr (Rejected e expression)
  | Undefined => inr Corrupt
  end.

Fixpoint eval (ctx : EvalContext) (t : tree) (expression : list Token) : evaluation :=
  match t with
  | Leaf s => inl (mkStackSymbol 0 (sym_value s) (sym_location s), expression)
  | Node r kids =>
      match eval_kids (eval ctx) kids [] expression with
      | inl (stack, expression') => eval_node ctx r stack expression'
      | inr o => inr o
      end
  end.

(** The outcome of compiling the text of [t]. *)
Definition compile (ctx : EvalContext) (t : tree) : outcome :=
  match eval ctx t [] with
  | inl (_, program) => Accepted program
  | inr o => o
  end.

(** ** The automaton of the tables

    What [parse ()] decides in state [yystate] on a lookahead of type
    [yytoken], read off the tables the way [yybackup] and [yydefault] do. *)

Inductive decision :=
| Shift (yystate : Z)
| Reduce (yyn : Z)
| Error.

Definition decide_default (yystate : Z) : decision :=
  let yyn := yydefact_.[yystate] in
  if yyn =? 0 then Error else Reduce yyn.

Definition decide (yystate yytoken : Z) : decision :=
  let yyn := yypact_.[yystate] in
  if yy_pact_value_is_default_ yyn then decide_default yystate
  else
    let yyn := yyn + yytoken in
    if (yyn <? 0) || (yylast_ <? yyn) || negb (yycheck_.[yyn] =? yytoken)
    then decide_default yystate
    else
      let yyn := yytable_.[yyn] in
      if yyn <=? 0 then
        if yy_table_value_is_error_ yyn then Error else Reduce (- yyn)
      else Shift yyn.

(** The lookahead once it is read. *)
Definition peek (p : parser) : symbol_type :=
  match yyla p with
  | Some la => la
  | None => fst (yylex (lex p))
  end.

(** The lexer once the lookahead is read. *)
Definition advance (p : parser) : lexer :=
  match yyla p with
  | Some _ => lex p
  | None => snd (yylex (lex p))
  end.

(** The symbol the lexer returns at the end of the text. *)
Definition eof_symbol (l : lexer) : symbol_type := mkSymbol yyeof_ v_none (eof l).

(** [pending p w]: [w] is the text that [p] has not shifted yet, the
    lookahead included. *)
Definition pending (p : parser) (w : list symbol_type) : Prop :=
  match yyla p with
  | None => tokens (lex p) = w
  | Some la =>
      la :: tokens (lex p) = w
      \/ (w = [] /\ la = eof_symbol (lex p) /\ tokens (lex p) = [])
  end.

(** The successor of state [s] on symbol [X]: a shift for a terminal, the
    goto for a nonterminal. *)
Definition trans (s X : Z) : option Z :=
  if X <? yyntokens_ then
    match decide s X with
    | Shift s' => if s =? yyfinal_ then None else Some s'
    | _ => None
    end
  else Some (yy_lr_goto_state_ s X).

Fixpoint walk (s : Z) (syms : list Z) : option Z :=
  match syms with
  | [] => Some s
  | X :: syms' =>
      match trans s X with
      | Some s' => walk s' syms'
      | None => None
      end
  end.

(** From state [s] the symbols [syms] lead to a state whose default action
    reduces rule [r]. *)
Definition leads_to (s : Z) (syms : list Z) (r : Z) : bool :=
  match walk s syms with
  | Some e => yydefact_.[e] =? r
  | None => false
  end.

Definition valid_state (s : Z) : bool := (0 <=? s) && (s <? 166).

Definition rules : list Z := Zrange 2 64.

Definition states : list Z := Zrange 0 166.

(** State [s] expects an instance of rule [r]: the right-hand side leads to
    the reduction, and when it begins with a nonterminal, so does a rule of
    that nonterminal which begins with a terminal. *)
Definition expects (s r : Z) : bool :=
  if leads_to s (rhs r) r then
    match rhs r with
    | X :: _ =>
        if X <? yyntokens_ then true
        else existsb (fun r' => if yyr1_.[r'] =? X then
                                  match rhs r' with
                                  | Y :: _ => if Y <? yyntokens_
                                              then leads_to s (rhs r') r' else false
                                  | [] => false
                                  end
                                else false) rules
    | [] => false
    end
  else false.

Definition decision_eqb (d1 d2 : decision) : bool :=
  match d1, d2 with
  | Shift s1, Shift s2 => s1 =? s2
  | Reduce r1, Reduce r2 => r1 =? r2
  | Error, Error => true
  | _, _ => false
  end.

(** The automaton follows the right-hand side [syms] of rule [r] from its
    [i]-th symbol on, starting in state [s]: every symbol has a successor
    inside the automaton, a state before a nonterminal expects every rule
    that is allowed there, and the last state reduces rule [r] on every
    lookahead that may follow it. *)
Fixpoint follows (r : Z) (i : nat) (s : Z) (syms : list Z) : bool :=
  match syms with
  | [] =>
      (yydefact_.[s] =? r) && negb (s =? yyfinal_)
      && forallb (fun la => if follow_ok r la
                            then decision_eqb (decide s la) (Reduce r) else true)
                 (Zrange 0 yyntokens_)
  | X :: syms' =>
      match trans s X with
      | Some s' =>
          valid_state s'
          && (if X <? yyntokens_ then true
              else forallb (fun r' => if (yyr1_.[r'] =? X) && allowed_child r i r'
                                      then expects s r' else true) rules)
          && follows r (S i) s' syms'
      | None => false
      end
  end.

(** A stack symbol without its state: what the actions read. *)
Definition strip (e : stack_symbol_type) : stack_symbol_type :=
  mkStackSymbol 0 (value e) (location e).

(** What a node needs of the state it starts in. *)
Definition starts (s : Z) (t : tree) : bool :=
  match t with
  | Leaf x => match trans s (type_get x) with Some _ => true | None => false end
  | Node r _ => expects s r
  end.

(** ** Termination measure *)

(** How far the symbol that state [s] is entered on is from the top of a
    chain of unit rules. *)
Definition rank (s : Z) : nat :=
  let X := yystos_.[s] in
  if X <? yyntokens_ then 3%nat
  else if X =? 58 then 2%nat
  else if (X =? 56) || (X =? 57) then 1%nat
  else 0%nat.

Definition top_state (p : parser) : Z :=
  match yystack_ p with
  | top :: _ => state top
  | [] => 0
  end.

(** A symbol counts unless it is the end of the file. *)
Definition symbol_weight (t : symbol_type) : nat :=
  if type_get t =? yyeof_ then 0%nat else 1%nat.

Definition lookahead_weight (p : parser) : nat :=
  match yyla p with
  | Some la => symbol_weight la
  | None => 0%nat
  end.

Definition final_bonus (p : parser) : nat :=
  if top_state p =? yyfinal_ then 0%nat else 8%nat.

Definition measure (p : parser) : nat :=
  (8 * (2 * List.length (tokens (lex p)) + lookahead_weight p)
   + 4 * List.length (yystack_ p)
   + rank (top_state p)
   + final_bonus p)%nat.

Definition valid (p : parser) : Prop :=
  Forall (fun e => valid_state (state e) = true) (yystack_ p).

(** The parser once the lookahead is read. *)
Definition read_lookahead (p : parser) : parser :=
  mkParser (yystack_ p) (Some (peek p)) (advance p) (expression p).

(** The parser after shifting the lookahead into state [s]. *)
Definition shifted (s : Z) (p : parser) : parser :=
  mkParser (mkStackSymbol s (sym_value (peek p)) (sym_location (peek p)) :: yystack_ p)
           None (advance p) (expression p).

(** ** Runs *)

Section Runs.

Variable ctx : EvalContext.

(** [p] gets to [p'] in some turns of the loop. *)
Inductive reaches : parser -> parser -> Prop :=
| reaches_refl (p : parser) : reaches p p
| reaches_step (p p' p'' : parser) :
    step ctx p = inl p' -> reaches p' p'' -> reaches p p''.

(** [parse ()] started in [p] ends with [o]. *)
Inductive ends : parser -> outcome -> Prop :=
| ends_now (p : parser) (o : outcome) : step ctx p = inr o -> ends p o
| ends_later (p p' : parser) (o : outcome) :
    step ctx p = inl p' -> ends p' o -> ends p o.

(** [n] turns of the loop. *)
Fixpoint steps (n : nat) (p : parser) : parser + outcome :=
  match n with
  | O => inl p
  | S n' =>
      match step ctx p with
      | inl p' => steps n' p'
      | inr o => inr o
      end
  end.

End Runs.

(** ** The shape of the tables *)

Definition rank_of_symbol (X : Z) : nat :=
  if X <? yyntokens_ then 3%nat
  else if X =? 58 then 2%nat
  else if (X =? 56) || (X =? 57) then 1%nat
  else 0%nat.

(** Every explicit entry of a state is a shift into a state of the
    automaton, and the final state is entered on the end of the file only. *)
Definition shift_entries_ok (s : Z) : bool :=
  forallb (fun i =>
             let t := i - yypact_.[s] in
             if yycheck_.[i] =? t then
               (0 <? yytable_.[i]) && valid_state yytable_.[i]
               && Bool.eqb (yytable_.[i] =? yyfinal_) (t =? yyeof_)
             else true) (Zrange 0 180).

(** Default reductions: a rule from 2 on (rule 1 belongs to the final
    state), with a right-hand side that is not empty, and a left-hand side
    that ranks below the state when the rule is a unit rule. *)
Definition default_ok (s : Z) : bool :=
  let r := yydefact_.[s] in
  (0 <=? r) && (r <=? 63)
  && (if r =? 0 then negb (yy_pact_value_is_default_ yypact_.[s])
      else if s =? yyfinal_ then true
      else (2 <=? r) && (1 <=? yyr2_.[r])
           && (53 <=? yyr1_.[r]) && (yyr1_.[r] <=? 68)
           && (if yyr2_.[r] =? 1
               then Nat.ltb (rank_of_symbol yyr1_.[r]) (rank s) else true)).

(** Gotos stay inside the automaton and enter a state on the symbol they
    are taken on. *)
Definition goto_ok (s : Z) : bool :=
  forallb (fun A =>
             let g := yy_lr_goto_state_ s A in
             valid_state g && (yystos_.[g] =? A) && negb (g =? yyfinal_))
          (Zrange 53 69).


(** ** The parser and the trees

    [simulates ctx t]: from any stack whose top state expects [t], with the
    text of [t] ahead, the parser gets to the same stack with the symbol of
    [t] pushed, having done to [ctx.expression] what [eval] does, or ends
    the way [eval] ends. *)
Definition simulates (ctx : EvalContext) (t : tree) : Prop :=
  forall (la s : Z) (p : parser) (w : list symbol_type)
         (top : stack_symbol_type) (st : list stack_symbol_type),
    wf la t = true -> starts s t = true -> valid_state s = true ->
    next_type w = la ->
    yystack_ p = top :: st -> state top = s ->
    pending p (yield t ++ w) ->
    match eval ctx t (expression p) with
    | inl (e, expression') =>
        exists (p' : parser) (s' : Z),
          reaches ctx p p'
          /\ trans s (root t) = Some s' /\ valid_state s' = true
          /\ yystack_ p' = mkStackSymbol s' (value e) (location e) :: yystack_ p
          /\ pending p' w
          /\ expression p' = expression'
          /\ eof (lex p') = eof (lex p)
    | inr o => ends ctx p o
    end.

(** ** Vocabulary of the properties *)

(** The rules whose action calls [ctx.expression.push_back]. *)
Definition appends_token (r : Z) : bool :=
  ((8 <=? r) && (r <=? 35)) || ((61 <=? r) && (r <=? 63)).

Definition universe_eqb (u1 u2 : Universe) : bool :=
  match u1, u2 with
  | V4, V4 | V6, V6 => true
  | _, _ => false
  end.

(** The protocol family a token is bound to, if any: the family-specific
    tokens by their class, the vendor tokens by the universe they store. *)
Definition token_universe (t : Token) : option Universe :=
  match t with
  | TokenRelay4Option _ _ | TokenPkt4 _ => Some V4
  | TokenRelay6Option _ _ _ | TokenPkt6 _ | TokenRelay6Field _ _ => Some V6
  | TokenVendorRepr u _ _ _ | TokenVendorField u _ _
  | TokenVendorClassRepr u _ _ | TokenVendorClassField u _ _ _ => Some u
  | _ => None
  end.

Definition fits_universe (u : Universe) (t : Token) : bool :=
  match token_universe t with
  | Some u' => universe_eqb u u'
  | None => true
  end.

(** The errors of the semantic checks: a protocol-family mismatch, raised
    by an action, or a literal that a conversion rejects. *)
Definition semantic (e : exception) : bool :=
  match e with
  | ParseError SemanticError _ _ => true
  | ConversionError _ _ => true
  | ParseError SyntaxError _ _ => false
  end.

(** The rules of the constructs bound to one protocol family. *)
Definition v4_only (r : Z) : bool := (r =? 13) || (r =? 22) || (r =? 25).

Definition v6_only (r : Z) : bool := (r =? 14) || (r =? 23) || (r =? 26) || (r =? 27).

(** The rules that the family [u] of the context rejects. *)
Definition gated (u : Universe) (r : Z) : bool :=
  match u with
  | V4 => v6_only r
  | V6 => v4_only r
  end.

(** The value a symbol carries, [switch (that.type_get ())] in the
    constructor of [stack_symbol_type]. *)
Definition carries (X : Z) (v : semantic_type) : bool :=
  match X with
  | 60 => match v with v_repr _ => true | _ => false end
  | 64 => match v with v_pkt4 _ => true | _ => false end
  | 65 => match v with v_pkt6 _ => true | _ => false end
  | 62 => match v with v_metadata _ => true | _ => false end
  | 66 => match v with v_relay6 _ => true | _ => false end
  | 47 | 48 | 49 | 50 | 51 => match v with v_string _ => true | _ => false end
  | 59 => match v with v_uint16 _ => true | _ => false end
  | 58 | 63 => match v with v_uint32 _ => true | _ => false end
  | 61 => match v with v_uint8 _ => true | _ => false end
  | _ => true
  end.

(** Every leaf carries the value of its symbol type, as the lexer builds
    it. *)
Fixpoint well_lexed (t : tree) : bool :=
  match t with
  | Leaf s => carries (type_get s) (sym_value s)
  | Node _ kids => forallb well_lexed kids
  end.

(** Some node of the tree is an instance of a rule that satisfies [f]. *)
Fixpoint mentions (f : Z -> bool) (t : tree) : bool :=
  match t with
  | Leaf _ => false
  | Node r kids => f r || existsb (mentions f) kids
  end.

(** What the action of a family-specific rule reports when the family of
    the context is the other one, and where: at the keyword that opens the
    construct, [yystack_[keyword_index r]]. *)
Definition mismatch_message (r : Z) : string :=
  match r with
  | 13 | 22 => "relay4 can only be used in DHCPv4."
  | 25 => "pkt4 can only be used in DHCPv4."
  | 26 => "pkt6 can only be used in DHCPv6."
  | _ => "relay6 can only be used in DHCPv6."
  end.

Definition keyword_index (r : Z) : nat :=
  match r with
  | 14 | 23 => 10%nat
  | 25 | 26 => 2%nat
  | _ => 5%nat
  end.

(** An evaluation that starts from a program that is not empty. *)
Definition prepend_outcome (ex : list Token) (o : outcome) : outcome :=
  match o with
  | Accepted l => Accepted (ex ++ l)
  | Rejected e l => Rejected e (ex ++ l)
  | o => o
  end.

Definition prepend {A : Type} (ex : list Token) (r : (A * list Token) + outcome)
  : (A * list Token) + outcome :=
  match r with
  | inl (a, l) => inl (a, ex ++ l)
  | inr o => inr (prepend_outcome ex o)
  end.

(** The keywords of the constructs that family [u] does not have. *)
Definition foreign (u : Universe) (ty : Z) : bool :=
  match u with
  | V4 => (ty =? 11) || (ty =? 37)
  | V6 => (ty =? 10) || (ty =? 25)
  end.

(** What a translation may end with on a well-lexed text: a symbol that
    carries the value of its type, or a semantic error; never undefined
    behaviour. *)
Definition sound (X : Z) (r : evaluation) : Prop :=
  match r with
  | inl (e, _) => carries X (value e) = true
  | inr (Rejected e _) => semantic e = true
  | inr _ => False
  end.

(** The rules of the vendor and vendor-class constructs. *)
Definition vendor_rule (r : Z) : bool :=
  (r =? 15) || (r =? 16) || (r =? 17)
  || (r =? 30) || (r =? 31) || (r =? 32) || (r =? 33) || (r =? 34).

(** The symbols [es], topmost first, are the right-hand side of rule [r],
    each with the value of its type. *)
Definition typed_stack (r : Z) (es : list stack_symbol_type) : bool :=
  Nat.eqb (List.length es) (List.length (rhs r))
  && forallb (fun Xe => carries (fst Xe) (value (snd Xe))) (combine (rev (rhs r)) es).

(** ** Terminals

    The numbers of the terminals the properties name, as [yytname_] lists
    them (the enumeration [token] of [parser.h]). *)
Module token.
Definition END : Z := 0.
Definition LPAREN : Z := 3.
Definition RPAREN : Z := 4.
Definition NOT : Z := 5.
Definition AND : Z := 6.
Definition OR : Z := 7.
Definition EQUAL : Z := 8.
Definition OPTION : Z := 9.
Definition RELAY4 : Z := 10.
Definition RELAY6 : Z := 11.
Definition PEERADDR : Z := 12.
Definition LBRACKET : Z := 14.
Definition RBRACKET : Z := 15.
Definition DOT : Z := 16.
Definition TEXT : Z := 17.
Definition HEX : Z := 18.
Definition EXISTS : Z := 19.
Definition PKT4 : Z := 25.
Definition SUBSTRING : Z := 33.
Definition ALL : Z := 34.
Definition COMA : Z := 35.
Definition PKT6 : Z := 37.
Definition MSGTYPE : Z := 38.
Definition VENDOR_CLASS : Z := 40.
Definition VENDOR : Z := 41.
Definition ANY : Z := 42.
Definition DATA : Z := 43.
Definition ENTERPRISE : Z := 44.
Definition TOPLEVEL_BOOL : Z := 45.
Definition TOPLEVEL_STRING : Z := 46.
Definition STRING : Z := 47.
Definition INTEGER : Z := 48.
End token.

(** A symbol without a value, and a symbol that carries the text of a
    literal, as the lexer makes them. *)
Definition make (ty : Z) (loc : location_type) : symbol_type :=
  mkSymbol ty v_none loc.

Definition make_literal (ty : Z) (text : string) (loc : location_type) : symbol_type :=
  mkSymbol ty (v_string text) loc.

(** A token fits the family of the context. *)
Definition fits_in (ctx : EvalContext) (t : Token) : Prop :=
  fits_universe (getUniverse ctx) t = true.

(** The program of a text that compiles. *)
Definition program_of (ctx : EvalContext) (t : tree) : option (list Token) :=
  match eval ctx t [] with
  | inl (_, program) => Some program
  | inr _ => None
  end.

(** A boolean expression that is neither a conjunction nor a disjunction:
    a parenthesised expression, a negation, a comparison or an existence
    test. *)
Definition operand (t : tree) : bool :=
  match t with
  | Leaf _ => false
  | Node r _ => negb ((r =? 9) || (r =? 10))
  end.

(** A well-formed operand, as it stands before [and]. *)
Definition primary (t : tree) : bool :=
  (root t =? 56) && operand t && wf token.AND t.

(** The enterprise number that an enterprise id denotes; it emits no
    token. *)
Definition enterprise (ctx : EvalContext) (E : tree) : option Z :=
  match eval ctx E [] with
  | inl (sym, []) =>
      match value sym with
      | v_uint32 id => Some id
      | _ => None
      end
  | _ => None
  end.

(** ** The wording of a syntax error

    What [yysyntax_error_] computes, said directly: the terminals that the
    state has an explicit action for, and the message built from them. *)

(** Terminal [x] has an explicit action in state [yystate]. *)
Definition shiftable (yystate x : Z) : bool :=
  let i := x + yypact_.[yystate] in
  negb (yy_pact_value_is_default_ yypact_.[yystate])
  && (0 <=? i) && (i <=? yylast_) && (yycheck_.[i] =? x)
  && negb (x =? yyterror_) && negb (yy_table_value_is_error_ yytable_.[i]).

Definition expected (yystate : Z) : list Z :=
  filter (shiftable yystate) (Zrange 0 yyntokens_).

(** The name of a symbol as a message shows it. *)
Definition symbol_name (X : Z) : string :=
  yytnamerr_ (nth (Z.to_nat X) yytname_ "").

Fixpoint join_or (names : list string) : string :=
  match names with
  | [] => ""
  | [a] => a
  | a :: rest => (a ++ " or " ++ join_or rest)%string
  end.

(** The message for the unexpected terminal [unexpected] in state
    [yystate]: the expected terminals are listed when there are one to four
    of them. *)
Definition syntax_message (yystate unexpected : Z) : string :=
  let names := map symbol_name (expected yystate) in
  ("syntax error, unexpected " ++ symbol_name unexpected
   ++ (if Nat.leb 1 (List.length names) && Nat.leb (List.length names) 4
       then ", expecting " ++ join_or names
       else ""))%string.

(** The lookahead and the lexer of [p] hold symbols of the text of [lx]
    only. *)
Definition from_text (lx : lexer) (p : parser) : Prop :=
  eof (lex p) = eof lx
  /\ incl (tokens (lex p)) (tokens lx)
  /\ (forall la, yyla p = Some la -> In la (tokens lx) \/ la = eof_symbol lx).

(** ** Sample texts *)

(** The span from column [a] to column [b] of line 1. *)
Definition columns (a b : Z) : location_type :=
  mkLocation (mkPosition 1 a) (mkPosition 1 b).

Definition no_names (name : string) : option Z := None.

(** A boolean text: the start symbol of the lexer, then the expression. *)
Definition bool_text (b : tree) : tree :=
  Node 2 [Leaf (make token.TOPLEVEL_BOOL (columns 1 1)); Node 6 [b]].

(** A string text. *)
Definition string_text (s : tree) : tree :=
  Node 3 [Leaf (make token.TOPLEVEL_STRING (columns 1 1)); Node 5 [s]].

(** [relay6[0].option[17].exists] *)
Definition relay6_exists : tree :=
  Node 14 [Leaf (make token.RELAY6 (columns 1 7));
           Leaf (make token.LBRACKET (columns 7 8));
           Node 41 [Leaf (make_literal token.INTEGER "0" (columns 8 9))];
           Leaf (make token.RBRACKET (columns 9 10));
           Leaf (make token.DOT (columns 10 11));
           Leaf (make token.OPTION (columns 11 17));
           Leaf (make token.LBRACKET (columns 17 18));
           Node 37 [Leaf (make_literal token.INTEGER "17" (columns 18 20))];
           Leaf (make token.RBRACKET (columns 20 21));
           Leaf (make token.DOT (columns 21 22));
           Leaf (make token.EXISTS (columns 22 28))].

(** ['abc'] *)
Definition string_abc : tree :=
  Node 18 [Leaf (make_literal token.STRING "abc" (columns 11 16))].

(** [option[1].text] *)
Definition option_text : tree :=
  Node 21 [Leaf (make token.OPTION (columns 1 7));
           Leaf (make token.LBRACKET (columns 7 8));
           Node 37 [Leaf (make_literal token.INTEGER "1" (columns 8 9))];
           Leaf (make token.RBRACKET (columns 9 10));
           Leaf (make token.DOT (columns 10 11));
           Node 39 [Leaf (make token.TEXT (columns 11 15))]].

(** [relay4[1].exists] *)
Definition relay4_exists : tree :=
  Node 13 [Leaf (make token.RELAY4 (columns 1 7));
           Leaf (make token.LBRACKET (columns 7 8));
           Node 37 [Leaf (make_literal token.INTEGER "1" (columns 8 9))];
           Leaf (make token.RBRACKET (columns 9 10));
           Leaf (make token.DOT (columns 10 11));
           Leaf (make token.EXISTS (columns 11 17))].

(** The stack when [relay4[1].exists] is about to be reduced, after
    [TOPLEVEL_BOOL]. *)
Definition relay4_stack : list stack_symbol_type :=
  [mkStackSymbol 115 v_none (columns 11 17);
   mkStackSymbol 99 v_none (columns 10 11);
   mkStackSymbol 87 v_none (columns 9 10);
   mkStackSymbol 49 (v_uint16 1) (columns 8 9);
   mkStackSymbol 31 v_none (columns 7 8);
   mkStackSymbol 7 v_none (columns 1 7);
   mkStackSymbol 1 v_none (columns 1 1);
   mkStackSymbol 0 v_none location0].

(** The symbols of [vendor[4491].exists], topmost first. *)
Definition vendor_exists_symbols : list stack_symbol_type :=
  [mkStackSymbol 131 v_none (columns 13 19);
   mkStackSymbol 110 v_none (columns 12 13);
   mkStackSymbol 97 v_none (columns 11 12);
   mkStackSymbol 81 (v_uint32 4491) (columns 8 12);
   mkStackSymbol 40 v_none (columns 7 8);
   mkStackSymbol 15 v_none (columns 1 7)].

(** The text [)], which no expression begins with. *)
Definition stray_paren : list symbol_type :=
  [make token.TOPLEVEL_BOOL (columns 1 1); make token.RPAREN (columns 1 2)].

(** [option[code].exists], starting at column [c]. *)
Definition option_exists (code : string) (c : Z) : tree :=
  Node 12 [Leaf (make token.OPTION (columns c (c + 6)));
           Leaf (make token.LBRACKET (columns (c + 6) (c + 7)));
           Node 37 [Leaf (make_literal token.INTEGER code (columns (c + 7) (c + 8)))];
           Leaf (make token.RBRACKET (columns (c + 8) (c + 9)));
           Leaf (make token.DOT (columns (c + 9) (c + 10)));
           Leaf (make token.EXISTS (columns (c + 10) (c + 16)))].

(** The tokens of a boolean text: the start symbol of the lexer, then the
    tokens [ts] of the expression; [e] is where the text ends. *)
Definition bool_input (ts : list symbol_type) (e : location_type) : lexer :=
  mkLexer (make token.TOPLEVEL_BOOL (columns 1 1) :: ts) e.

(** [option[1].exists or option[2].exists and option[3].exists] *)
Definition or_then_and : list symbol_type :=
  yield (option_exists "1" 1)
  ++ make token.OR (columns 18 20)
  :: yield (option_exists "2" 21)
  ++ make token.AND (columns 38 41)
  :: yield (option_exists "3" 42).

(** [(option[1].exists or option[2].exists) and option[3].exists] *)
Definition or_grouped_then_and : list symbol_type :=
  make token.LPAREN (columns 1 2)
  :: yield (option_exists "1" 2)
  ++ make token.OR (columns 19 21)
  :: yield (option_exists "2" 22)
  ++ make token.RPAREN (columns 38 39)
  :: make token.AND (columns 40 43)
  :: yield (option_exists "3" 44).

(** The enterprise id [4491], at columns 14 to 18. *)
Definition enterprise_4491 : tree :=
  Node 46 [Leaf (make_literal token.INTEGER "4491" (columns 14 18))].

(** [vendor[].exists]: no enterprise id between the brackets. *)
Definition vendor_without_id : list symbol_type :=
  [make token.VENDOR (columns 1 7); make token.LBRACKET (columns 7 8);
   make token.RBRACKET (columns 8 9); make token.DOT (columns 9 10);
   make token.EXISTS (columns 10 16)].

(** ** The stack as a forest

    What the states on the stack say about the text read so far.  The
    tables keep no right-hand sides, so the link between a state and the
    symbols below it is read backwards: from a state to the states that it
    is entered from. *)

(** State [s] is entered from state [p]: by the shift of the terminal that
    [s] stands for ([yystos_]), or by the goto that follows the reduction
    of a rule that [p] expects. *)
Definition enters (p s : Z) : bool :=
  let X := yystos_.[s] in
  if X <? yyntokens_ then
    match trans p X with
    | Some s' => s' =? s
    | None => false
    end
  else
    if yy_lr_goto_state_ p X =? s
    then existsb (fun r => if yyr1_.[r] =? X then expects p r else false) rules
    else false.

Definition preds (s : Z) : list Z := filter (fun p => enters p s) states.

(** Below state [s] the stack holds the symbols [syms], the topmost first,
    whichever way [s] was reached; the bottom of the stack (state 0) is not
    among them. *)
Fixpoint spine (syms : list Z) (s : Z) : bool :=
  match syms with
  | [] => true
  | X :: syms' =>
      if (yystos_.[s] =? X) && negb (s =? 0)
      then forallb (spine syms') (preds s)
      else false
  end.

(** A state that reduces a rule has the right-hand side of the rule below
    it. *)
Definition spine_ok (s : Z) : bool :=
  let r := yydefact_.[s] in
  if (r =? 0) || (s =? yyfinal_) then true else spine (rev (rhs r)) s.

(** What state [s] decides on a terminal: a shift enters a state that
    stands for the terminal, a reduction is one that the terminal may
    follow. *)
Definition decisions_ok (s : Z) : bool :=
  forallb (fun la => match decide s la with
                     | Shift s' => yystos_.[s'] =? la
                     | Reduce r => (yydefact_.[s] =? r) && follow_ok r la
                     | Error => true
                     end) (Zrange 0 yyntokens_).

(** A rule that state [s] leads through and whose first symbol is an
    instance of a rule that [s] expects is expected by [s] itself. *)
Definition begin_ok (s : Z) : bool :=
  forallb (fun r =>
             if leads_to s (rhs r) r then
               match rhs r with
               | X :: _ =>
                   if X <? yyntokens_ then expects s r
                   else forallb (fun r0 => if yyr1_.[r0] =? X
                                           then if expects s r0 then expects s r else true
                                           else true) rules
               | [] => true
               end
             else true) rules.

(** The terminal that a right-hand side goes on with. *)
Definition next_terminal (syms : list Z) : option Z :=
  match syms with
  | Y :: _ => if Y <? yyntokens_ then Some Y else None
  | [] => None
  end.

(** Along the right-hand side [syms] of rule [r], from its [i]-th symbol on
    and from state [s]: every rule that a state expects for a nonterminal
    is allowed at that place, or cannot be followed by the terminal that
    comes next. *)
Fixpoint permits (r : Z) (i : nat) (s : Z) (syms : list Z) : bool :=
  match syms with
  | [] => true
  | X :: syms' =>
      (if X <? yyntokens_ then true
       else forallb (fun r' =>
                       if yyr1_.[r'] =? X then
                         if expects s r' then
                           if allowed_child r i r' then true
                           else match next_terminal syms' with
                                | Some Y => negb (follow_ok r' Y)
                                | None => false
                                end
                         else true
                       else true) rules)
      && match trans s X with
         | Some s' => permits r (S i) s' syms'
         | None => true
         end
  end.

Definition permits_ok (s : Z) : bool :=
  forallb (fun r => if expects s r then permits r 0 s (rhs r) else true) rules.

(** The final state is entered from the state of [start] only, and that
    one from state 0 only, which nothing enters. *)
Definition accept_ok : bool :=
  forallb (fun s => negb (enters s 0)
                    && (if enters s yyfinal_ then yystos_.[s] =? 53 else true)
                    && (if yystos_.[s] =? 53
                        then forallb (fun p => if enters p s then p =? 0 else true) states
                        else true)) states.

(** A symbol as the lexer returns it inside a text: a terminal other than
    the end of the file, with the value of its type. *)
Definition lexed (x : symbol_type) : bool :=
  (0 <? type_get x) && (type_get x <? yyntokens_)
  && carries (type_get x) (sym_value x).

(** The state on top of the symbols [es] (the deepest first) pushed over
    state [s]. *)
Definition ending (s : Z) (es : list stack_symbol_type) : Z :=
  fold_left (fun _ e => state e) es s.

(** The symbols [es], pushed over state [s] (the deepest first), stand for
    the trees [ts], of which the last is followed by a symbol of type [la]:
    each state stands for the root of its tree and is entered from the state
    below on that root, each tree is one that the state below it expects,
    is well formed before the text of the trees after it, and each symbol
    carries the value of its type. *)
Fixpoint grown (s la : Z) (es : list stack_symbol_type) (ts : list tree) : bool :=
  match es, ts with
  | [], [] => true
  | e :: es', t :: ts' =>
      valid_state (state e)
      && (yystos_.[state e] =? root t)
      && match trans s (root t) with
         | Some s' => s' =? state e
         | None => false
         end
      && starts s t
      && wf (first_type ts' la) t
      && carries (root t) (value e)
      && grown (state e) la es' ts'
  | _, _ => false
  end.

(** What holds at every turn of the loop on the text of [l]: the stack,
    over its bottom, stands for a forest [ts] whose text is what was read,
    whose translation gave the values and locations on the stack and the
    program; [w] is the text still to come. *)
Definition invariant (ctx : EvalContext) (l : lexer) (p : parser) (ts : list tree)
  : Prop :=
  exists (es : list stack_symbol_type) (bottom : stack_symbol_type)
         (w : list symbol_type),
    yystack_ p = rev es ++ [bottom] /\ state bottom = 0
    /\ grown 0 (type_get (peek p)) es ts = true
    /\ eval_kids (eval ctx) ts [] [] = inl (map strip (rev es), expression p)
    /\ tokens l = flat_map yield ts ++ w /\ pending p w
    /\ Forall (fun x => lexed x = true) w
    /\ eof (lex p) = eof l
    /\ top_state p <> yyfinal_.

(** The symbol that the lexer of [l] returns when [w] is what is left of
    the text. *)
Definition next_symbol (l : lexer) (w : list symbol_type) : symbol_type :=
  match w with
  | x :: _ => x
  | [] => eof_symbol l
  end.

(** ** Where errors come from *)

(** The message of a keyword that belongs to the other family. *)
Definition keyword_message (ty : Z) : string :=
  match ty with
  | 10 => "relay4 can only be used in DHCPv4."
  | 25 => "pkt4 can only be used in DHCPv4."
  | 37 => "pkt6 can only be used in DHCPv6."
  | _ => "relay6 can only be used in DHCPv6."
  end.

(** The rules whose action converts a literal, where the literal is on the
    stack ([yystack_[literal_index r]]), and the conversion of the context
    that the action calls. *)
Definition converts (r : Z) : bool :=
  (r =? 34) || (r =? 36) || (r =? 37) || (r =? 38) || (r =? 41) || (r =? 46).

Definition literal_index (r : Z) : nat :=
  match r with
  | 34 => 1%nat
  | _ => 0%nat
  end.

Definition conversion (ctx : EvalContext) (r : Z)
  : string -> location_type -> option Z :=
  match r with
  | 34 => convertUint8 ctx
  | 37 => convertOptionCode ctx
  | 38 => convertOptionName ctx
  | 41 => convertNestLevelNumber ctx
  | _ => convertUint32 ctx
  end.

(** ** More sample texts *)

(** The parser with [ex] put before its program. *)
Definition with_program (ex : list Token) (p : parser) : parser :=
  mkParser (yystack_ p) (yyla p) (lex p) (ex ++ expression p).

(** [option[1].exists], as a boolean text. *)
Definition option_1_exists : lexer :=
  bool_input (yield (option_exists "1" 1)) (columns 17 17).

(** [option[70000].exists]: the code does not fit in 16 bits. *)
Definition option_70000_exists : lexer :=
  bool_input
    [make token.OPTION (columns 1 7); make token.LBRACKET (columns 7 8);
     make_literal token.INTEGER "70000" (columns 8 13);
     make token.RBRACKET (columns 13 14); make token.DOT (columns 14 15);
     make token.EXISTS (columns 15 21)] (columns 21 21).

(** [relay4[1].exists], as a boolean text. *)
Definition relay4_1_exists : lexer :=
  mkLexer (yield (bool_text relay4_exists)) (columns 17 17).

(** ** The size of the program *)

(** The number of tokens that the translation of a tree appends: one for
    each node whose rule calls [push_back]. *)
Fixpoint emits (t : tree) : nat :=
  match t with
  | Leaf _ => 0%nat
  | Node r kids =>
      ((if appends_token r then 1 else 0) + list_sum (map emits kids))%nat
  end.

(** The symbols whose text is one symbol longer than what they append: the
    terminals, [integer_expr], and [start]. *)
Definition slack (X : Z) : nat :=
  if X <? yyntokens_ then 1%nat
  else if (X =? 58) || (X =? 53) then 1%nat
  else 0%nat.

(** The symbols that append a token: [start], the two top-level
    expressions, [bool_expr] and [string_expr]. *)
Definition needs (X : Z) : bool := (53 <=? X) && (X <=? 57).

(** ** Names without special characters *)

(** A name that [yytnamerr_] copies as it is: no apostrophe, comma,
    backslash or double quote. *)
Fixpoint plain (s : string) : bool :=
  match s with
  | EmptyString => true
  | String c rest =>
      negb (Ascii.eqb c "'"%char || Ascii.eqb c ","%char
            || Ascii.eqb c "\"%char || Ascii.eqb c dquote)
      && plain rest
  end.

(** ** Boolean programs *)

(** The tokens that the rules of [bool_expr] append: the logical operators,
    the comparison, and the existence tests. *)
Definition boolean_token (t : Token) : bool :=
  match t with
  | TokenNot | TokenAnd | TokenOr | TokenEqual => true
  | TokenOption _ TokenOption.EXISTS
  | TokenRelay4Option _ TokenOption.EXISTS
  | TokenRelay6Option _ _ TokenOption.EXISTS
  | TokenVendorRepr _ _ TokenOption.EXISTS _
  | TokenVendorClassRepr _ _ TokenOption.EXISTS => true
  | _ => false
  end.

(** ** The symbols that were shifted *)

(** The symbols that the first [n] turns of the loop started in [p] shift,
    in the order of the shifts: a turn that goes on shifts its lookahead
    when the tables have a shift for it ([yypush_ ("Shifting", yyn, yyla)]),
    and otherwise reduces, which shifts nothing. *)
Fixpoint shifts (ctx : EvalContext) (n : nat) (p : parser) : list symbol_type :=
  match n with
  | O => []
  | S n' =>
      match step ctx p with
      | inl p' =>
          match decide (top_state p) (type_get (peek p)) with
          | Shift _ => peek p :: shifts ctx n' p'
          | _ => shifts ctx n' p'
          end
      | inr _ => []
      end
  end.

(** ** Vendor tokens *)

(** The universe that a token of class [TokenVendor] stores. *)
Definition vendor_universe (t : Token) : option Universe :=
  match t with
  | TokenVendorRepr u _ _ _ | TokenVendorField u _ _ => Some u
  | _ => None
  end.

(** The universe that a token of class [TokenVendorClass] stores. *)
Definition vendor_class_universe (t : Token) : option Universe :=
  match t with
  | TokenVendorClassRepr u _ _ | TokenVendorClassField u _ _ _ => Some u
  | _ => None
  end.

(** The vendor rules of the [vendor-class] constructs; the others are
    those of the [vendor] constructs. *)
Definition vendor_class_rule (r : Z) : bool :=
  (r =? 15) || (r =? 31) || (r =? 33) || (r =? 34).

(** * Properties *)

(** ** Ranges and tables *)

Lemma Zrange_In (lo hi x : Z) : In x (Zrange lo hi) <-> lo <= x < hi.
Proof.
  unfold Zrange. rewrite in_map_iff. split.
  - intros [k [<- Hk]]. apply in_seq in Hk. lia.
  - intros H. exists (Z.to_nat (x - lo)). split; [lia|].
    apply in_seq. lia.
Qed.

Lemma forall_states (P : Z -> bool) :
  forallb P states = true -> forall s, valid_state s = true -> P s = true.
Proof.
  intros H s Hs. rewrite forallb_forall in H. apply H.
  apply Zrange_In. unfold valid_state in Hs. lia.
Qed.

Lemma forall_rules (P : Z -> bool) :
  forallb P rules = true -> forall r, 2 <= r <= 63 -> P r = true.
Proof.
  intros H r Hr. rewrite forallb_forall in H. apply H.
  apply Zrange_In. lia.
Qed.

Lemma at_out_of_range (t : list Z) (i : Z) :
  Z.of_nat (List.length t) <= i -> t.[i] = 0.
Proof.
  intros H. unfold at_. apply nth_overflow. lia.
Qed.

(** The constants of [parser.h] agree with the tables. *)
Lemma constants_from_tables :
  yylast_ = Z.of_nat (List.length yytable_) - 1
  /\ List.length yycheck_ = List.length yytable_
  /\ nth (Z.to_nat yyntokens_) yytname_ "" = "$accept"
  /\ yystos_.[yyfinal_] = yyeof_
  /\ decide 3 yyeof_ = Shift yyfinal_
  /\ nth (Z.to_nat yyterror_) yytname_ "" = "error"
  /\ nth (Z.to_nat yyeof_) yytname_ "" = quoted "end of file".
Proof. repeat split. Qed.

(** The grammar agrees with [yyr2_], and every rule is expected somewhere. *)
Lemma grammar_from_tables :
  forallb (fun r => (Z.of_nat (List.length (rhs r)) =? yyr2_.[r])
                    && existsb (fun s => expects s r) states) rules = true.
Proof. vm_compute. reflexivity. Qed.

(** ** One turn of the loop *)

Section Step.

Variable ctx : EvalContext.

Lemma step_final (p : parser) (top : stack_symbol_type) (st : list stack_symbol_type) :
  yystack_ p = top :: st -> state top = yyfinal_ ->
  step ctx p = inr (Accepted (expression p)).
Proof.
  intros Hst Hf. unfold step. rewrite Hst, Hf. reflexivity.
Qed.

(** [step] follows [decide] on the lookahead; the lookahead is read unless
    the state has a default action only. *)
Lemma step_decide (p : parser) (top : stack_symbol_type) (st : list stack_symbol_type) :
  yystack_ p = top :: st -> state top <> yyfinal_ ->
  step ctx p =
  match decide (state top) (type_get (peek p)) with
  | Shift s' => inl (shifted s' p)
  | Reduce r =>
      yyreduce ctx r (if yy_pact_value_is_default_ yypact_.[state top]
                      then p else read_lookahead p)
  | Error =>
      inr (yyerrlab (if yy_pact_value_is_default_ yypact_.[state top]
                     then p else read_lookahead p))
  end.
Proof.
  intros Hst Hf. unfold step, decide, decide_default, yydefault.
  rewrite Hst. apply Z.eqb_neq in Hf. rewrite Hf.
  destruct (yy_pact_value_is_default_ yypact_.[state top]).
  - destruct (yydefact_.[state top] =? 0); reflexivity.
  - unfold shifted, read_lookahead, peek, advance.
    destruct (yyla p) as [la|]; [|destruct (yylex (lex p)) as [la lex']];
      cbn [fst snd]; rewrite ?Hst;
      (destruct ((yypact_.[state top] + type_get la <? 0)
                 || (yylast_ <? yypact_.[state top] + type_get la)
                 || negb (yycheck_.[yypact_.[state top] + type_get la] =? type_get la));
       [destruct (yydefact_.[state top] =? 0); reflexivity|]);
      (destruct (yytable_.[yypact_.[state top] + type_get la] <=? 0);
       [destruct (yy_table_value_is_error_ yytable_.[yypact_.[state top] + type_get la]);
        reflexivity|reflexivity]).
Qed.

End Step.

(** ** The shape of the tables, checked *)

Lemma tables_ok :
  forallb (fun s => shift_entries_ok s && default_ok s && goto_ok s) states = true.
Proof. vm_compute. reflexivity. Qed.

Lemma state_ok (s : Z) :
  valid_state s = true ->
  shift_entries_ok s = true /\ default_ok s = true /\ goto_ok s = true.
Proof.
  intros Hs. pose proof (forall_states _ tables_ok s Hs) as H.
  apply andb_true_iff in H. destruct H as [H H3].
  apply andb_true_iff in H. tauto.
Qed.

Lemma decide_cases (s t : Z) :
  valid_state s = true ->
  decide s t = decide_default s
  \/ exists s', decide s t = Shift s' /\ valid_state s' = true
                /\ (s' = yyfinal_ <-> t = yyeof_)
                /\ yy_pact_value_is_default_ yypact_.[s] = false.
Proof.
  intros Hs. unfold decide.
  destruct (yy_pact_value_is_default_ yypact_.[s]) eqn:Hd; [left; reflexivity|].
  destruct ((yypact_.[s] + t <? 0) || (yylast_ <? yypact_.[s] + t)
            || negb (yycheck_.[yypact_.[s] + t] =? t)) eqn:Hc; [left; reflexivity|].
  right. apply orb_false_iff in Hc. destruct Hc as [Hc Hk].
  apply orb_false_iff in Hc. destruct Hc as [Hlo Hhi].
  apply negb_false_iff in Hk.
  destruct (state_ok s Hs) as [Hsh _]. unfold shift_entries_ok in Hsh.
  rewrite forallb_forall in Hsh.
  specialize (Hsh (yypact_.[s] + t)).
  assert (Hin : In (yypact_.[s] + t) (Zrange 0 180)).
  { apply Zrange_In. unfold yylast_ in Hhi. lia. }
  specialize (Hsh Hin). cbv zeta in Hsh.
  replace (yypact_.[s] + t - yypact_.[s]) with t in Hsh by lia.
  rewrite Hk in Hsh.
  apply andb_true_iff in Hsh. destruct Hsh as [Hsh Hfin].
  apply andb_true_iff in Hsh. destruct Hsh as [Hpos Hval].
  assert (Hle : (yytable_.[yypact_.[s] + t] <=? 0) = false) by lia.
  rewrite Hle. eexists. split; [reflexivity|]. split; [exact Hval|]. split; [|reflexivity].
  apply Bool.eqb_prop in Hfin. split; intros H.
  - apply Z.eqb_eq. rewrite <- Hfin. apply Z.eqb_eq. exact H.
  - apply Z.eqb_eq. rewrite Hfin. apply Z.eqb_eq. exact H.
Qed.

Lemma default_cases (s : Z) :
  valid_state s = true -> s <> yyfinal_ ->
  decide_default s = Error
  \/ exists r, decide_default s = Reduce r /\ yydefact_.[s] = r /\ 2 <= r <= 63
               /\ (1 <= Z.to_nat yyr2_.[r])%nat
               /\ 53 <= yyr1_.[r] <= 68
               /\ (Z.to_nat yyr2_.[r] = 1%nat -> (rank_of_symbol yyr1_.[r] < rank s)%nat).
Proof.
  intros Hs Hf. unfold decide_default.
  destruct (yydefact_.[s] =? 0) eqn:H0; [left; reflexivity|right].
  destruct (state_ok s Hs) as [_ [Hd _]]. unfold default_ok in Hd.
  rewrite H0 in Hd. apply Z.eqb_neq in Hf. rewrite Hf in Hd. cbv zeta in Hd.
  apply andb_true_iff in Hd. destruct Hd as [Hrange Hd].
  apply andb_true_iff in Hd. destruct Hd as [Hd Hunit].
  repeat (apply andb_true_iff in Hd; destruct Hd as [Hd ?]).
  apply andb_true_iff in Hrange. destruct Hrange as [? ?].
  eexists. split; [reflexivity|]. split; [reflexivity|].
  repeat split; try lia.
  intros Hone. assert (Hu : (yyr2_.[yydefact_.[s]] =? 1) = true) by lia.
  rewrite Hu in Hunit. apply Nat.ltb_lt in Hunit. exact Hunit.
Qed.

Lemma goto_cases (s A : Z) :
  valid_state s = true -> 53 <= A <= 68 ->
  valid_state (yy_lr_goto_state_ s A) = true
  /\ rank (yy_lr_goto_state_ s A) = rank_of_symbol A
  /\ yy_lr_goto_state_ s A <> yyfinal_.
Proof.
  intros Hs HA. destruct (state_ok s Hs) as [_ [_ Hg]].
  unfold goto_ok in Hg. rewrite forallb_forall in Hg.
  assert (Hin : In A (Zrange 53 69)) by (apply Zrange_In; lia).
  specialize (Hg A Hin). cbv zeta in Hg.
  apply andb_true_iff in Hg. destruct Hg as [Hg Hnf].
  apply andb_true_iff in Hg. destruct Hg as [Hv Hst].
  split; [exact Hv|]. split.
  - unfold rank, rank_of_symbol. apply Z.eqb_eq in Hst. rewrite Hst. reflexivity.
  - apply negb_true_iff in Hnf. apply Z.eqb_neq in Hnf. exact Hnf.
Qed.

Lemma rank_le (s : Z) : (rank s <= 3)%nat.
Proof.
  unfold rank. repeat match goal with |- context [if ?b then _ else _] => destruct b end; lia.
Qed.

(** ** Termination *)

Section Termination.

Variable ctx : EvalContext.

Lemma eof_advance (p : parser) : eof (advance p) = eof (lex p).
Proof.
  unfold advance, yylex. destruct (yyla p); [reflexivity|].
  destruct (tokens (lex p)); reflexivity.
Qed.

(** Reading the lookahead does not add to the text that is left. *)
Lemma weight_read (p : parser) :
  (2 * List.length (tokens (advance p))
   + symbol_weight (peek p)
   <= 2 * List.length (tokens (lex p)) + lookahead_weight p)%nat.
Proof.
  unfold advance, peek, lookahead_weight, yylex.
  destruct (yyla p) as [la|]; [lia|].
  destruct (tokens (lex p)) as [|t ts] eqn:Ht; cbn [fst snd tokens List.length];
    rewrite ?Ht; cbn [List.length].
  - unfold symbol_weight. cbn [type_get]. rewrite Z.eqb_refl. lia.
  - unfold symbol_weight. destruct (type_get t =? yyeof_); lia.
Qed.

Lemma valid_skipn (n : nat) (st : list stack_symbol_type) :
  Forall (fun e => valid_state (state e) = true) st ->
  Forall (fun e => valid_state (state e) = true) (skipn n st).
Proof.
  revert st. induction n as [|n IH]; intros st H; [exact H|].
  destruct st as [|e st]; [constructor|]. cbn. apply IH. inversion H; assumption.
Qed.

Lemma stack_at_In (st : list stack_symbol_type) (i : nat) (e : stack_symbol_type) :
  stack_at st i = Ok e -> In e st /\ (i < List.length st)%nat.
Proof.
  unfold stack_at. destruct (nth_error st i) eqn:H; [|discriminate].
  intros [= <-]. split; [eapply nth_error_In; eassumption|].
  apply nth_error_Some. congruence.
Qed.

(** A reduction by the default rule of a valid state lowers the measure. *)
Lemma reduce_measure (p q p' : parser) (top : stack_symbol_type)
      (st : list stack_symbol_type) (r : Z) :
  valid p -> yystack_ p = top :: st -> state top <> yyfinal_ ->
  decide_default (state top) = Reduce r ->
  yystack_ q = yystack_ p ->
  (2 * List.length (tokens (lex q)) + lookahead_weight q
   <= 2 * List.length (tokens (lex p)) + lookahead_weight p)%nat ->
  yyreduce ctx r q = inl p' ->
  valid p' /\ (measure p' < measure p)%nat.
Proof.
  intros Hv Hst Hf Hd Hq Hw Hr.
  assert (Htop : valid_state (state top) = true).
  { unfold valid in Hv. rewrite Hst in Hv. inversion Hv; assumption. }
  destruct (default_cases (state top) Htop Hf) as [He|[r' [Hd' [_ [Hr' [Hlen [Hlhs Hunit]]]]]]];
    [congruence|].
  assert (r' = r) by congruence. subst r'.
  unfold yyreduce in Hr. rewrite Hq in Hr.
  destruct (stack_at (yystack_ p) (Z.to_nat yyr2_.[r])) as [below| |] eqn:Hb;
    cbn [bind] in Hr; try discriminate.
  destruct (YYLLOC_DEFAULT (yystack_ p) (Z.to_nat yyr2_.[r])) as [loc| |];
    cbn [bind] in Hr; try discriminate.
  destruct (action ctx (yystack_ p) (expression q) r) as [[v ex]| |];
    cbn [bind fst snd] in Hr; try discriminate.
  injection Hr as <-.
  destruct (stack_at_In _ _ _ Hb) as [Hin Hlt].
  assert (Hbv : valid_state (state below) = true).
  { unfold valid in Hv. rewrite Forall_forall in Hv. apply Hv. exact Hin. }
  destruct (goto_cases (state below) yyr1_.[r] Hbv Hlhs) as [Hgv [Hgr Hgf]].
  split.
  - unfold valid. cbn [yystack_]. constructor; [exact Hgv|].
    apply valid_skipn. exact Hv.
  - unfold measure, final_bonus, top_state, lookahead_weight in *.
    cbn [yystack_ yyla lex state List.length].
    rewrite Hst in *. cbn [state] in *.
    apply Z.eqb_neq in Hf. apply Z.eqb_neq in Hgf. rewrite Hf, Hgf, Hgr.
    rewrite length_skipn. cbn [List.length] in *.
    pose proof (rank_le (state top)) as Hrk.
    assert (Hs3 : (rank_of_symbol yyr1_.[r] <= 3)%nat).
    { unfold rank_of_symbol.
      repeat match goal with |- context [if ?b then _ else _] => destruct b end; lia. }
    destruct (Nat.eq_dec (Z.to_nat yyr2_.[r]) 1) as [H1|H1].
    + specialize (Hunit H1). rewrite H1 in *. lia.
    + lia.
Qed.

(** Every turn of the loop that does not end the parse lowers the
    measure and keeps the states of the stack inside the automaton. *)
Lemma step_measure (p p' : parser) :
  valid p -> step ctx p = inl p' -> valid p' /\ (measure p' < measure p)%nat.
Proof.
  intros Hv Hs.
  destruct (yystack_ p) as [|top st] eqn:Hst.
  { unfold step in Hs. rewrite Hst in Hs. discriminate. }
  destruct (Z.eq_dec (state top) yyfinal_) as [Hf|Hf].
  { rewrite (step_final ctx p top st Hst Hf) in Hs. discriminate. }
  rewrite (step_decide ctx p top st Hst Hf) in Hs.
  assert (Htop : valid_state (state top) = true).
  { unfold valid in Hv. rewrite Hst in Hv. inversion Hv; assumption. }
  destruct (decide_cases (state top) (type_get (peek p)) Htop)
    as [Hd|[s' [Hd [Hs' [Hfin _]]]]]; rewrite Hd in Hs.
  - destruct (decide_default (state top)) as [?|r|] eqn:Hdd; try discriminate.
    + exfalso. unfold decide_default in Hdd.
      destruct (yydefact_.[state top] =? 0); discriminate.
    + eapply reduce_measure; try eassumption.
      * destruct (yy_pact_value_is_default_ yypact_.[state top]); reflexivity.
      * destruct (yy_pact_value_is_default_ yypact_.[state top]); [lia|].
        unfold read_lookahead at 1 2. cbn [lex].
        unfold lookahead_weight at 1. cbn [yyla].
        apply weight_read.
  - injection Hs as <-. split.
    + unfold valid, shifted. cbn [yystack_]. constructor; [exact Hs'|exact Hv].
    + pose proof (weight_read p) as Hw.
      pose proof (rank_le s') as Hrk.
      unfold measure, final_bonus, top_state, lookahead_weight in *.
      unfold shifted. cbn [yystack_ yyla lex state List.length].
      rewrite Hst in *. cbn [state List.length].
      apply Z.eqb_neq in Hf. rewrite Hf.
      unfold symbol_weight at 1 in Hw.
      destruct (type_get (peek p) =? yyeof_) eqn:Heof.
      * assert (s' = yyfinal_) by (apply Hfin; apply Z.eqb_eq; exact Heof). subst s'.
        rewrite Z.eqb_refl. change (rank yyfinal_) with 3%nat. lia.
      * destruct (s' =? yyfinal_); lia.
Qed.

Lemma run_terminates (fuel : nat) :
  forall p, valid p -> (measure p < fuel)%nat -> run ctx fuel p <> Timeout.
Proof.
  induction fuel as [|fuel IH]; intros p Hv Hm; [lia|].
  cbn [run]. destruct (step ctx p) as [p'|o] eqn:Hs.
  - destruct (step_measure p p' Hv Hs) as [Hv' Hm']. apply IH; [exact Hv'|lia].
  - unfold step in Hs.
    destruct (yystack_ p) as [|top st]; [congruence|].
    destruct (state top =? yyfinal_); [congruence|].
    unfold yydefault, yyerrlab, yyreduce in Hs.
    repeat match type of Hs with
           | context [match ?x with _ => _ end] => destruct x
           | context [if ?b then _ else _] => destruct b
           end; congruence.
Qed.

Lemma valid_initial (l : lexer) : valid (initial l).
Proof. unfold valid, initial. cbn. constructor; [reflexivity|constructor]. Qed.

(** [parse ()] always ends: the fuel of the model is never used up. *)
Theorem parse_terminates (l : lexer) : parse ctx l <> Timeout.
Proof.
  unfold parse. apply run_terminates; [apply valid_initial|].
  unfold measure, fuel_for, initial, final_bonus, top_state, lookahead_weight.
  cbn [yystack_ yyla lex state List.length].
  change (rank 0) with 3%nat. change (0 =? yyfinal_) with false. cbv iota. lia.
Qed.

Lemma ends_run (p : parser) (o : outcome) :
  ends ctx p o -> forall fuel, run ctx fuel p = Timeout \/ run ctx fuel p = o.
Proof.
  induction 1 as [p o Hs|p p' o Hs _ IH]; intros [|fuel]; cbn [run];
    try (left; reflexivity); rewrite Hs; [right; reflexivity|apply IH].
Qed.

Lemma run_ends (fuel : nat) :
  forall p o, run ctx fuel p = o -> o <> Timeout -> ends ctx p o.
Proof.
  induction fuel as [|fuel IH]; intros p o Hr Ho; cbn [run] in Hr; [congruence|].
  destruct (step ctx p) as [p'|o'] eqn:Hs.
  - eapply ends_later; [exact Hs|]. apply IH; assumption.
  - subst o'. apply ends_now. exact Hs.
Qed.

(** What the run from the initial stack ends with is what [parse] returns. *)
Lemma parse_ends (l : lexer) (o : outcome) :
  ends ctx (initial l) o -> parse ctx l = o.
Proof.
  intros H. destruct (ends_run _ _ H (fuel_for l)) as [Ht|Ho]; [|exact Ho].
  exfalso. exact (parse_terminates l Ht).
Qed.

Lemma ends_parse (l : lexer) : ends ctx (initial l) (parse ctx l).
Proof.
  eapply run_ends; [reflexivity|apply parse_terminates].
Qed.

Lemma reaches_ends (p p' : parser) (o : outcome) :
  reaches ctx p p' -> ends ctx p' o -> ends ctx p o.
Proof.
  induction 1 as [p|p p1 p2 Hs _ IH]; intros He; [exact He|].
  eapply ends_later; [exact Hs|]. apply IH. exact He.
Qed.

Lemma reaches_trans (p p' p'' : parser) :
  reaches ctx p p' -> reaches ctx p' p'' -> reaches ctx p p''.
Proof.
  induction 1 as [p|p p1 p2 Hs _ IH]; intros H2; [exact H2|].
  eapply reaches_step; [exact Hs|]. apply IH. exact H2.
Qed.

End Termination.

(** ** The text that is left *)

Section Pending.

Variable ctx : EvalContext.

Lemma pending_cons (p : parser) (t : symbol_type) (w : list symbol_type) :
  pending p (t :: w) -> peek p = t /\ tokens (advance p) = w.
Proof.
  unfold pending, peek, advance, yylex.
  destruct (yyla p) as [la|].
  - intros [H|[H _]]; [|discriminate]. injection H as -> ->. split; reflexivity.
  - intros H. rewrite H. split; reflexivity.
Qed.

Lemma pending_nil (p : parser) :
  pending p [] -> peek p = eof_symbol (lex p) /\ tokens (advance p) = [].
Proof.
  unfold pending, peek, advance, yylex.
  destruct (yyla p) as [la|].
  - intros [H|[_ [H1 H2]]]; [discriminate|]. split; assumption.
  - intros H. rewrite H. split; [reflexivity|exact H].
Qed.

Lemma pending_next (p : parser) (w : list symbol_type) :
  pending p w -> type_get (peek p) = next_type w.
Proof.
  destruct w as [|t w]; intros H.
  - destruct (pending_nil p H) as [-> _]. reflexivity.
  - destruct (pending_cons p t w H) as [-> _]. reflexivity.
Qed.

Lemma pending_read (p : parser) (w : list symbol_type) :
  pending p w -> pending (read_lookahead p) w.
Proof.
  intros H. unfold pending, read_lookahead. cbn [yyla lex].
  destruct w as [|t w].
  - destruct (pending_nil p H) as [Hp Ht]. right. split; [reflexivity|].
    split; [|exact Ht]. rewrite Hp. unfold eof_symbol. rewrite eof_advance. reflexivity.
  - destruct (pending_cons p t w H) as [Hp Ht]. left. rewrite Hp, Ht. reflexivity.
Qed.

Lemma pending_shifted (p : parser) (s : Z) (t : symbol_type) (w : list symbol_type) :
  pending p (t :: w) -> pending (shifted s p) w.
Proof.
  intros H. destruct (pending_cons p t w H) as [_ Ht].
  unfold pending, shifted. cbn [yyla lex]. exact Ht.
Qed.

(** A terminal with a successor is shifted. *)
Lemma sim_shift (p : parser) (top : stack_symbol_type) (st : list stack_symbol_type)
      (t : symbol_type) (w : list symbol_type) (s' : Z) :
  yystack_ p = top :: st -> pending p (t :: w) ->
  (type_get t <? yyntokens_) = true ->
  trans (state top) (type_get t) = Some s' ->
  step ctx p = inl (shifted s' p)
  /\ yystack_ (shifted s' p)
     = mkStackSymbol s' (sym_value t) (sym_location t) :: yystack_ p
  /\ pending (shifted s' p) w
  /\ expression (shifted s' p) = expression p
  /\ eof (lex (shifted s' p)) = eof (lex p).
Proof.
  intros Hst Hp Hty Htr. unfold trans in Htr. rewrite Hty in Htr.
  destruct (decide (state top) (type_get t)) as [s1| |] eqn:Hd; try discriminate.
  destruct (state top =? yyfinal_) eqn:Hf; [discriminate|].
  injection Htr as ->. apply Z.eqb_neq in Hf.
  destruct (pending_cons p t w Hp) as [Hpk Ht].
  rewrite (step_decide ctx p top st Hst Hf), Hpk, Hd.
  split; [reflexivity|]. split; [unfold shifted; rewrite Hpk; reflexivity|].
  split; [apply (pending_shifted p s' t w Hp)|].
  split; [reflexivity|]. unfold shifted. cbn [lex]. apply eof_advance.
Qed.

(** A reduction leaves the text that is left alone. *)
Lemma sim_reduce (p : parser) (top : stack_symbol_type) (st : list stack_symbol_type)
      (w : list symbol_type) (r : Z) :
  yystack_ p = top :: st -> pending p w -> state top <> yyfinal_ ->
  decide (state top) (next_type w) = Reduce r ->
  exists q, step ctx p = yyreduce ctx r q
            /\ yystack_ q = yystack_ p /\ expression q = expression p
            /\ pending q w /\ eof (lex q) = eof (lex p).
Proof.
  intros Hst Hp Hf Hd.
  rewrite <- (pending_next p w Hp) in Hd.
  rewrite (step_decide ctx p top st Hst Hf), Hd.
  destruct (yy_pact_value_is_default_ yypact_.[state top]).
  - exists p. repeat split; try reflexivity. exact Hp.
  - exists (read_lookahead p). repeat split; try reflexivity.
    + apply pending_read. exact Hp.
    + unfold read_lookahead. cbn [lex]. apply eof_advance.
Qed.

End Pending.

(** ** The actions read the reduced symbols only *)

Section ActionsLocal.

Variable ctx : EvalContext.

Lemma stack_at_strip (l rest : list stack_symbol_type) (i : nat) :
  (i < List.length l)%nat ->
  stack_at (l ++ rest) i = bind (stack_at (map strip l) i)
                                (fun _ => stack_at (l ++ rest) i)
  /\ exists e, stack_at (l ++ rest) i = Ok e /\ stack_at (map strip l) i = Ok (strip e).
Proof.
  intros Hi. unfold stack_at.
  rewrite nth_error_app1 by exact Hi.
  rewrite nth_error_map.
  destruct (nth_error l i) as [e|] eqn:He.
  - cbn. split; [reflexivity|]. exists e. split; reflexivity.
  - apply nth_error_None in He. lia.
Qed.

Lemma value_at_strip (T : Type) (f : semantic_type -> result T)
      (l rest : list stack_symbol_type) (i : nat) :
  (i < List.length l)%nat ->
  value_at f (l ++ rest) i = value_at f (map strip l) i.
Proof.
  intros Hi. destruct (stack_at_strip l rest i Hi) as [_ [e [H1 H2]]].
  unfold value_at. rewrite H1, H2. reflexivity.
Qed.

Lemma location_at_strip (l rest : list stack_symbol_type) (i : nat) :
  (i < List.length l)%nat ->
  location_at (l ++ rest) i = location_at (map strip l) i.
Proof.
  intros Hi. destruct (stack_at_strip l rest i Hi) as [_ [e [H1 H2]]].
  unfold location_at. rewrite H1, H2. reflexivity.
Qed.

Lemma YYLLOC_DEFAULT_strip (l rest : list stack_symbol_type) (n : nat) :
  List.length l = n -> (1 <= n)%nat ->
  YYLLOC_DEFAULT (l ++ rest) n = YYLLOC_DEFAULT (map strip l) n.
Proof.
  intros Hl Hn. unfold YYLLOC_DEFAULT. destruct n as [|n]; [lia|].
  rewrite !(location_at_strip l rest) by lia. reflexivity.
Qed.

Lemma rule_cases (r : Z) : 0 <= r <= 63 -> In r (Zrange 0 64).
Proof. intros H. apply Zrange_In. lia. Qed.

(** The action of a rule reads no deeper than the length of its
    right-hand side, and never reads a state. *)
Lemma action_strip (r : Z) (l rest : list stack_symbol_type) (ex : list Token) :
  2 <= r <= 63 -> List.length l = Z.to_nat yyr2_.[r] ->
  action ctx (l ++ rest) ex r = action ctx (map strip l) ex r.
Proof.
  intros Hr Hl.
  assert (Hin : In r (Zrange 0 64)) by (apply rule_cases; lia).
  vm_compute in Hin.
  repeat (destruct Hin as [<-|Hin]; [try lia|]); try contradiction;
    (match type of Hl with
     | _ = ?n => let n' := eval vm_compute in n in change n with n' in Hl
     end);
    unfold action;
    rewrite ?(value_at_strip _ _ l rest) by lia;
    rewrite ?(location_at_strip l rest) by lia;
    reflexivity.
Qed.

End ActionsLocal.

(** ** The automaton follows the grammar *)

Lemma tree_ind' (P : tree -> Prop) :
  (forall x, P (Leaf x)) ->
  (forall r kids, Forall P kids -> P (Node r kids)) ->
  forall t, P t.
Proof.
  intros HL HN. fix IH 1. intros [x|r kids].
  - apply HL.
  - apply HN. induction kids as [|k kids IHk]; constructor; [apply IH|exact IHk].
Qed.

Lemma list_eqb_eq (l1 l2 : list Z) : list_eqb l1 l2 = true -> l1 = l2.
Proof.
  unfold list_eqb. revert l2. induction l1 as [|x l1 IH]; intros [|y l2]; cbn;
    try discriminate; [reflexivity|].
  intros H. apply andb_true_iff in H. destruct H as [Hlen H].
  apply andb_true_iff in H. destruct H as [Hxy H].
  apply Z.eqb_eq in Hxy. subst y. f_equal. apply IH.
  apply andb_true_iff. split; assumption.
Qed.

(** Wherever a rule is expected, the automaton follows its right-hand
    side. *)
Lemma expects_follows :
  forallb (fun s => forallb (fun r => if expects s r
                                      then follows r 0 s (rhs r) else true) rules)
          states = true.
Proof. vm_compute. reflexivity. Qed.

Lemma follows_rule (s r : Z) :
  valid_state s = true -> 2 <= r <= 63 -> expects s r = true ->
  follows r 0 s (rhs r) = true.
Proof.
  intros Hs Hr He.
  pose proof (forall_states _ expects_follows s Hs) as H. cbv beta in H.
  pose proof (forall_rules _ H r Hr) as H'. cbv beta in H'.
  rewrite He in H'. exact H'.
Qed.

Lemma rules_shape :
  forallb (fun r => (53 <=? yyr1_.[r]) && (yyr1_.[r] <=? 68)
                    && (1 <=? yyr2_.[r])
                    && (Z.of_nat (List.length (rhs r)) =? yyr2_.[r])) rules = true.
Proof. vm_compute. reflexivity. Qed.

Lemma rule_shape (r : Z) :
  2 <= r <= 63 ->
  53 <= yyr1_.[r] <= 68 /\ (1 <= Z.to_nat yyr2_.[r])%nat
  /\ List.length (rhs r) = Z.to_nat yyr2_.[r].
Proof.
  intros Hr. pose proof (forall_rules _ rules_shape r Hr) as H. cbv beta in H.
  repeat (apply andb_true_iff in H; destruct H as [H ?]). lia.
Qed.

Lemma eval_kids_cons (ev : tree -> list Token -> evaluation) (k : tree) (ks : list tree)
      (acc : list stack_symbol_type) (ex : list Token) :
  eval_kids ev (k :: ks) acc ex
  = match ev k ex with
    | inl (e, ex') => eval_kids ev ks (e :: acc) ex'
    | inr o => inr o
    end.
Proof. reflexivity. Qed.

Lemma wf_kids_cons (r la : Z) (i : nat) (k : tree) (ks : list tree) :
  wf_kids wf r la i (k :: ks)
  = allowed r i k && wf (first_type ks la) k && wf_kids wf r la (S i) ks.
Proof. reflexivity. Qed.

Lemma next_type_first (ks : list tree) (w : list symbol_type) :
  next_type (flat_map yield ks ++ w) = first_type ks (next_type w).
Proof.
  unfold first_type. destruct (flat_map yield ks); reflexivity.
Qed.

Lemma eval_state (ctx : EvalContext) (t : tree) (ex ex' : list Token)
      (e : stack_symbol_type) :
  eval ctx t ex = inl (e, ex') -> state e = 0.
Proof.
  destruct t as [x|r kids]; cbn [eval].
  - intros [= <- _]. reflexivity.
  - destruct (eval_kids (eval ctx) kids [] ex) as [[stack ex1]|o]; [|discriminate].
    unfold eval_node.
    destruct (YYLLOC_DEFAULT stack (Z.to_nat yyr2_.[r])) as [loc| |];
      cbn [bind]; try discriminate.
    destruct (action ctx stack ex1 r) as [res| |]; cbn [bind]; try discriminate.
    intros [= <- _]. reflexivity.
Qed.

Lemma trans_terminal_valid (s X s' : Z) :
  valid_state s = true -> (X <? yyntokens_) = true -> trans s X = Some s' ->
  valid_state s' = true.
Proof.
  intros Hs HX Ht. unfold trans in Ht. rewrite HX in Ht.
  destruct (decide_cases s X Hs) as [Hd|[s1 [Hd [Hv _]]]]; rewrite Hd in Ht.
  - unfold decide_default in Ht. destruct (yydefact_.[s] =? 0); discriminate.
  - destruct (s =? yyfinal_); [discriminate|]. injection Ht as <-. exact Hv.
Qed.

Lemma stack_at_length (l : list stack_symbol_type) (top : stack_symbol_type)
      (st : list stack_symbol_type) :
  stack_at (l ++ top :: st) (List.length l) = Ok top.
Proof.
  unfold stack_at. rewrite nth_error_app2 by lia.
  rewrite Nat.sub_diag. reflexivity.
Qed.

Lemma skipn_length_app (l st : list stack_symbol_type) :
  skipn (List.length l) (l ++ st) = st.
Proof.
  induction l as [|x l IH]; [reflexivity|exact IH].
Qed.

Section Simulation.

Variable ctx : EvalContext.

Lemma top_state_cons (p : parser) (top : stack_symbol_type) (st : list stack_symbol_type) :
  yystack_ p = top :: st -> top_state p = state top.
Proof. intros H. unfold top_state. rewrite H. reflexivity. Qed.

(** The children of a node, one after the other. *)
Lemma sim_kids (r : Z) (ks : list tree) :
  Forall (simulates ctx) ks ->
  forall (la : Z) (i : nat) (s : Z) (p : parser) (w : list symbol_type)
         (top : stack_symbol_type) (st acc : list stack_symbol_type),
    wf_kids wf r la i ks = true ->
    follows r i s (map root ks) = true ->
    valid_state s = true ->
    next_type w = la ->
    yystack_ p = top :: st -> state top = s ->
    pending p (flat_map yield ks ++ w) ->
    match eval_kids (eval ctx) ks acc (expression p) with
    | inl (stack', expression') =>
        exists (p' : parser) (entries : list stack_symbol_type),
          reaches ctx p p'
          /\ yystack_ p' = entries ++ yystack_ p
          /\ stack' = map strip entries ++ acc
          /\ List.length entries = List.length ks
          /\ top_state p' <> yyfinal_
          /\ (forall la', follow_ok r la' = true ->
                          decide (top_state p') la' = Reduce r)
          /\ pending p' w
          /\ expression p' = expression'
          /\ eof (lex p') = eof (lex p)
    | inr o => ends ctx p o
    end.
Proof.
  induction 1 as [|k ks Hk _ IH]; intros la i s p w top st acc Hwf Hfo Hs Hla Hst Htop Hp.
  - cbn [eval_kids]. exists p, []. cbn [map app List.length].
    cbn [follows map] in Hfo.
    apply andb_true_iff in Hfo. destruct Hfo as [Hfo Hall].
    apply andb_true_iff in Hfo. destruct Hfo as [_ Hnf].
    rewrite (top_state_cons p top st Hst), Htop.
    repeat split; try reflexivity.
    + apply reaches_refl.
    + apply negb_true_iff in Hnf. apply Z.eqb_neq. exact Hnf.
    + intros la' Hla'. rewrite forallb_forall in Hall.
      assert (Hin : In la' (Zrange 0 yyntokens_)).
      { apply Zrange_In. unfold follow_ok in Hla'.
        apply andb_true_iff in Hla'. destruct Hla' as [Hla' _]. lia. }
      specialize (Hall la' Hin). cbv beta in Hall. rewrite Hla' in Hall.
      destruct (decide s la') as [?|r'|]; cbn [decision_eqb] in Hall; try discriminate.
      apply Z.eqb_eq in Hall. congruence.
    + exact Hp.
  - rewrite eval_kids_cons. rewrite wf_kids_cons in Hwf.
    apply andb_true_iff in Hwf. destruct Hwf as [Hwf Hwfks].
    apply andb_true_iff in Hwf. destruct Hwf as [Hal Hwfk].
    cbn [map follows] in Hfo.
    destruct (trans s (root k)) as [s1|] eqn:Htr; [|discriminate].
    apply andb_true_iff in Hfo. destruct Hfo as [Hfo Hfoks].
    apply andb_true_iff in Hfo. destruct Hfo as [Hs1 Hexp].
    assert (Hstart : starts s k = true).
    { destruct k as [x|r' kids']; cbn [starts].
      - cbn [root] in Htr. rewrite Htr. reflexivity.
      - cbn [wf] in Hwfk. cbn [root] in Hexp, Htr.
        repeat (apply andb_true_iff in Hwfk; destruct Hwfk as [Hwfk ?]).
        assert (Hr' : 2 <= r' <= 63) by lia.
        destruct (rule_shape r' Hr') as [Hlhs _].
        assert (Hnt : (yyr1_.[r'] <? yyntokens_) = false) by (unfold yyntokens_; lia).
        rewrite Hnt in Hexp. cbn [allowed] in Hal.
        pose proof (forall_rules _ Hexp r' Hr') as He. cbv beta in He.
        rewrite Z.eqb_refl, Hal in He. exact He. }
    cbn [flat_map] in Hp. rewrite <- app_assoc in Hp.
    assert (Hnext : next_type (flat_map yield ks ++ w) = first_type ks la).
    { rewrite next_type_first, Hla. reflexivity. }
    specialize (Hk (first_type ks la) s p (flat_map yield ks ++ w) top st
                   Hwfk Hstart Hs Hnext Hst Htop Hp).
    destruct (eval ctx k (expression p)) as [[e ex1]|o] eqn:Hev; [|exact Hk].
    destruct Hk as [p1 [s1' [Hreach [Htr' [Hv1 [Hst1 [Hp1 [Hex1 Heof1]]]]]]]].
    assert (s1' = s1) by congruence. subst s1'.
    specialize (IH la (S i) s1 p1 w (mkStackSymbol s1 (value e) (location e))
                   (top :: st) (e :: acc) Hwfks Hfoks Hv1 Hla).
    rewrite Hst in Hst1. specialize (IH Hst1 eq_refl Hp1). rewrite Hex1 in IH.
    destruct (eval_kids (eval ctx) ks (e :: acc) ex1) as [[stack' ex']|o].
    + destruct IH as [p' [entries [Hr2 [Hst' [Hstack [Hlen [Hnf [Hdec [Hp' [Hex' Heof']]]]]]]]]].
      exists p', (entries ++ [mkStackSymbol s1 (value e) (location e)]).
      split; [eapply reaches_trans; eassumption|].
      split; [rewrite Hst', Hst1, Hst, <- app_assoc; reflexivity|].
      split.
      { rewrite Hstack, map_app, <- app_assoc. cbn [map app]. unfold strip at 2.
        cbn [value location]. pose proof (eval_state ctx k _ _ _ Hev) as H0.
        destruct e as [se ve le]. cbn in H0. subst se. reflexivity. }
      split; [rewrite length_app; cbn [List.length]; lia|].
      split; [exact Hnf|]. split; [exact Hdec|]. split; [exact Hp'|].
      split; [exact Hex'|]. congruence.
    + eapply reaches_ends; eassumption.
Qed.

(** The parser does to every tree what [eval] does. *)
Lemma sim (t : tree) : simulates ctx t.
Proof.
  induction t as [x|r kids IH] using tree_ind';
    intros la s p w top st Hwf Hstart Hs Hla Hst Htop Hp.
  - cbn [eval]. cbn [wf] in Hwf. cbn [starts root] in *.
    apply andb_true_iff in Hwf. destruct Hwf as [_ Hty].
    destruct (trans s (type_get x)) as [s'|] eqn:Htr; [|discriminate].
    cbn [yield app] in Hp. subst s.
    destruct (sim_shift ctx p top st x w s' Hst Hp Hty Htr)
      as [Hstep [Hst' [Hp' [Hex Heof]]]].
    exists (shifted s' p), s'.
    split; [eapply reaches_step; [exact Hstep|apply reaches_refl]|].
    split; [reflexivity|].
    split; [eapply trans_terminal_valid; eassumption|].
    split; [exact Hst'|]. split; [exact Hp'|]. split; [exact Hex|exact Heof].
  - cbn [eval]. cbn [wf] in Hwf. cbn [starts root yield] in *.
    apply andb_true_iff in Hwf. destruct Hwf as [Hwf Hkids].
    apply andb_true_iff in Hwf. destruct Hwf as [Hwf Hfol].
    apply andb_true_iff in Hwf. destruct Hwf as [Hwf Hroots].
    apply andb_true_iff in Hwf. destruct Hwf as [Hlo Hhi].
    assert (Hr : 2 <= r <= 63) by lia.
    destruct (rule_shape r Hr) as [Hlhs [Hlen1 Hlen]].
    apply list_eqb_eq in Hroots.
    pose proof (follows_rule s r Hs Hr Hstart) as Hfo. rewrite <- Hroots in Hfo.
    pose proof (sim_kids r kids IH la 0 s p w top st [] Hkids Hfo Hs Hla Hst Htop Hp) as HK.
    destruct (eval_kids (eval ctx) kids [] (expression p)) as [[stack' ex']|o]; [|exact HK].
    destruct HK as [p' [entries [Hreach [Hst' [Hstack [Hlenk [Hnf [Hdec [Hp' [Hex' Heof']]]]]]]]]].
    rewrite app_nil_r in Hstack. subst stack'.
    assert (Hle : List.length entries = Z.to_nat yyr2_.[r]).
    { rewrite Hlenk, <- Hlen, <- Hroots, length_map. reflexivity. }
    rewrite Hst in Hst'.
    destruct (yystack_ p') as [|top' st'] eqn:Hsp'.
    { destruct entries; discriminate. }
    rewrite (top_state_cons p' top' st' Hsp') in Hnf, Hdec.
    rewrite <- Hla in Hfol.
    destruct (sim_reduce ctx p' top' st' w r Hsp' Hp' Hnf (Hdec _ Hfol))
      as [q [Hstep [Hstq [Hexq [Hpq Heofq]]]]].
    unfold yyreduce in Hstep. rewrite Hstq, Hsp', Hst', Hexq, Hex' in Hstep.
    rewrite <- Hle in Hstep at 1. rewrite stack_at_length in Hstep.
    cbn [bind] in Hstep.
    rewrite (YYLLOC_DEFAULT_strip entries (top :: st) _ Hle Hlen1) in Hstep.
    rewrite (action_strip ctx r entries (top :: st) ex' Hr Hle) in Hstep.
    unfold eval_node.
    destruct (YYLLOC_DEFAULT (map strip entries) (Z.to_nat yyr2_.[r])) as [loc| |];
      cbn [bind] in *.
    + destruct (action ctx (map strip entries) ex' r) as [[v ex'']| |];
        cbn [bind fst snd] in *.
      * rewrite <- Hle, skipn_length_app in Hstep.
        destruct (goto_cases s yyr1_.[r] Hs Hlhs) as [Hgv _].
        eexists. exists (yy_lr_goto_state_ s yyr1_.[r]).
        split; [eapply reaches_trans; [exact Hreach|];
                eapply reaches_step; [exact Hstep|apply reaches_refl]|].
        cbn [yystack_ expression lex value location].
        split.
        { unfold trans. replace (yyr1_.[r] <? yyntokens_) with false; [reflexivity|].
          symmetry. unfold yyntokens_. lia. }
        split; [exact Hgv|].
        split; [rewrite Hst, Htop; reflexivity|].
        split; [exact Hpq|]. split; [reflexivity|]. congruence.
      * eapply reaches_ends; [exact Hreach|]. apply ends_now. exact Hstep.
      * eapply reaches_ends; [exact Hreach|]. apply ends_now. exact Hstep.
    + eapply reaches_ends; [exact Hreach|]. apply ends_now. exact Hstep.
    + eapply reaches_ends; [exact Hreach|]. apply ends_now. exact Hstep.
Qed.

End Simulation.

(** ** The parser refines the syntax-directed translation *)

Lemma start_rules :
  forallb (fun r => if yyr1_.[r] =? 53
                    then expects 0 r
                         && match trans 0 yyr1_.[r] with
                            | Some s => decision_eqb (decide s yyeof_) (Shift yyfinal_)
                                        && negb (s =? yyfinal_)
                            | None => false
                            end
                    else true) rules = true.
Proof. vm_compute. reflexivity. Qed.

Section Refinement.

Variable ctx : EvalContext.

Lemma pending_initial (w : list symbol_type) (e : location_type) :
  pending (initial (mkLexer w e)) (w ++ []).
Proof. unfold pending, initial. cbn. rewrite app_nil_r. reflexivity. Qed.

(** For every well-formed text, [parse ()] ends the way the
    syntax-directed translation of its parse tree ends, with the same
    program or the same error. *)
Theorem parse_tree (t : tree) (e : location_type) :
  wf_start t = true ->
  parse ctx (mkLexer (yield t) e) = compile ctx t.
Proof.
  intros Hwf. unfold wf_start in Hwf.
  apply andb_true_iff in Hwf. destruct Hwf as [Hroot Hwf].
  apply Z.eqb_eq in Hroot.
  apply parse_ends. unfold compile.
  assert (Hstart : starts 0 t = true
                   /\ forall s, trans 0 (root t) = Some s ->
                                decide s yyeof_ = Shift yyfinal_ /\ s <> yyfinal_).
  { destruct t as [x|r kids]; cbn [wf root starts] in *.
    - exfalso. unfold yyntokens_ in Hwf. lia.
    - repeat (apply andb_true_iff in Hwf; destruct Hwf as [Hwf ?]).
      assert (Hr : 2 <= r <= 63) by lia.
      pose proof (forall_rules _ start_rules r Hr) as H3. cbv beta in H3.
      rewrite Hroot, Z.eqb_refl in H3. rewrite <- Hroot in H3.
      apply andb_true_iff in H3. destruct H3 as [He Ht]. split; [exact He|].
      intros s Hs. rewrite Hs in Ht.
      apply andb_true_iff in Ht. destruct Ht as [Hd Hn].
      destruct (decide s yyeof_) as [s'| |]; cbn [decision_eqb] in Hd; try discriminate.
      apply Z.eqb_eq in Hd. apply negb_true_iff in Hn. apply Z.eqb_neq in Hn.
      split; [congruence|exact Hn]. }
  destruct Hstart as [Hstart Hfin].
  pose proof (sim ctx t yyeof_ 0 (initial (mkLexer (yield t) e)) []
                  (mkStackSymbol 0 v_none location0) []
                  Hwf Hstart eq_refl eq_refl eq_refl eq_refl
                  (pending_initial (yield t) e)) as H.
  cbn [initial expression] in H.
  destruct (eval ctx t []) as [[sym program]|o]; [|exact H].
  destruct H as [p' [s' [Hreach [Htr [Hv [Hst [Hp [Hex Heof]]]]]]]].
  destruct (Hfin s' Htr) as [Hd Hn].
  eapply reaches_ends; [exact Hreach|].
  destruct (pending_nil p' Hp) as [Hpeek _].
  eapply ends_later.
  - rewrite (step_decide ctx p' _ _ Hst Hn). cbn [state].
    rewrite Hpeek. cbn [eof_symbol type_get]. rewrite Hd. reflexivity.
  - apply ends_now. rewrite <- Hex.
    apply (step_final ctx (shifted yyfinal_ p') _ _ eq_refl eq_refl).
Qed.

End Refinement.

(** ** What an action does to the program *)

Section ActionFacts.

Variable ctx : EvalContext.

Ltac split_binds :=
  repeat match goal with
         | |- context [bind ?c _] => destruct c; cbn [bind]
         | |- context [match getUniverse ctx with _ => _ end] =>
             destruct (getUniverse ctx)
         end.

Lemma location_at_no_throw (st : list stack_symbol_type) (i : nat) (e : exception) :
  location_at st i <> Throw e.
Proof.
  unfold location_at, stack_at. destruct (nth_error st i); cbn; discriminate.
Qed.

Lemma value_at_no_throw (T : Type) (f : semantic_type -> result T)
      (st : list stack_symbol_type) (i : nat) (e : exception) :
  (forall v, f v <> Throw e) -> value_at f st i <> Throw e.
Proof.
  intros Hf. unfold value_at, stack_at. destruct (nth_error st i); cbn;
    [apply Hf|discriminate].
Qed.

Ltac no_throw :=
  match goal with
  | H : location_at _ _ = Throw _ |- _ =>
      exfalso; exact (location_at_no_throw _ _ _ H)
  | H : value_at _ _ _ = Throw _ |- _ =>
      exfalso; refine (value_at_no_throw _ _ _ _ _ _ H);
      intros []; discriminate
  end.

Ltac each_rule Hin :=
  vm_compute in Hin;
  repeat (destruct Hin as [<-|Hin]; [|]); try contradiction.

(** An action does not look at the program: it appends to whatever is
    there. *)
Lemma action_app (r : Z) (st : list stack_symbol_type) (ex : list Token) :
  action ctx st ex r
  = match action ctx st [] r with
    | Ok (v, l) => Ok (v, ex ++ l)
    | Throw e => Throw e
    | Undefined => Undefined
    end.
Proof.
  destruct (Z.leb_spec 0 r) as [H0|H0]; [destruct (Z.leb_spec r 63) as [H1|H1]|].
  - assert (Hin : In r (Zrange 0 64)) by (apply Zrange_In; lia).
    each_rule Hin; unfold action, push_back, assign, error; split_binds;
      cbn [app]; rewrite ?app_nil_r; reflexivity.
  - destruct r as [|r|r]; try lia.
    do 7 (destruct r as [r|r|]; try lia); cbn; rewrite app_nil_r; reflexivity.
  - destruct r as [|r|r]; try lia. cbn. rewrite app_nil_r. reflexivity.
Qed.

(** What an action appends: one token that fits the family of the
    context for the rules that push, nothing for the others. *)
Lemma action_emits (r : Z) (st : list stack_symbol_type) (v : semantic_type)
      (l : list Token) :
  0 <= r <= 63 ->
  action ctx st [] r = Ok (v, l) ->
  if appends_token r
  then exists t, l = [t] /\ fits_universe (getUniverse ctx) t = true
  else l = [].
Proof.
  intros Hr. assert (Hin : In r (Zrange 0 64)) by (apply Zrange_In; lia).
  each_rule Hin; unfold action, push_back, assign, error;
    cbn [appends_token Z.leb Z.compare Pos.compare Pos.compare_cont andb orb app];
    unfold fits_universe;
    destruct (getUniverse ctx); split_binds; intros [= <- <-];
      try reflexivity; eexists; (split; [reflexivity|reflexivity]).
Qed.

(** What an action raises: the mismatch of its construct with the family of
    the context, at the keyword of the construct, or a rejected literal. *)
Lemma action_throws (r : Z) (st : list stack_symbol_type) (ex : list Token)
      (e : exception) :
  0 <= r <= 63 ->
  action ctx st ex r = Throw e ->
  (exists loc literal, e = ConversionError loc literal)
  \/ (gated (getUniverse ctx) r = true
      /\ exists loc, e = ParseError SemanticError loc (mismatch_message r)
                     /\ location_at st (keyword_index r) = Ok loc).
Proof.
  intros Hr. assert (Hin : In r (Zrange 0 64)) by (apply Zrange_In; lia).
  each_rule Hin; unfold action, push_back, assign, error;
    destruct (getUniverse ctx);
    repeat match goal with
           | |- context [bind (convert ?f ?s ?l) _] =>
               unfold convert at 1; destruct (f s l); cbn [bind]
           | |- context [bind ?c _] => destruct c eqn:?; cbn [bind]
           end;
    try discriminate; try no_throw;
    intros [= <-];
    first [ left; eexists; eexists; reflexivity
          | right; split; [reflexivity|]; eexists; split; [reflexivity|assumption] ].
Qed.

End ActionFacts.

(** ** The translation does not look at the program either *)

Section EvalFacts.

Variable ctx : EvalContext.

Lemma eval_node_prepend (r : Z) (st : list stack_symbol_type) (ex l0 : list Token) :
  eval_node ctx r st (ex ++ l0) = prepend ex (eval_node ctx r st l0).
Proof.
  unfold eval_node.
  destruct (YYLLOC_DEFAULT st (Z.to_nat yyr2_.[r])) as [loc| |]; cbn [bind prepend];
    try reflexivity.
  rewrite (action_app ctx r st (ex ++ l0)), (action_app ctx r st l0).
  destruct (action ctx st [] r) as [[v l]| |]; cbn [bind fst snd prepend prepend_outcome];
    try reflexivity.
  rewrite app_assoc. reflexivity.
Qed.

Lemma eval_kids_prepend (ks : list tree) :
  Forall (fun t => forall ex l0, eval ctx t (ex ++ l0) = prepend ex (eval ctx t l0)) ks ->
  forall acc ex l0,
    eval_kids (eval ctx) ks acc (ex ++ l0) = prepend ex (eval_kids (eval ctx) ks acc l0).
Proof.
  induction 1 as [|k ks Hk _ IH]; intros acc ex l0; [reflexivity|].
  rewrite !eval_kids_cons, Hk.
  destruct (eval ctx k l0) as [[e l]|o]; cbn [prepend]; [apply IH|reflexivity].
Qed.

Lemma eval_prepend (t : tree) (ex l0 : list Token) :
  eval ctx t (ex ++ l0) = prepend ex (eval ctx t l0).
Proof.
  revert ex l0. induction t as [x|r kids IH] using tree_ind'; intros ex l0.
  - reflexivity.
  - cbn [eval]. rewrite (eval_kids_prepend kids IH).
    destruct (eval_kids (eval ctx) kids [] l0) as [[st l]|o]; cbn [prepend];
      [apply eval_node_prepend|reflexivity].
Qed.

(** Evaluating after [ex] is evaluating from scratch and appending. *)
Lemma eval_from (t : tree) (ex : list Token) :
  eval ctx t ex = prepend ex (eval ctx t []).
Proof.
  rewrite <- (app_nil_r ex) at 1. apply eval_prepend.
Qed.

End EvalFacts.

(** ** Well-lexed texts are translated without undefined behaviour *)

Section Soundness.

Variable ctx : EvalContext.

Lemma Forall2_cons_inv (A B : Type) (P : A -> B -> Prop) (x : A) (xs : list A)
      (l : list B) :
  Forall2 P (x :: xs) l -> exists e l', l = e :: l' /\ P x e /\ Forall2 P xs l'.
Proof. intros H. inversion H; subst. eexists. eexists. repeat split; eassumption. Qed.

Lemma Forall2_nil_inv (A B : Type) (P : A -> B -> Prop) (l : list B) :
  Forall2 P [] l -> l = [].
Proof. intros H. inversion H. reflexivity. Qed.

Ltac destruct_innermost :=
  repeat match goal with
         | |- context [match ?x with _ => _ end] =>
             lazymatch x with
             | context [match _ with _ => _ end] => fail
             | _ => destruct x
             end
         end.

Ltac open_stack H :=
  repeat (apply Forall2_cons_inv in H;
          let e := fresh "e" in
          let Hc := fresh "Hc" in
          destruct H as [e [? [-> [Hc H]]]];
          cbn in Hc;
          lazymatch type of Hc with
          | true = true => clear Hc
          | _ => destruct e as [? [] ?]; cbn in Hc; try discriminate Hc; clear Hc
          end);
  apply Forall2_nil_inv in H; subst.

(** The action of a rule on symbols that carry the values of its
    right-hand side. *)
Lemma node_sound (r : Z) (es : list stack_symbol_type) (ex : list Token) :
  2 <= r <= 63 ->
  Forall2 (fun X e => carries X (value e) = true) (rev (rhs r)) es ->
  sound yyr1_.[r] (eval_node ctx r es ex).
Proof.
  intros Hr H. assert (Hin : In r (Zrange 0 64)) by (apply Zrange_In; lia).
  vm_compute in Hin.
  repeat (destruct Hin as [<-|Hin]; [try lia|]); try contradiction;
    (match type of H with
     | Forall2 _ ?l _ => let l' := eval vm_compute in l in change l with l' in H
     end);
    open_stack H;
    unfold sound, eval_node; vm_compute; destruct_innermost; reflexivity.
Qed.

Lemma kids_sound (r : Z) (ks : list tree) :
  Forall (fun t => forall la ex, wf la t = true -> well_lexed t = true ->
                                 sound (root t) (eval ctx t ex)) ks ->
  forall la i acc ex,
    wf_kids wf r la i ks = true -> forallb well_lexed ks = true ->
    match eval_kids (eval ctx) ks acc ex with
    | inl (st, _) =>
        exists es, st = es ++ acc
                   /\ Forall2 (fun X e => carries X (value e) = true)
                              (rev (map root ks)) es
    | inr (Rejected e _) => semantic e = true
    | inr _ => False
    end.
Proof.
  induction 1 as [|k ks Hk _ IH]; intros la i acc ex Hwf Hlex.
  - cbn. exists []. split; [reflexivity|constructor].
  - rewrite eval_kids_cons. rewrite wf_kids_cons in Hwf.
    apply andb_true_iff in Hwf. destruct Hwf as [Hwf Hwfks].
    apply andb_true_iff in Hwf. destruct Hwf as [_ Hwfk].
    cbn [forallb] in Hlex. apply andb_true_iff in Hlex. destruct Hlex as [Hlk Hlks].
    specialize (Hk _ ex Hwfk Hlk). unfold sound in Hk.
    destruct (eval ctx k ex) as [[e ex1]|o]; [|exact Hk].
    specialize (IH la (S i) (e :: acc) ex1 Hwfks Hlks).
    destruct (eval_kids (eval ctx) ks (e :: acc) ex1) as [[st ex2]|o]; [|exact IH].
    destruct IH as [es [-> HF]]. exists (es ++ [e]).
    split; [rewrite <- app_assoc; reflexivity|].
    cbn [map rev]. apply Forall2_app; [exact HF|]. constructor; [exact Hk|constructor].
Qed.

(** A well-formed, well-lexed text is translated to a program or
    rejected with a semantic error. *)
Lemma eval_sound (t : tree) :
  forall la ex, wf la t = true -> well_lexed t = true ->
                sound (root t) (eval ctx t ex).
Proof.
  induction t as [x|r kids IH] using tree_ind'; intros la ex Hwf Hlex.
  - cbn in *. exact Hlex.
  - cbn [eval root]. cbn [wf] in Hwf. cbn [well_lexed] in Hlex.
    apply andb_true_iff in Hwf. destruct Hwf as [Hwf Hkids].
    apply andb_true_iff in Hwf. destruct Hwf as [Hwf _].
    apply andb_true_iff in Hwf. destruct Hwf as [Hwf Hroots].
    apply andb_true_iff in Hwf. destruct Hwf as [Hlo Hhi].
    apply list_eqb_eq in Hroots.
    pose proof (kids_sound r kids IH la 0 [] ex Hkids Hlex) as HK.
    destruct (eval_kids (eval ctx) kids [] ex) as [[st ex1]|o]; [|exact HK].
    destruct HK as [es [-> HF]]. rewrite app_nil_r. rewrite Hroots in HF.
    apply node_sound; [lia|exact HF].
Qed.

(** ** The family gate *)

(** The action of a rule that the family of the context rejects never
    completes. *)
Lemma action_gated (r : Z) (st : list stack_symbol_type) (ex : list Token)
      (res : semantic_type * list Token) :
  gated (getUniverse ctx) r = true -> action ctx st ex r <> Ok res.
Proof.
  unfold gated, v4_only, v6_only. destruct (getUniverse ctx) eqn:Hu; intros Hg;
    repeat (apply orb_true_iff in Hg; destruct Hg as [Hg|Hg]);
    apply Z.eqb_eq in Hg; subst r; unfold action; rewrite Hu;
    destruct (location_at st _); cbn; discriminate.
Qed.

Lemma kids_gated (f : Z -> bool) (ks : list tree) :
  Forall (fun t => mentions f t = true ->
                   forall ex res, eval ctx t ex <> inl res) ks ->
  existsb (mentions f) ks = true ->
  forall acc ex res, eval_kids (eval ctx) ks acc ex <> inl res.
Proof.
  induction 1 as [|k ks Hk _ IH]; intros Hex acc ex res; [discriminate|].
  rewrite eval_kids_cons. cbn [existsb] in Hex.
  destruct (eval ctx k ex) as [[e ex1]|o] eqn:Hev; [|discriminate].
  apply orb_true_iff in Hex. destruct Hex as [Hex|Hex].
  - exfalso. exact (Hk Hex ex _ Hev).
  - apply IH. exact Hex.
Qed.

(** A text with a construct that the family of the context rejects is
    not translated. *)
Lemma eval_gated (t : tree) :
  mentions (gated (getUniverse ctx)) t = true ->
  forall ex res, eval ctx t ex <> inl res.
Proof.
  induction t as [x|r kids IH] using tree_ind'; intros Hm ex res; [discriminate|].
  cbn [mentions] in Hm. cbn [eval].
  destruct (eval_kids (eval ctx) kids [] ex) as [[st ex1]|o] eqn:Hk; [|discriminate].
  apply orb_true_iff in Hm. destruct Hm as [Hm|Hm].
  - unfold eval_node.
    destruct (YYLLOC_DEFAULT st (Z.to_nat yyr2_.[r])); cbn [bind]; try discriminate.
    pose proof (action_gated r st ex1) as Hg.
    destruct (action ctx st ex1 r) as [res'| |]; cbn [bind]; try discriminate.
    exfalso. exact (Hg res' Hm eq_refl).
  - exfalso. exact (kids_gated _ kids IH Hm [] ex _ Hk).
Qed.

End Soundness.

(** ** The tokens of a program fit the family of the context *)

Section Fits.

Variable ctx : EvalContext.

Lemma action_out_of_range (r : Z) (st : list stack_symbol_type) (ex : list Token) :
  ~ 0 <= r <= 63 -> action ctx st ex r = Ok (v_none, ex).
Proof.
  intros H. destruct r as [|r|r]; try lia; [|reflexivity].
  do 7 (destruct r as [r|r|]; try lia); reflexivity.
Qed.

(** An action appends at most one token, and that token fits the family. *)
Lemma action_step (r : Z) (st : list stack_symbol_type) (ex ex' : list Token)
      (v : semantic_type) :
  action ctx st ex r = Ok (v, ex') ->
  exists l, ex' = ex ++ l
            /\ (if appends_token r then exists t, l = [t] else l = [])
            /\ Forall (fits_in ctx) l.
Proof.
  intros H. destruct (Z_le_dec 0 r) as [H0|H0]; [destruct (Z_le_dec r 63) as [H1|H1]|].
  - rewrite action_app in H.
    destruct (action ctx st [] r) as [[v' l]| |] eqn:Ha; try discriminate.
    injection H as <- <-. exists l. split; [reflexivity|].
    pose proof (action_emits ctx r st v' l (conj H0 H1) Ha) as He.
    destruct (appends_token r).
    + destruct He as [t [-> Hf]]. split; [exists t; reflexivity|].
      constructor; [exact Hf|constructor].
    + subst l. split; [reflexivity|constructor].
  - rewrite action_out_of_range in H by lia. injection H as <- <-.
    exists []. rewrite app_nil_r. split; [reflexivity|].
    split; [|constructor].
    unfold appends_token.
    replace (r <=? 35) with false by lia. replace (r <=? 63) with false by lia.
    rewrite !andb_false_r. reflexivity.
  - rewrite action_out_of_range in H by lia. injection H as <- <-.
    exists []. rewrite app_nil_r. split; [reflexivity|].
    split; [|constructor].
    unfold appends_token.
    replace (8 <=? r) with false by lia. replace (61 <=? r) with false by lia.
    reflexivity.
Qed.

Lemma eval_node_fits (r : Z) (st : list stack_symbol_type) (ex : list Token) :
  Forall (fits_in ctx) ex ->
  match eval_node ctx r st ex with
  | inl (_, l) => Forall (fits_in ctx) l
  | inr (Rejected _ l) => Forall (fits_in ctx) l
  | inr _ => True
  end.
Proof.
  intros Hex. unfold eval_node.
  destruct (YYLLOC_DEFAULT st (Z.to_nat yyr2_.[r])); cbn [bind];
    try exact I; try exact Hex.
  destruct (action ctx st ex r) as [[v ex']| |] eqn:Ha; cbn [bind snd];
    [|exact Hex|exact I].
  destruct (action_step r st ex ex' v Ha) as [l [-> [_ Hl]]].
  apply Forall_app. split; assumption.
Qed.

Lemma eval_kids_fits (ks : list tree) :
  Forall (fun t => forall ex, Forall (fits_in ctx) ex ->
                              match eval ctx t ex with
                              | inl (_, l) => Forall (fits_in ctx) l
                              | inr (Rejected _ l) => Forall (fits_in ctx) l
                              | inr _ => True
                              end) ks ->
  forall acc ex, Forall (fits_in ctx) ex ->
                 match eval_kids (eval ctx) ks acc ex with
                 | inl (_, l) => Forall (fits_in ctx) l
                 | inr (Rejected _ l) => Forall (fits_in ctx) l
                 | inr _ => True
                 end.
Proof.
  induction 1 as [|k ks Hk _ IH]; intros acc ex Hex; [exact Hex|].
  rewrite eval_kids_cons. specialize (Hk ex Hex).
  destruct (eval ctx k ex) as [[e ex1]|o]; [apply IH; exact Hk|exact Hk].
Qed.

(** Whatever the translation leaves in the program fits the family. *)
Lemma eval_fits (t : tree) (ex : list Token) :
  Forall (fits_in ctx) ex ->
  match eval ctx t ex with
  | inl (_, l) => Forall (fits_in ctx) l
  | inr (Rejected _ l) => Forall (fits_in ctx) l
  | inr _ => True
  end.
Proof.
  revert ex. induction t as [x|r kids IH] using tree_ind'; intros ex Hex.
  - exact Hex.
  - cbn [eval]. pose proof (eval_kids_fits kids IH [] ex Hex) as HK.
    destruct (eval_kids (eval ctx) kids [] ex) as [[st ex1]|o]; [|exact HK].
    apply eval_node_fits. exact HK.
Qed.

End Fits.

(** ** Family keywords in the text *)

(** The rules that the family rejects are the rules with a keyword of the
    other family. *)
Lemma gated_rules (u : Universe) :
  forallb (fun r => Bool.eqb (gated u r) (existsb (foreign u) (rhs r))) rules = true.
Proof. destruct u; vm_compute; reflexivity. Qed.

Lemma existsb_flat_map (A B : Type) (f : B -> bool) (g : A -> list B) (l : list A) :
  existsb f (flat_map g l) = existsb (fun a => existsb f (g a)) l.
Proof.
  induction l as [|a l IH]; [reflexivity|].
  cbn [flat_map existsb]. rewrite existsb_app, IH. reflexivity.
Qed.

(** A well-formed text with a keyword of the other family has a construct
    that the family rejects. *)
Lemma text_mentions (u : Universe) (t : tree) :
  forall la, wf la t = true ->
             existsb (fun tok => foreign u (type_get tok)) (yield t) = true ->
             match t with
             | Leaf x => foreign u (type_get x) = true
             | Node _ _ => mentions (gated u) t = true
             end.
Proof.
  induction t as [x|r kids IH] using tree_ind'; intros la Hwf Hex.
  - cbn in Hex. rewrite orb_false_r in Hex. exact Hex.
  - cbn [yield] in Hex. rewrite existsb_flat_map in Hex.
    cbn [wf] in Hwf.
    apply andb_true_iff in Hwf. destruct Hwf as [Hwf Hkids].
    apply andb_true_iff in Hwf. destruct Hwf as [Hwf _].
    apply andb_true_iff in Hwf. destruct Hwf as [Hwf Hroots].
    apply andb_true_iff in Hwf. destruct Hwf as [Hlo Hhi].
    apply list_eqb_eq in Hroots.
    assert (Hr : 2 <= r <= 63) by lia.
    pose proof (forall_rules _ (gated_rules u) r Hr) as Hg. cbv beta in Hg.
    apply Bool.eqb_prop in Hg.
    cbn [mentions]. rewrite Hg, <- Hroots. clear Hg Hroots Hlo Hhi Hr.
    revert Hkids Hex. generalize 0%nat.
    induction IH as [|k ks Hk _ IHks]; intros i Hkids Hex; [discriminate|].
    rewrite wf_kids_cons in Hkids.
    apply andb_true_iff in Hkids. destruct Hkids as [Hkids Hwfks].
    apply andb_true_iff in Hkids. destruct Hkids as [_ Hwfk].
    cbn [existsb map] in *. apply orb_true_iff in Hex. destruct Hex as [Hex|Hex].
    + specialize (Hk _ Hwfk Hex). destruct k as [x|r' kids'].
      * cbn [root]. rewrite Hk. reflexivity.
      * rewrite Hk. rewrite !orb_true_r. reflexivity.
    + specialize (IHks (S i) Hwfks Hex).
      apply orb_true_iff in IHks. apply orb_true_iff.
      destruct IHks as [H|H]; [left; rewrite H; apply orb_true_r|right].
      rewrite H. apply orb_true_r.
Qed.

(** ** Reductions and the program *)

Section Reductions.

Variable ctx : EvalContext.

(** A reduction appends the token of its rule, if the rule has one, and
    leaves the rest of the program as it is. *)
Lemma yyreduce_expression (r : Z) (p p' : parser) :
  yyreduce ctx r p = inl p' ->
  exists l, expression p' = expression p ++ l
            /\ (if appends_token r then exists t, l = [t] else l = [])
            /\ Forall (fits_in ctx) l.
Proof.
  unfold yyreduce.
  destruct (stack_at (yystack_ p) (Z.to_nat yyr2_.[r])) as [below| |];
    cbn [bind]; try discriminate.
  destruct (YYLLOC_DEFAULT (yystack_ p) (Z.to_nat yyr2_.[r])) as [loc| |];
    cbn [bind]; try discriminate.
  destruct (action ctx (yystack_ p) (expression p) r) as [[v ex']| |] eqn:Ha;
    cbn [bind fst snd]; try discriminate.
  intros [= <-]. cbn [expression]. exact (action_step ctx r _ _ _ _ Ha).
Qed.

(** A reduction that does not complete leaves the program as it is. *)
Lemma yyreduce_rejected (r : Z) (p : parser) (e : exception) (partial : list Token) :
  yyreduce ctx r p = inr (Rejected e partial) -> partial = expression p.
Proof.
  unfold yyreduce.
  destruct (stack_at (yystack_ p) (Z.to_nat yyr2_.[r])) as [below| |];
    cbn [bind]; try discriminate.
  - destruct (YYLLOC_DEFAULT (yystack_ p) (Z.to_nat yyr2_.[r])) as [loc| |];
      cbn [bind]; try discriminate.
    + destruct (action ctx (yystack_ p) (expression p) r) as [[v ex']| |];
        cbn [bind fst snd]; try discriminate.
      intros [= _ <-]. reflexivity.
    + intros [= _ <-]. reflexivity.
  - intros [= _ <-]. reflexivity.
Qed.

(** One turn of the loop appends at most one token. *)
Lemma step_expression (p p' : parser) :
  step ctx p = inl p' ->
  exists l, expression p' = expression p ++ l /\ (List.length l <= 1)%nat.
Proof.
  intros Hs.
  destruct (yystack_ p) as [|top st] eqn:Hst.
  { unfold step in Hs. rewrite Hst in Hs. discriminate. }
  destruct (Z.eq_dec (state top) yyfinal_) as [Hf|Hf].
  { rewrite (step_final ctx p top st Hst Hf) in Hs. discriminate. }
  rewrite (step_decide ctx p top st Hst Hf) in Hs.
  destruct (decide (state top) (type_get (peek p))) as [s'|r|]; try discriminate.
  - injection Hs as <-. exists []. rewrite app_nil_r. split; [reflexivity|cbn; lia].
  - destruct (yyreduce_expression r _ p' Hs) as [l [Hl [Hone _]]].
    exists l. split.
    + rewrite Hl. destruct (yy_pact_value_is_default_ yypact_.[state top]); reflexivity.
    + destruct (appends_token r); [destruct Hone as [t ->]|subst l]; cbn; lia.
Qed.

End Reductions.

Lemma allowed_plain (r : Z) (i : nat) (k : tree) :
  negb ((r =? 8) || (r =? 9) || (r =? 10)) = true -> allowed r i k = true.
Proof.
  intros H. apply negb_true_iff in H.
  apply orb_false_iff in H. destruct H as [H H10].
  apply orb_false_iff in H. destruct H as [H8 H9].
  destruct k as [x|r' kids]; [reflexivity|]. unfold allowed, allowed_child.
  destruct r as [|r|r]; try reflexivity.
  do 4 (destruct r as [r|r|]; try reflexivity); discriminate.
Qed.

(** Evaluate the nodes of a tree whose rules are given. *)
Ltac run_eval :=
  unfold eval_node;
  repeat match goal with
         | |- context [Z.to_nat yyr2_.[?r]] =>
             let n := eval vm_compute in (Z.to_nat yyr2_.[r]) in
             change (Z.to_nat yyr2_.[r]) with n
         end;
  cbn.

Lemma typed_stack_Forall2 (r : Z) (es : list stack_symbol_type) :
  typed_stack r es = true ->
  Forall2 (fun X e => carries X (value e) = true) (rev (rhs r)) es.
Proof.
  unfold typed_stack. rewrite <- (length_rev (rhs r)).
  generalize (rev (rhs r)). intros Xs. revert es.
  induction Xs as [|X Xs IH]; intros [|e es] H; cbn in H; try discriminate.
  - constructor.
  - apply andb_true_iff in H. destruct H as [Hl H].
    apply andb_true_iff in H. destruct H as [Hc H].
    constructor; [exact Hc|]. apply IH. apply andb_true_iff. split; assumption.
Qed.

Ltac open_typed H :=
  repeat (apply Forall2_cons_inv in H;
          let e := fresh "e" in
          let Hc := fresh "Hc" in
          destruct H as [e [? [-> [Hc H]]]];
          cbn in Hc;
          lazymatch type of Hc with
          | true = true => clear Hc
          | _ => destruct e as [? [] ?]; cbn in Hc; try discriminate Hc; clear Hc
          end);
  apply Forall2_nil_inv in H; subst.

(** ** Syntax errors *)

(** In every state of the automaton the message of [yysyntax_error_] is
    [syntax_message]. *)
Lemma yysyntax_error_message (s : Z) (la : symbol_type) :
  valid_state s = true ->
  yysyntax_error_ s (Some la) = syntax_message s (type_get la).
Proof.
  intros Hs. assert (Hin : In s states).
  { apply Zrange_In. unfold valid_state in Hs. lia. }
  unfold yysyntax_error_, syntax_message, symbol_name at 1.
  generalize (nth (Z.to_nat (type_get la)) yytname_ ""). intros X.
  vm_compute in Hin.
  repeat (destruct Hin as [<- | Hin]; [vm_compute; reflexivity|]).
  contradiction.
Qed.

Section SyntaxErrors.

Variable ctx : EvalContext.

Lemma stack_at_no_throw (st : list stack_symbol_type) (i : nat) (e : exception) :
  stack_at st i <> Throw e.
Proof. unfold stack_at. destruct (nth_error st i); discriminate. Qed.

Lemma YYLLOC_DEFAULT_no_throw (st : list stack_symbol_type) (n : nat) (e : exception) :
  YYLLOC_DEFAULT st n <> Throw e.
Proof.
  unfold YYLLOC_DEFAULT. destruct n as [|n].
  - destruct (location_at st 0) as [l|e'|] eqn:H; cbn [bind]; try discriminate.
    exfalso. exact (location_at_no_throw _ _ _ H).
  - destruct (location_at st (S n - 1)) as [l|e'|] eqn:H; cbn [bind]; try discriminate.
    + destruct (location_at st 0) as [l0|e'|] eqn:H0; cbn [bind]; try discriminate.
      exfalso. exact (location_at_no_throw _ _ _ H0).
    + exfalso. exact (location_at_no_throw _ _ _ H).
Qed.

Lemma yyreduce_throws (r : Z) (p : parser) (e : exception) (partial : list Token) :
  yyreduce ctx r p = inr (Rejected e partial) ->
  action ctx (yystack_ p) (expression p) r = Throw e.
Proof.
  unfold yyreduce.
  destruct (stack_at (yystack_ p) (Z.to_nat yyr2_.[r])) as [below|e'|] eqn:Hb;
    cbn [bind].
  2: { exfalso. exact (stack_at_no_throw _ _ _ Hb). }
  2: discriminate.
  destruct (YYLLOC_DEFAULT (yystack_ p) (Z.to_nat yyr2_.[r])) as [loc|e'|] eqn:Hl;
    cbn [bind].
  2: { exfalso. exact (YYLLOC_DEFAULT_no_throw _ _ _ Hl). }
  2: discriminate.
  destruct (action ctx (yystack_ p) (expression p) r) as [[v ex']|e'|];
    cbn [bind]; try discriminate.
  intros [= <- _]. reflexivity.
Qed.

Lemma peek_from_text (lx : lexer) (p : parser) :
  from_text lx p -> In (peek p) (tokens lx) \/ peek p = eof_symbol lx.
Proof.
  intros [Heof [Hincl Hla]]. unfold peek, yylex.
  destruct (yyla p) as [la|]; [apply Hla; reflexivity|].
  destruct (tokens (lex p)) as [|t ts] eqn:Ht; cbn [fst].
  - right. unfold eof_symbol. rewrite Heof. reflexivity.
  - left. apply Hincl. left. reflexivity.
Qed.

Lemma from_text_advance (lx : lexer) (p : parser) :
  from_text lx p ->
  eof (advance p) = eof lx /\ incl (tokens (advance p)) (tokens lx).
Proof.
  intros [Heof [Hincl Hla]]. rewrite eof_advance. split; [exact Heof|].
  unfold advance, yylex. destruct (yyla p); [exact Hincl|].
  destruct (tokens (lex p)) as [|t ts] eqn:Ht; cbn [snd tokens].
  - rewrite Ht. exact Hincl.
  - intros x Hx. apply Hincl. right. exact Hx.
Qed.

Lemma from_text_step (lx : lexer) (p p' : parser) :
  from_text lx p -> step ctx p = inl p' -> from_text lx p'.
Proof.
  intros Hft Hs.
  destruct (yystack_ p) as [|top st] eqn:Hst.
  { unfold step in Hs. rewrite Hst in Hs. discriminate. }
  destruct (Z.eq_dec (state top) yyfinal_) as [Hf|Hf].
  { rewrite (step_final ctx p top st Hst Hf) in Hs. discriminate. }
  rewrite (step_decide ctx p top st Hst Hf) in Hs.
  destruct (from_text_advance lx p Hft) as [Heof Hincl].
  assert (Hread : from_text lx (read_lookahead p)).
  { unfold from_text, read_lookahead. cbn [lex yyla].
    split; [exact Heof|]. split; [exact Hincl|].
    intros la [= <-]. apply peek_from_text. exact Hft. }
  destruct (decide (state top) (type_get (peek p))) as [s'|r|]; try discriminate.
  - injection Hs as <-. unfold from_text, shifted. cbn [lex yyla].
    split; [exact Heof|]. split; [exact Hincl|]. discriminate.
  - assert (Hq : from_text lx (if yy_pact_value_is_default_ yypact_.[state top]
                               then p else read_lookahead p)).
    { destruct (yy_pact_value_is_default_ yypact_.[state top]); assumption. }
    revert Hs Hq.
    generalize (if yy_pact_value_is_default_ yypact_.[state top]
                then p else read_lookahead p).
    intros q Hs Hq. unfold yyreduce in Hs.
    destruct (stack_at (yystack_ q) (Z.to_nat yyr2_.[r])); cbn [bind] in Hs;
      try discriminate.
    destruct (YYLLOC_DEFAULT (yystack_ q) (Z.to_nat yyr2_.[r])); cbn [bind] in Hs;
      try discriminate.
    destruct (action ctx (yystack_ q) (expression q) r); cbn [bind] in Hs;
      try discriminate.
    injection Hs as <-. exact Hq.
Qed.

Lemma from_text_initial (lx : lexer) : from_text lx (initial lx).
Proof.
  unfold from_text, initial. cbn [lex yyla].
  split; [reflexivity|]. split; [apply incl_refl|discriminate].
Qed.

(** A turn of the loop that ends in a syntax error reports the lookahead. *)
Lemma step_syntax_error (p : parser) (loc : location_type) (msg : string)
      (partial : list Token) :
  valid p ->
  step ctx p = inr (Rejected (ParseError SyntaxError loc msg) partial) ->
  loc = sym_location (peek p)
  /\ msg = syntax_message (top_state p) (type_get (peek p))
  /\ valid_state (top_state p) = true
  /\ decide (top_state p) (type_get (peek p)) = Error
  /\ partial = expression p.
Proof.
  intros Hv Hs.
  destruct (yystack_ p) as [|top st] eqn:Hst.
  { unfold step in Hs. rewrite Hst in Hs. discriminate. }
  destruct (Z.eq_dec (state top) yyfinal_) as [Hf|Hf].
  { rewrite (step_final ctx p top st Hst Hf) in Hs. discriminate. }
  rewrite (step_decide ctx p top st Hst Hf) in Hs.
  assert (Htop : valid_state (state top) = true).
  { unfold valid in Hv. rewrite Hst in Hv. inversion Hv; assumption. }
  rewrite (top_state_cons p top st Hst).
  destruct (decide (state top) (type_get (peek p))) as [s'|r|] eqn:Hd; try discriminate.
  - exfalso.
    assert (Hr : 0 <= r <= 63).
    { destruct (decide_cases (state top) (type_get (peek p)) Htop)
        as [Hdd|[s' [Hdd _]]]; [|congruence].
      rewrite Hd in Hdd.
      destruct (default_cases (state top) Htop Hf) as [He|[r' [Hr' [_ [Hrng _]]]]];
        [congruence|].
      assert (r' = r) by congruence. lia. }
    apply yyreduce_throws in Hs.
    destruct (action_throws ctx r _ _ _ Hr Hs) as [[l [lit He]]|[_ [l [He _]]]];
      discriminate.
  - destruct (yy_pact_value_is_default_ yypact_.[state top]) eqn:Hpd.
    + exfalso. unfold decide in Hd. rewrite Hpd in Hd.
      destruct (state_ok (state top) Htop) as [_ [Hdef _]].
      unfold default_ok in Hdef. unfold decide_default in Hd.
      destruct (yydefact_.[state top] =? 0); [|discriminate].
      rewrite Hpd in Hdef. cbn in Hdef. rewrite andb_false_r in Hdef. discriminate.
    + unfold yyerrlab, read_lookahead in Hs. cbn [yyla yystack_ expression] in Hs.
      rewrite Hst in Hs. injection Hs as <- <- <-.
      repeat split; try reflexivity; try assumption.
      apply yysyntax_error_message. exact Htop.
Qed.

End SyntaxErrors.

(** ** Changing the symbol that follows *)

Lemma wf_follow (t : tree) :
  forall la la',
    (forall r, follow_ok r la = true -> follow_ok r la' = true) ->
    wf la t = true -> wf la' t = true.
Proof.
  induction t as [x|r kids IH] using tree_ind'; intros la la' Hf Hwf; [exact Hwf|].
  cbn [wf] in *.
  apply andb_true_iff in Hwf. destruct Hwf as [Hwf Hkids].
  apply andb_true_iff in Hwf. destruct Hwf as [Hwf Hfol].
  rewrite Hwf, (Hf r Hfol). cbn [andb].
  clear Hwf. revert Hkids. generalize 0%nat.
  induction IH as [|k ks Hk _ IHks]; intros i Hkids; [reflexivity|].
  rewrite wf_kids_cons in *.
  apply andb_true_iff in Hkids. destruct Hkids as [Hkids Hks].
  apply andb_true_iff in Hkids. destruct Hkids as [Hal Hwfk].
  rewrite Hal, (IHks _ Hks), andb_true_r. cbn [andb].
  unfold first_type in *. destruct (flat_map yield ks); [|exact Hwfk].
  apply (Hk la la' Hf Hwfk).
Qed.

(** What may come before [and] may come before [or], a closing
    parenthesis, and the end of the text. *)
Lemma wf_before_and (t : tree) (la : Z) :
  la = token.OR \/ la = token.RPAREN \/ la = token.END ->
  wf token.AND t = true -> wf la t = true.
Proof.
  intros Hla. apply wf_follow. intros r.
  unfold follow_ok, token.AND.
  destruct (Z.eq_dec r 4) as [-> |H4]; [discriminate|].
  destruct (Z.eq_dec r 6) as [-> |H6]; [discriminate|].
  destruct (Z.eq_dec r 10) as [-> |H10]; [discriminate|].
  destruct (Z.eq_dec r 5) as [-> |H5];
    [destruct Hla as [-> | [-> | ->]]; reflexivity|].
  destruct (Z.eq_dec r 33) as [-> |H33];
    [destruct Hla as [-> | [-> | ->]]; reflexivity|].
  intros _.
  assert (Hr : match r with
               | 4 | 6 => negb ((la =? 6) || (la =? 7))
               | 5 => negb (la =? 8)
               | 10 => negb (la =? 6)
               | 33 => negb (la =? 14)
               | _ => true
               end = true).
  { destruct r as [|r|r]; try reflexivity.
    do 6 (try (destruct r as [r|r|]; try reflexivity)); congruence. }
  rewrite Hr. destruct Hla as [-> | [-> | ->]]; reflexivity.
Qed.

Lemma primary_facts (t : tree) :
  primary t = true ->
  root t = 56
  /\ wf token.AND t = true /\ wf token.OR t = true
  /\ wf token.RPAREN t = true /\ wf token.END t = true
  /\ (forall r i, allowed r i t = true).
Proof.
  unfold primary. intros H.
  apply andb_true_iff in H. destruct H as [H Hwf].
  apply andb_true_iff in H. destruct H as [Hroot Hop].
  apply Z.eqb_eq in Hroot.
  split; [exact Hroot|]. split; [exact Hwf|].
  split; [apply wf_before_and; [tauto|exact Hwf]|].
  split; [apply wf_before_and; [tauto|exact Hwf]|].
  split; [apply wf_before_and; [tauto|exact Hwf]|].
  intros r i. destruct t as [x|r' kids]; [reflexivity|].
  cbn [operand] in Hop. apply negb_true_iff in Hop.
  apply orb_false_iff in Hop. destruct Hop as [H9 H10].
  unfold allowed, allowed_child.
  destruct r as [|r|r]; try reflexivity.
  do 4 (destruct r as [r|r|]; try reflexivity);
    destruct i as [|[|[|i]]]; try reflexivity; rewrite ?H9, ?H10; reflexivity.
Qed.

Lemma program_of_eval (ctx : EvalContext) (t : tree) (program : list Token) :
  program_of ctx t = Some program ->
  exists sym, forall ex, eval ctx t ex = inl (sym, ex ++ program).
Proof.
  unfold program_of. destruct (eval ctx t []) as [[sym l]|o] eqn:H; [|discriminate].
  intros [= <-]. exists sym. intros ex. rewrite eval_from, H. reflexivity.
Qed.

(** ** Boolean operators *)

Lemma parse_bool (ctx : EvalContext) (b : tree) (program : list Token)
      (e : location_type) :
  root b = 56 -> wf token.END b = true ->
  program_of ctx b = Some program ->
  parse ctx (bool_input (yield b) e) = Accepted program.
Proof.
  intros Hroot Hwf Hb.
  assert (Hy : yield (bool_text b)
               = make token.TOPLEVEL_BOOL (columns 1 1) :: yield b).
  { cbn [bool_text yield flat_map app]. rewrite !app_nil_r. reflexivity. }
  unfold bool_input. rewrite <- Hy. rewrite parse_tree.
  - unfold compile, bool_text. unfold program_of in Hb.
    cbn [eval eval_kids].
    destruct (eval ctx b []) as [[sym pb]|o] eqn:Hev; [|discriminate].
    injection Hb as ->.
    run_eval. reflexivity.
  - unfold wf_start, bool_text.
    cbn [root wf wf_kids first_type flat_map yield app map type_get make].
    rewrite Hroot, (allowed_plain 6 0 b eq_refl).
    change yyeof_ with token.END. rewrite Hwf.
    vm_compute. reflexivity.
Qed.

Lemma program_and (ctx : EvalContext) (a b : tree) (pa pb : list Token)
      (l : location_type) :
  program_of ctx a = Some pa -> program_of ctx b = Some pb ->
  program_of ctx (Node 9 [a; Leaf (make token.AND l); b])
  = Some (pa ++ pb ++ [TokenAnd]).
Proof.
  intros Ha Hb.
  destruct (program_of_eval ctx a pa Ha) as [sa Hsa].
  destruct (program_of_eval ctx b pb Hb) as [sb Hsb].
  unfold program_of. cbn [eval eval_kids].
  rewrite Hsa. rewrite Hsb. run_eval. rewrite <- !app_assoc. reflexivity.
Qed.

Lemma program_or (ctx : EvalContext) (a b : tree) (pa pb : list Token)
      (l : location_type) :
  program_of ctx a = Some pa -> program_of ctx b = Some pb ->
  program_of ctx (Node 10 [a; Leaf (make token.OR l); b])
  = Some (pa ++ pb ++ [TokenOr]).
Proof.
  intros Ha Hb.
  destruct (program_of_eval ctx a pa Ha) as [sa Hsa].
  destruct (program_of_eval ctx b pb Hb) as [sb Hsb].
  unfold program_of. cbn [eval eval_kids].
  rewrite Hsa. rewrite Hsb. run_eval. rewrite <- !app_assoc. reflexivity.
Qed.

Lemma program_not (ctx : EvalContext) (a : tree) (pa : list Token)
      (l : location_type) :
  program_of ctx a = Some pa ->
  program_of ctx (Node 8 [Leaf (make token.NOT l); a]) = Some (pa ++ [TokenNot]).
Proof.
  intros Ha.
  destruct (program_of_eval ctx a pa Ha) as [sa Hsa].
  unfold program_of. cbn [eval eval_kids].
  rewrite Hsa. run_eval. reflexivity.
Qed.

Lemma program_paren (ctx : EvalContext) (a : tree) (pa : list Token)
      (l l' : location_type) :
  program_of ctx a = Some pa ->
  program_of ctx (Node 7 [Leaf (make token.LPAREN l); a; Leaf (make token.RPAREN l')])
  = Some pa.
Proof.
  intros Ha.
  destruct (program_of_eval ctx a pa Ha) as [sa Hsa].
  unfold program_of. cbn [eval eval_kids].
  rewrite Hsa. run_eval. reflexivity.
Qed.

(** Unfold the well-formedness of a tree down to its operands. *)
Ltac open_wf :=
  cbn [root wf wf_kids first_type flat_map yield app map type_get make].

(** ** Enterprise ids *)

Lemma enterprise_rules :
  forallb (fun r => if yyr1_.[r] =? 63 then (r =? 46) || (r =? 47) else true)
          rules = true.
Proof. vm_compute. reflexivity. Qed.

(** An enterprise id is one token: an integer or [*]. *)
Lemma enterprise_id_shape (la : Z) (E : tree) :
  root E = 63 -> wf la E = true ->
  exists x, (E = Node 46 [Leaf x] /\ type_get x = token.INTEGER)
            \/ (E = Node 47 [Leaf x] /\ type_get x = token.ANY).
Proof.
  destruct E as [y|r kids]; cbn [root wf].
  - intros ->. discriminate.
  - intros Hroot Hwf.
    apply andb_true_iff in Hwf. destruct Hwf as [Hwf Hkids].
    apply andb_true_iff in Hwf. destruct Hwf as [Hwf _].
    apply andb_true_iff in Hwf. destruct Hwf as [Hr Hrhs].
    apply andb_true_iff in Hr. destruct Hr as [Hr2 Hr63].
    apply Z.leb_le in Hr2. apply Z.leb_le in Hr63.
    pose proof (forall_rules _ enterprise_rules r (conj Hr2 Hr63)) as Hc.
    cbv beta in Hc. rewrite Hroot in Hc. cbn [Z.eqb Pos.eqb] in Hc.
    apply list_eqb_eq in Hrhs.
    assert (Hone : forall X, map root kids = [X] -> X < 53 ->
                             exists x, kids = [Leaf x] /\ type_get x = X).
    { intros X HX Hlt. destruct kids as [|k [|k' ks]]; try discriminate.
      injection HX as HX. destruct k as [x|r' kids'].
      - exists x. split; [reflexivity|exact HX].
      - exfalso. rewrite wf_kids_cons in Hkids.
        apply andb_true_iff in Hkids. destruct Hkids as [Hkids _].
        apply andb_true_iff in Hkids. destruct Hkids as [_ Hk].
        cbn [wf] in Hk.
        apply andb_true_iff in Hk. destruct Hk as [Hk _].
        apply andb_true_iff in Hk. destruct Hk as [Hk _].
        apply andb_true_iff in Hk. destruct Hk as [Hk _].
        apply andb_true_iff in Hk. destruct Hk as [Hk2 Hk63].
        apply Z.leb_le in Hk2. apply Z.leb_le in Hk63.
        pose proof (rule_shape r' (conj Hk2 Hk63)) as [Hs _].
        cbn [root] in HX. lia. }
    apply orb_true_iff in Hc. destruct Hc as [Hc|Hc]; apply Z.eqb_eq in Hc; subst r.
    + destruct (Hone 48 Hrhs ltac:(lia)) as [x [-> Hx]].
      exists x. left. split; [reflexivity|exact Hx].
    + destruct (Hone 42 Hrhs ltac:(lia)) as [x [-> Hx]].
      exists x. right. split; [reflexivity|exact Hx].
Qed.

(** ** The turn that ends a run, and the symbols shifted before it *)

Lemma run_steps (ctx : EvalContext) (fuel : nat) :
  forall p o, run ctx fuel p = o -> o <> Timeout ->
              exists n, (n <= fuel)%nat /\ steps ctx n p = inr o.
Proof.
  induction fuel as [|fuel IH]; intros p o Hr Ho; cbn [run] in Hr; [congruence|].
  destruct (step ctx p) as [p'|o'] eqn:Hs.
  - destruct (IH p' o Hr Ho) as [n [Hn Hst]].
    exists (S n). split; [lia|]. cbn [steps]. rewrite Hs. exact Hst.
  - exists 1%nat. split; [lia|]. cbn [steps]. rewrite Hs. congruence.
Qed.

Section Shifts.

Variable ctx : EvalContext.

(** A run that has ended did so in a turn of a parser it had reached. *)
Lemma steps_last (n : nat) :
  forall p o, steps ctx n p = inr o ->
              exists m q, (m < n)%nat /\ steps ctx m p = inl q /\ step ctx q = inr o.
Proof.
  induction n as [|n IH]; intros p o H; cbn [steps] in H; [discriminate|].
  destruct (step ctx p) as [p'|o'] eqn:Hs.
  - destruct (IH p' o H) as [m [q [Hm [Hq Ho]]]].
    exists (S m), q. split; [lia|]. split; [|exact Ho].
    cbn [steps]. rewrite Hs. exact Hq.
  - injection H as ->. exists 0%nat, p. split; [lia|]. split; [reflexivity|exact Hs].
Qed.

Lemma steps_valid (n : nat) :
  forall p q, valid p -> steps ctx n p = inl q -> valid q.
Proof.
  induction n as [|n IH]; intros p q Hv H; cbn [steps] in H.
  - injection H as <-. exact Hv.
  - destruct (step ctx p) as [p'|o] eqn:Hs; [|discriminate].
    apply (IH p' q); [|exact H]. apply (step_measure ctx p p' Hv Hs).
Qed.

(** A reduction leaves the lookahead and the lexer alone. *)
Lemma yyreduce_input (r : Z) (q p' : parser) :
  yyreduce ctx r q = inl p' -> yyla p' = yyla q /\ lex p' = lex q.
Proof.
  unfold yyreduce.
  destruct (stack_at (yystack_ q) (Z.to_nat yyr2_.[r])); cbn [bind]; try discriminate.
  destruct (YYLLOC_DEFAULT (yystack_ q) (Z.to_nat yyr2_.[r])); cbn [bind];
    try discriminate.
  destruct (action ctx (yystack_ q) (expression q) r) as [[v ex]| |]; cbn [bind];
    try discriminate.
  intros [= <-]. split; reflexivity.
Qed.

Lemma final_stops (n : nat) (p q : parser) :
  top_state p = yyfinal_ -> steps ctx n p = inl q -> q = p.
Proof.
  intros Hf H. destruct n as [|n]; cbn [steps] in H; [congruence|].
  unfold top_state in Hf. destruct (yystack_ p) as [|top st] eqn:Hst.
  - unfold yyfinal_ in Hf. discriminate.
  - rewrite (step_final ctx p top st Hst Hf) in H. discriminate.
Qed.

(** The text that is left after [n] turns is the text that was left
    before, without the symbols shifted in between. *)
Lemma shifts_text (n : nat) :
  forall p q w,
    valid p -> pending p w -> steps ctx n p = inl q -> top_state q <> yyfinal_ ->
    exists w', pending q w' /\ w = shifts ctx n p ++ w' /\ eof (lex q) = eof (lex p).
Proof.
  induction n as [|n IH]; intros p q w Hv Hp H Hq.
  - injection H as <-. exists w. split; [exact Hp|]. split; reflexivity.
  - cbn [steps shifts] in *.
    destruct (step ctx p) as [p'|o] eqn:Hs; [|discriminate].
    destruct (step_measure ctx p p' Hv Hs) as [Hv' _].
    destruct (yystack_ p) as [|top st] eqn:Hst.
    { unfold step in Hs. rewrite Hst in Hs. discriminate. }
    destruct (Z.eq_dec (state top) yyfinal_) as [Hf|Hf].
    { rewrite (step_final ctx p top st Hst Hf) in Hs. discriminate. }
    assert (Htop : valid_state (state top) = true).
    { unfold valid in Hv. rewrite Hst in Hv. inversion Hv; assumption. }
    rewrite (top_state_cons p top st Hst).
    rewrite (step_decide ctx p top st Hst Hf) in Hs.
    destruct (decide (state top) (type_get (peek p))) as [s'|r|] eqn:Hd;
      try discriminate.
    + injection Hs as <-. destruct w as [|t w1].
      * exfalso. destruct (pending_nil p Hp) as [Hpk _].
        destruct (decide_cases (state top) (type_get (peek p)) Htop)
          as [Hdd|[s1 [Hdd [_ [Hfin _]]]]].
        { rewrite Hd in Hdd. unfold decide_default in Hdd.
          destruct (yydefact_.[state top] =? 0); discriminate. }
        assert (s1 = s') by congruence. subst s1.
        assert (Hs' : s' = yyfinal_).
        { apply Hfin. rewrite Hpk. reflexivity. }
        assert (Hfinal : top_state (shifted s' p) = yyfinal_).
        { unfold top_state, shifted. cbn [yystack_ state]. exact Hs'. }
        rewrite (final_stops n _ q Hfinal H) in Hq. exact (Hq Hfinal).
      * destruct (pending_cons p t w1 Hp) as [Hpk _].
        destruct (IH (shifted s' p) q w1 Hv' (pending_shifted p s' t w1 Hp) H Hq)
          as [w' [Hp' [Hw Heof]]].
        exists w'. split; [exact Hp'|]. split.
        -- rewrite Hpk, Hw. reflexivity.
        -- rewrite Heof. unfold shifted. cbn [lex]. apply eof_advance.
    + assert (Hred : exists q0, yyreduce ctx r q0 = inl p' /\ pending q0 w
                                /\ eof (lex q0) = eof (lex p)).
      { destruct (yy_pact_value_is_default_ yypact_.[state top]).
        - exists p. split; [exact Hs|]. split; [exact Hp|reflexivity].
        - exists (read_lookahead p). split; [exact Hs|].
          split; [apply pending_read; exact Hp|].
          unfold read_lookahead. cbn [lex]. apply eof_advance. }
      destruct Hred as [q0 [Hr [Hp0 Heof0]]].
      destruct (yyreduce_input r q0 p' Hr) as [Hla Hlex].
      assert (Hp' : pending p' w).
      { unfold pending in *. rewrite Hla, Hlex. exact Hp0. }
      destruct (IH p' q w Hv' Hp' H Hq) as [w' [Hpq [Hw Heof]]].
      exists w'. split; [exact Hpq|]. split; [exact Hw|].
      rewrite Heof, Hlex. exact Heof0.
Qed.

(** The lookahead is the first symbol of the text that is left, the end of
    the file after it. *)
Lemma pending_peek (p : parser) (w : list symbol_type) :
  pending p w -> exists rest, w ++ [eof_symbol (lex p)] = peek p :: rest.
Proof.
  intros H. destruct w as [|t w].
  - destruct (pending_nil p H) as [-> _]. exists []. reflexivity.
  - destruct (pending_cons p t w H) as [-> _]. eexists. reflexivity.
Qed.

(** Two accounts of the text that is left agree when no symbol of the text
    is an end of file. *)
Lemma pending_unique (p : parser) (w w' : list symbol_type) :
  pending p w -> pending p w' ->
  Forall (fun x => lexed x = true) w -> Forall (fun x => lexed x = true) w' ->
  w = w'.
Proof.
  unfold pending. destruct (yyla p) as [la|]; [|congruence].
  intros H H' Hw Hw'.
  destruct H as [H|[H [Hla _]]]; destruct H' as [H'|[H' [Hla' _]]];
    try congruence; exfalso.
  - rewrite <- H in Hw. apply Forall_inv in Hw. rewrite Hla' in Hw. discriminate.
  - rewrite <- H' in Hw'. apply Forall_inv in Hw'. rewrite Hla in Hw'. discriminate.
Qed.

(** The parser that reports an error has not reached the final state. *)
Lemma rejected_not_final (p : parser) (e : exception) (partial : list Token) :
  step ctx p = inr (Rejected e partial) -> top_state p <> yyfinal_.
Proof.
  intros Hs Hf. unfold top_state in Hf.
  destruct (yystack_ p) as [|top st] eqn:Hst.
  - unfold yyfinal_ in Hf. discriminate.
  - rewrite (step_final ctx p top st Hst Hf) in Hs. discriminate.
Qed.

End Shifts.

(** ** The terminals a state expects *)

Lemma shiftable_decides :
  forallb (fun s =>
             forallb (fun x => Bool.eqb (shiftable s x)
                                        match decide s x with
                                        | Shift _ => true
                                        | _ => false
                                        end) (Zrange 0 yyntokens_)) states = true.
Proof. vm_compute. reflexivity. Qed.

(** The expected terminals of a state are those it shifts. *)
Lemma expected_decide (s x : Z) :
  valid_state s = true ->
  In x (expected s) <-> 0 <= x < yyntokens_ /\ exists s', decide s x = Shift s'.
Proof.
  intros Hs. pose proof (forall_states _ shiftable_decides s Hs) as H.
  cbv beta in H. rewrite forallb_forall in H.
  unfold expected. rewrite filter_In, Zrange_In. split.
  - intros [Hx Hsh]. split; [exact Hx|].
    specialize (H x (proj2 (Zrange_In 0 yyntokens_ x) Hx)).
    rewrite Hsh in H. destruct (decide s x) as [s'| |]; try discriminate.
    exists s'. reflexivity.
  - intros [Hx [s' Hd]]. split; [exact Hx|].
    specialize (H x (proj2 (Zrange_In 0 yyntokens_ x) Hx)).
    rewrite Hd in H. destruct (shiftable s x); [reflexivity|discriminate].
Qed.

(** No state expects five to eight terminals, and a state that reads its
    lookahead expects one at least. *)
Lemma expected_count_ok :
  forallb (fun s =>
             (Nat.leb (List.length (expected s)) 4
              || Nat.leb 9 (List.length (expected s)))
             && (yy_pact_value_is_default_ yypact_.[s]
                 || Nat.leb 1 (List.length (expected s)))) states = true.
Proof. vm_compute. reflexivity. Qed.

Lemma expected_count (s t : Z) :
  valid_state s = true -> decide s t = Error ->
  (1 <= List.length (expected s) <= 4)%nat \/ (9 <= List.length (expected s))%nat.
Proof.
  intros Hs Hd. pose proof (forall_states _ expected_count_ok s Hs) as H.
  cbv beta in H. apply andb_true_iff in H. destruct H as [Hgap Hone].
  assert (Hnd : yy_pact_value_is_default_ yypact_.[s] = false).
  { destruct (yy_pact_value_is_default_ yypact_.[s]) eqn:Hpd; [|reflexivity].
    exfalso. unfold decide in Hd. rewrite Hpd in Hd.
    destruct (state_ok s Hs) as [_ [Hdef _]].
    unfold default_ok in Hdef. unfold decide_default in Hd.
    destruct (yydefact_.[s] =? 0); [|discriminate].
    rewrite Hpd in Hdef. cbn in Hdef. rewrite andb_false_r in Hdef. discriminate. }
  rewrite Hnd in Hone. cbn [orb] in Hone. apply Nat.leb_le in Hone.
  apply orb_true_iff in Hgap. destruct Hgap as [H4|H9].
  - left. apply Nat.leb_le in H4. lia.
  - right. apply Nat.leb_le in H9. exact H9.
Qed.

Lemma append_empty_r (s : string) : (s ++ "")%string = s.
Proof. induction s as [|c s IH]; [reflexivity|]. cbn. rewrite IH. reflexivity. Qed.

(** The run of [parse ()] that ends in a syntax error: the parser [p] that
    the run has reached when it reports the error, its state and its
    lookahead, which comes right after the symbols shifted until then. *)
Lemma syntax_error_turn (ctx : EvalContext) (lx : lexer) (loc : location_type)
      (msg : string) (partial : list Token) :
  parse ctx lx = Rejected (ParseError SyntaxError loc msg) partial ->
  exists (n : nat) (p : parser) (w : list symbol_type),
    steps ctx n (initial lx) = inl p
    /\ step ctx p = inr (Rejected (ParseError SyntaxError loc msg) partial)
    /\ valid p
    /\ pending p w
    /\ tokens lx = shifts ctx n (initial lx) ++ w
    /\ eof (lex p) = eof lx
    /\ loc = sym_location (peek p)
    /\ msg = syntax_message (top_state p) (type_get (peek p))
    /\ valid_state (top_state p) = true
    /\ decide (top_state p) (type_get (peek p)) = Error
    /\ partial = expression p.
Proof.
  intros Hp.
  assert (Hnt : parse ctx lx <> Timeout) by (rewrite Hp; discriminate).
  destruct (run_steps ctx (fuel_for lx) (initial lx) (parse ctx lx) eq_refl Hnt)
    as [n0 [_ Hn0]].
  destruct (steps_last ctx n0 (initial lx) (parse ctx lx) Hn0) as [n [p [_ [Hn Hs]]]].
  rewrite Hp in Hs.
  pose proof (steps_valid ctx n (initial lx) p (valid_initial lx) Hn) as Hv.
  destruct (step_syntax_error ctx p loc msg partial Hv Hs)
    as [Hloc [Hmsg [Hst [Hd Hpart]]]].
  assert (Hpi : pending (initial lx) (tokens lx)) by reflexivity.
  destruct (shifts_text ctx n (initial lx) p (tokens lx) (valid_initial lx) Hpi Hn
              (rejected_not_final ctx p _ _ Hs)) as [w [Hpw [Hw Heof]]].
  exists n, p, w. repeat split; assumption.
Qed.

(** * The claims *)

(** C1.  Under either protocol family, a well-formed, well-lexed text that
    contains a keyword of a construct of the other family ([relay6] or
    [pkt6] under V4, [relay4] or [pkt4] under V6) is rejected with a
    semantic error, whichever construct the keyword opens, and nothing that
    belongs to the other family is in the program at that moment. *)
Theorem family_gate (ctx : EvalContext) (t : tree) (e : location_type) :
  wf_start t = true -> well_lexed t = true ->
  existsb (fun tok => foreign (getUniverse ctx) (type_get tok)) (yield t) = true ->
  exists err partial,
    parse ctx (mkLexer (yield t) e) = Rejected err partial
    /\ semantic err = true
    /\ Forall (fits_in ctx) partial.
Proof.
  intros Hwf Hlex Hkw. rewrite (parse_tree ctx t e Hwf). unfold compile.
  unfold wf_start in Hwf. apply andb_true_iff in Hwf. destruct Hwf as [Hroot Hwf].
  pose proof (text_mentions (getUniverse ctx) t _ Hwf Hkw) as Hm.
  pose proof (eval_sound ctx t _ [] Hwf Hlex) as Hs.
  pose proof (eval_fits ctx t [] (Forall_nil _)) as Hf.
  destruct t as [x|r kids].
  - exfalso. cbn in Hroot, Hwf. unfold yyntokens_ in Hwf. lia.
  - pose proof (eval_gated ctx (Node r kids) Hm []) as Hg.
    destruct (eval ctx (Node r kids) []) as [res|o].
    + exfalso. exact (Hg res eq_refl).
    + unfold sound in Hs. destruct o as [l|err partial| |]; try contradiction.
      exists err, partial. repeat split; assumption.
Qed.

Lemma family_gate_witness :
  exists err partial,
    parse (spec_context V4 no_names)
          (mkLexer (yield (bool_text relay6_exists)) (columns 28 28))
    = Rejected err partial
    /\ semantic err = true
    /\ Forall (fits_in (spec_context V4 no_names)) partial.
Proof.
  apply (family_gate (spec_context V4 no_names) (bool_text relay6_exists) (columns 28 28));
    vm_compute; reflexivity.
Defined.

(** C2 (counterexample).  [option[1].exists or option[2].exists and
    option[3].exists] and [(option[1].exists or option[2].exists) and
    option[3].exists] compile to different programs: in the first the
    conjunction is emitted before the disjunction. *)
Lemma or_and_grouping :
  let ctx := spec_context V4 no_names in
  let o1 := TokenOption 1 TokenOption.EXISTS in
  let o2 := TokenOption 2 TokenOption.EXISTS in
  let o3 := TokenOption 3 TokenOption.EXISTS in
  parse ctx (bool_input or_then_and (columns 58 58))
  = Accepted [o1; o2; o3; TokenAnd; TokenOr]
  /\ parse ctx (bool_input or_grouped_then_and (columns 60 60))
     = Accepted [o1; o2; TokenOr; o3; TokenAnd]
  /\ parse ctx (bool_input or_then_and (columns 58 58))
     <> parse ctx (bool_input or_grouped_then_and (columns 60 60)).
Proof.
  vm_compute. repeat split. discriminate.
Qed.

(** C2 (amended).  [not] binds tighter than [and], [and] binds tighter than
    [or], and both are left-associative.  For all operands [A], [B], [C]
    (boolean expressions that are no conjunction or disjunction themselves)
    with programs [pA], [pB], [pC]: [A or B and C] compiles like
    [A or (B and C)], to [pA pB pC and or]; [A and B or C] compiles to
    [pA pB and pC or]; [A and B and C] to [pA pB and pC and];
    [A or B or C] to [pA pB or pC or]; [not A and B] to [pA not pB and];
    and [not A or B] to [pA not pB or]. *)
Theorem and_binds_tighter_than_or (ctx : EvalContext) (A B C : tree)
        (pA pB pC : list Token) (l1 l2 l3 l4 e : location_type) :
  primary A = true -> primary B = true -> primary C = true ->
  program_of ctx A = Some pA -> program_of ctx B = Some pB ->
  program_of ctx C = Some pC ->
  parse ctx (bool_input (yield A ++ make token.OR l1
                         :: yield B ++ make token.AND l2 :: yield C) e)
  = Accepted (pA ++ pB ++ pC ++ [TokenAnd; TokenOr])
  /\ parse ctx (bool_input (yield A ++ make token.OR l1
                            :: make token.LPAREN l3
                            :: yield B ++ make token.AND l2
                            :: yield C ++ [make token.RPAREN l4]) e)
     = Accepted (pA ++ pB ++ pC ++ [TokenAnd; TokenOr])
  /\ parse ctx (bool_input (yield A ++ make token.AND l1
                            :: yield B ++ make token.OR l2 :: yield C) e)
     = Accepted (pA ++ pB ++ [TokenAnd] ++ pC ++ [TokenOr])
  /\ parse ctx (bool_input (yield A ++ make token.AND l1
                            :: yield B ++ make token.AND l2 :: yield C) e)
     = Accepted (pA ++ pB ++ [TokenAnd] ++ pC ++ [TokenAnd])
  /\ parse ctx (bool_input (yield A ++ make token.OR l1
                            :: yield B ++ make token.OR l2 :: yield C) e)
     = Accepted (pA ++ pB ++ [TokenOr] ++ pC ++ [TokenOr])
  /\ parse ctx (bool_input (make token.NOT l1
                            :: yield A ++ make token.AND l2 :: yield B) e)
     = Accepted (pA ++ [TokenNot] ++ pB ++ [TokenAnd])
  /\ parse ctx (bool_input (make token.NOT l1
                            :: yield A ++ make token.OR l2 :: yield B) e)
     = Accepted (pA ++ [TokenNot] ++ pB ++ [TokenOr]).
Proof.
  intros HA HB HC HpA HpB HpC.
  destruct (primary_facts A HA) as (RA & AA & OA & PA & EA & LA).
  destruct (primary_facts B HB) as (RB & AB & OB & PB & EB & LB).
  destruct (primary_facts C HC) as (RC & AC & OC & PC & EC & LC).
  repeat split.
  - pose (t := Node 10 [A; Leaf (make token.OR l1);
                        Node 9 [B; Leaf (make token.AND l2); C]]).
    assert (Hy : yield t = yield A ++ make token.OR l1
                           :: yield B ++ make token.AND l2 :: yield C).
    { cbn [t yield flat_map app]. rewrite !app_nil_r, <- ?app_assoc. reflexivity. }
    rewrite <- Hy. apply parse_bool.
    + reflexivity.
    + unfold t. open_wf. rewrite RA, RB, RC, !LA, !LB, !LC, OA, AB, EC.
      vm_compute. reflexivity.
    + unfold t.
      rewrite (program_or ctx A _ pA (pB ++ pC ++ [TokenAnd]) l1 HpA
                 (program_and ctx B C pB pC l2 HpB HpC)).
      rewrite <- !app_assoc. reflexivity.
  - pose (t := Node 10 [A; Leaf (make token.OR l1);
                        Node 7 [Leaf (make token.LPAREN l3);
                                Node 9 [B; Leaf (make token.AND l2); C];
                                Leaf (make token.RPAREN l4)]]).
    assert (Hy : yield t = yield A ++ make token.OR l1
                           :: make token.LPAREN l3
                           :: yield B ++ make token.AND l2
                           :: yield C ++ [make token.RPAREN l4]).
    { cbn [t yield flat_map app]. rewrite !app_nil_r, <- ?app_assoc.
      cbn [app]. rewrite <- ?app_assoc. reflexivity. }
    rewrite <- Hy. apply parse_bool.
    + reflexivity.
    + unfold t. open_wf. rewrite RA, RB, RC, !LA, !LB, !LC, OA, AB, PC.
      vm_compute. reflexivity.
    + unfold t.
      rewrite (program_or ctx A _ pA (pB ++ pC ++ [TokenAnd]) l1 HpA
                 (program_paren ctx _ _ l3 l4
                    (program_and ctx B C pB pC l2 HpB HpC))).
      rewrite <- !app_assoc. reflexivity.
  - pose (t := Node 10 [Node 9 [A; Leaf (make token.AND l1); B];
                        Leaf (make token.OR l2); C]).
    assert (Hy : yield t = yield A ++ make token.AND l1
                           :: yield B ++ make token.OR l2 :: yield C).
    { cbn [t yield flat_map app]. rewrite !app_nil_r, <- ?app_assoc.
      cbn [app]. rewrite <- ?app_assoc. reflexivity. }
    rewrite <- Hy. apply parse_bool.
    + reflexivity.
    + unfold t. open_wf. rewrite RA, RB, RC, !LA, !LB, !LC, AA, OB, EC.
      vm_compute. reflexivity.
    + unfold t.
      rewrite (program_or ctx _ C (pA ++ pB ++ [TokenAnd]) pC l2
                 (program_and ctx A B pA pB l1 HpA HpB) HpC).
      rewrite <- !app_assoc. reflexivity.
  - pose (t := Node 9 [Node 9 [A; Leaf (make token.AND l1); B];
                       Leaf (make token.AND l2); C]).
    assert (Hy : yield t = yield A ++ make token.AND l1
                           :: yield B ++ make token.AND l2 :: yield C).
    { cbn [t yield flat_map app]. rewrite !app_nil_r, <- ?app_assoc.
      cbn [app]. rewrite <- ?app_assoc. reflexivity. }
    rewrite <- Hy. apply parse_bool.
    + reflexivity.
    + unfold t. open_wf. rewrite RA, RB, RC, !LA, !LB, !LC, AA, AB, EC.
      vm_compute. reflexivity.
    + unfold t.
      rewrite (program_and ctx _ C (pA ++ pB ++ [TokenAnd]) pC l2
                 (program_and ctx A B pA pB l1 HpA HpB) HpC).
      rewrite <- !app_assoc. reflexivity.
  - pose (t := Node 10 [Node 10 [A; Leaf (make token.OR l1); B];
                        Leaf (make token.OR l2); C]).
    assert (Hy : yield t = yield A ++ make token.OR l1
                           :: yield B ++ make token.OR l2 :: yield C).
    { cbn [t yield flat_map app]. rewrite !app_nil_r, <- ?app_assoc.
      cbn [app]. rewrite <- ?app_assoc. reflexivity. }
    rewrite <- Hy. apply parse_bool.
    + reflexivity.
    + unfold t. open_wf. rewrite RA, RB, RC, !LA, !LB, !LC, OA, OB, EC.
      vm_compute. reflexivity.
    + unfold t.
      rewrite (program_or ctx _ C (pA ++ pB ++ [TokenOr]) pC l2
                 (program_or ctx A B pA pB l1 HpA HpB) HpC).
      rewrite <- !app_assoc. reflexivity.
  - pose (t := Node 9 [Node 8 [Leaf (make token.NOT l1); A];
                       Leaf (make token.AND l2); B]).
    assert (Hy : yield t = make token.NOT l1
                           :: yield A ++ make token.AND l2 :: yield B).
    { cbn [t yield flat_map app]. rewrite !app_nil_r, <- ?app_assoc.
      cbn [app]. rewrite <- ?app_assoc. reflexivity. }
    rewrite <- Hy. apply parse_bool.
    + reflexivity.
    + unfold t. open_wf. rewrite RA, RB, !LA, !LB, AA, EB.
      vm_compute. reflexivity.
    + unfold t.
      rewrite (program_and ctx _ B (pA ++ [TokenNot]) pB l2
                 (program_not ctx A pA l1 HpA) HpB).
      rewrite <- !app_assoc. reflexivity.
  - pose (t := Node 10 [Node 8 [Leaf (make token.NOT l1); A];
                        Leaf (make token.OR l2); B]).
    assert (Hy : yield t = make token.NOT l1
                           :: yield A ++ make token.OR l2 :: yield B).
    { cbn [t yield flat_map app]. rewrite !app_nil_r, <- ?app_assoc.
      cbn [app]. rewrite <- ?app_assoc. reflexivity. }
    rewrite <- Hy. apply parse_bool.
    + reflexivity.
    + unfold t. open_wf. rewrite RA, RB, !LA, !LB, OA, EB.
      vm_compute. reflexivity.
    + unfold t.
      rewrite (program_or ctx _ B (pA ++ [TokenNot]) pB l2
                 (program_not ctx A pA l1 HpA) HpB).
      rewrite <- !app_assoc. reflexivity.
Qed.

Lemma and_binds_tighter_than_or_witness :
  primary (option_exists "1" 1) = true
  /\ parse (spec_context V4 no_names) (bool_input or_then_and (columns 58 58))
     = Accepted ([TokenOption 1 TokenOption.EXISTS]
                 ++ [TokenOption 2 TokenOption.EXISTS]
                 ++ [TokenOption 3 TokenOption.EXISTS]
                 ++ [TokenAnd; TokenOr]).
Proof.
  split; [vm_compute; reflexivity|].
  apply (and_binds_tighter_than_or
           (spec_context V4 no_names)
           (option_exists "1" 1) (option_exists "2" 21) (option_exists "3" 42)
           [TokenOption 1 TokenOption.EXISTS]
           [TokenOption 2 TokenOption.EXISTS]
           [TokenOption 3 TokenOption.EXISTS]
           (columns 18 20) (columns 38 41) (columns 1 1) (columns 1 1)
           (columns 58 58));
    vm_compute; reflexivity.
Defined.

(** C3 (counterexample).  Not every reduction appends a token: while
    [option[1].text] is parsed, the ninth turn of the loop reduces
    [option_repr_type := "text"] (rule 39) and leaves the program empty. *)
Lemma reduction_without_token :
  exists p p',
    steps (spec_context V4 no_names) 8
          (initial (mkLexer (yield (string_text option_text)) (columns 15 15)))
    = inl p
    /\ decide (top_state p) (type_get (peek p)) = Reduce 39
    /\ step (spec_context V4 no_names) p = inl p'
    /\ expression p = []
    /\ expression p' = [].
Proof.
  eexists. eexists. split; [vm_compute; reflexivity|].
  split; [vm_compute; reflexivity|].
  split; [vm_compute; reflexivity|].
  split; reflexivity.
Qed.

(** C3 (amended).  Every reduction appends at most one token, at the end of
    the program: the rules that build an operator, an operand or a literal
    (rules 8 to 35 and 61 to 63) append exactly one, the wrappers and the
    rules that only compute a value (rules 1 to 7 and 36 to 60) none. *)
Theorem reduction_appends_at_most_one (ctx : EvalContext) (r : Z) (p p' : parser) :
  yyreduce ctx r p = inl p' ->
  if appends_token r
  then exists t, expression p' = expression p ++ [t]
  else expression p' = expression p.
Proof.
  intros H. destruct (yyreduce_expression ctx r p p' H) as [l [Hl [Hone _]]].
  destruct (appends_token r).
  - destruct Hone as [t ->]. exists t. exact Hl.
  - subst l. rewrite app_nil_r in Hl. exact Hl.
Qed.

Lemma reduction_appends_at_most_one_witness :
  exists p',
    yyreduce (spec_context V4 no_names) 18
             (mkParser [mkStackSymbol 16 (v_string "abc") (columns 1 6);
                        mkStackSymbol 2 v_none (columns 1 1);
                        mkStackSymbol 0 v_none location0]
                       None (mkLexer [] (columns 6 6)) [])
    = inl p'
    /\ exists t, expression p' = [] ++ [t].
Proof.
  eexists. split; [vm_compute; reflexivity|].
  apply (reduction_appends_at_most_one (spec_context V4 no_names) 18
           (mkParser [mkStackSymbol 16 (v_string "abc") (columns 1 6);
                      mkStackSymbol 2 v_none (columns 1 1);
                      mkStackSymbol 0 v_none location0]
                     None (mkLexer [] (columns 6 6)) [])).
  vm_compute. reflexivity.
Defined.

(** C4 (counterexample).  The text [)] is a syntax error in state 1, which
    has sixteen terminals to offer; the message is "syntax error,
    unexpected )", not the bare "syntax error". *)
Lemma syntax_error_fallback_message :
  parse (spec_context V4 no_names) (mkLexer stray_paren (columns 2 2))
  = Rejected (ParseError SyntaxError (columns 1 2) "syntax error, unexpected )") []
  /\ List.length (expected 1) = 16%nat
  /\ "syntax error, unexpected )" <> "syntax error".
Proof.
  split; [vm_compute; reflexivity|]. split; [vm_compute; reflexivity|discriminate].
Qed.

(** C4 (amended).  When [parse ()] ends in a syntax error, it has reached,
    after some [n] turns of its loop, a parser [p] whose turn throws that
    error; the lookahead of [p] is the symbol of the text (the end of the
    file, after the text) that comes right after the symbols shifted in
    those turns, the state on top of the stack of [p] has no action for it,
    and the error is located at that symbol.  The terminals that would have
    been accepted are those that this state shifts.  When they are at most
    five, they are in fact one to four, and the message is "syntax error,
    unexpected T, expecting A or B ..." with all of them; when they are
    more, they are at least nine, and the message is "syntax error,
    unexpected T" and lists none. *)
Theorem syntax_error_report (ctx : EvalContext) (lx : lexer) (loc : location_type)
        (msg : string) (partial : list Token) :
  parse ctx lx = Rejected (ParseError SyntaxError loc msg) partial ->
  exists (n : nat) (p : parser) (rest : list symbol_type),
    steps ctx n (initial lx) = inl p
    /\ step ctx p = inr (Rejected (ParseError SyntaxError loc msg) partial)
    /\ tokens lx ++ [eof_symbol lx] = shifts ctx n (initial lx) ++ peek p :: rest
    /\ decide (top_state p) (type_get (peek p)) = Error
    /\ loc = sym_location (peek p)
    /\ (forall x, In x (expected (top_state p))
                  <-> 0 <= x < yyntokens_
                      /\ exists s', decide (top_state p) x = Shift s')
    /\ ((List.length (expected (top_state p)) <= 5)%nat ->
        (1 <= List.length (expected (top_state p)) <= 4)%nat
        /\ msg = ("syntax error, unexpected " ++ symbol_name (type_get (peek p))
                  ++ ", expecting "
                  ++ join_or (map symbol_name (expected (top_state p))))%string)
    /\ ((5 < List.length (expected (top_state p)))%nat ->
        (9 <= List.length (expected (top_state p)))%nat
        /\ msg = ("syntax error, unexpected "
                  ++ symbol_name (type_get (peek p)))%string).
Proof.
  intros H.
  destruct (syntax_error_turn ctx lx loc msg partial H)
    as [n [p [w [Hn [Hs [_ [Hpw [Hw [Heof [Hloc [Hmsg [Hst [Hd _]]]]]]]]]]]]].
  destruct (pending_peek p w Hpw) as [rest Hrest].
  exists n, p, rest.
  split; [exact Hn|]. split; [exact Hs|].
  split.
  { rewrite Hw, <- app_assoc. f_equal. rewrite <- Hrest.
    unfold eof_symbol. rewrite Heof. reflexivity. }
  split; [exact Hd|]. split; [exact Hloc|].
  split; [intros x; apply expected_decide; exact Hst|].
  pose proof (expected_count (top_state p) (type_get (peek p)) Hst Hd) as Hc.
  unfold syntax_message in Hmsg. rewrite length_map in Hmsg.
  split; intros Hlen.
  - assert (Hin : (1 <= List.length (expected (top_state p)) <= 4)%nat) by lia.
    split; [exact Hin|]. rewrite Hmsg.
    replace (Nat.leb 1 (List.length (expected (top_state p)))) with true
      by (symmetry; apply Nat.leb_le; lia).
    replace (Nat.leb (List.length (expected (top_state p))) 4) with true
      by (symmetry; apply Nat.leb_le; lia).
    reflexivity.
  - assert (Hin : (9 <= List.length (expected (top_state p)))%nat) by lia.
    split; [exact Hin|]. rewrite Hmsg.
    replace (Nat.leb (List.length (expected (top_state p))) 4) with false
      by (symmetry; apply Nat.leb_gt; lia).
    rewrite andb_false_r, append_empty_r. reflexivity.
Qed.

Lemma syntax_error_report_witness :
  exists (n : nat) (p : parser) (rest : list symbol_type),
    steps (spec_context V4 no_names) n
          (initial (bool_input vendor_without_id (columns 16 16))) = inl p
    /\ step (spec_context V4 no_names) p
       = inr (Rejected (ParseError SyntaxError (columns 8 9)
                          "syntax error, unexpected ], expecting * or integer") [])
    /\ tokens (bool_input vendor_without_id (columns 16 16))
       ++ [eof_symbol (bool_input vendor_without_id (columns 16 16))]
       = shifts (spec_context V4 no_names) n
                (initial (bool_input vendor_without_id (columns 16 16)))
         ++ peek p :: rest
    /\ decide (top_state p) (type_get (peek p)) = Error
    /\ columns 8 9 = sym_location (peek p)
    /\ (forall x, In x (expected (top_state p))
                  <-> 0 <= x < yyntokens_
                      /\ exists s', decide (top_state p) x = Shift s')
    /\ ((List.length (expected (top_state p)) <= 5)%nat ->
        (1 <= List.length (expected (top_state p)) <= 4)%nat
        /\ "syntax error, unexpected ], expecting * or integer"
           = ("syntax error, unexpected " ++ symbol_name (type_get (peek p))
              ++ ", expecting "
              ++ join_or (map symbol_name (expected (top_state p))))%string)
    /\ ((5 < List.length (expected (top_state p)))%nat ->
        (9 <= List.length (expected (top_state p)))%nat
        /\ "syntax error, unexpected ], expecting * or integer"
           = ("syntax error, unexpected "
              ++ symbol_name (type_get (peek p)))%string).
Proof.
  apply (syntax_error_report (spec_context V4 no_names)
           (bool_input vendor_without_id (columns 16 16)) (columns 8 9)
           "syntax error, unexpected ], expecting * or integer" []).
  vm_compute. reflexivity.
Defined.

(** C5.  For every string expression [E] and integer literal [n], the text
    [substring(E, n, all)] compiles to the program of [E] followed by a
    string constant with the text of [n], a string constant ["all"], and
    the substring token: start and length travel as text, and the keyword
    [all] as the string ["all"]. *)
Theorem substring_all (ctx : EvalContext) (E : tree) (n : string)
        (program_E : list Token) (l1 l2 l3 l4 l5 l6 l7 e : location_type) :
  root E = 57 -> wf token.COMA E = true ->
  program_of ctx E = Some program_E ->
  parse ctx
        (mkLexer (make token.TOPLEVEL_STRING (columns 1 1)
                  :: make token.SUBSTRING l1 :: make token.LPAREN l2
                  :: yield E
                  ++ [make token.COMA l3; make_literal token.INTEGER n l4;
                      make token.COMA l5; make token.ALL l6;
                      make token.RPAREN l7]) e)
  = Accepted (program_E ++ [TokenString n; TokenString "all"; TokenSubstring]).
Proof.
  intros Hroot Hwf HE.
  pose (t := string_text
               (Node 28 [Leaf (make token.SUBSTRING l1); Leaf (make token.LPAREN l2); E;
                         Leaf (make token.COMA l3);
                         Node 61 [Leaf (make_literal token.INTEGER n l4)];
                         Leaf (make token.COMA l5);
                         Node 63 [Leaf (make token.ALL l6)];
                         Leaf (make token.RPAREN l7)])).
  assert (Hy : yield t
               = make token.TOPLEVEL_STRING (columns 1 1)
                 :: make token.SUBSTRING l1 :: make token.LPAREN l2
                 :: yield E
                 ++ [make token.COMA l3; make_literal token.INTEGER n l4;
                     make token.COMA l5; make token.ALL l6; make token.RPAREN l7]).
  { cbn [t string_text yield flat_map app]. rewrite !app_nil_r. reflexivity. }
  rewrite <- Hy. rewrite parse_tree.
  - unfold compile, t, string_text. unfold program_of in HE.
    cbn [eval eval_kids].
    destruct (eval ctx E []) as [[sym pE]|o] eqn:HevE; [|discriminate].
    injection HE as ->.
    run_eval. rewrite <- !app_assoc. reflexivity.
  - unfold wf_start, t, string_text.
    cbn [root wf wf_kids first_type flat_map yield app map type_get make make_literal].
    rewrite Hroot, (allowed_plain 28 2 E eq_refl). rewrite Hwf.
    vm_compute. reflexivity.
Qed.

Lemma substring_all_witness :
  parse (spec_context V4 no_names)
        (mkLexer (make token.TOPLEVEL_STRING (columns 1 1)
                  :: make token.SUBSTRING (columns 1 10) :: make token.LPAREN (columns 10 11)
                  :: yield string_abc
                  ++ [make token.COMA (columns 16 17);
                      make_literal token.INTEGER "0" (columns 17 18);
                      make token.COMA (columns 18 19); make token.ALL (columns 19 22);
                      make token.RPAREN (columns 22 23)]) (columns 23 23))
  = Accepted ([TokenString "abc"] ++ [TokenString "0"; TokenString "all"; TokenSubstring]).
Proof.
  apply (substring_all (spec_context V4 no_names) string_abc "0" [TokenString "abc"]);
    vm_compute; reflexivity.
Defined.

(** C6.  For every enterprise id [E] denoting the number [id], the text
    [vendor-class[E].data] compiles to the single vendor-class token in
    [DATA] mode with index 0, and [vendor-class[E].data[n]] compiles to the
    vendor-class token in [DATA] mode whose index is the value that
    [convertUint8] gives for [n], or is rejected with a conversion error at
    the location of [n] when [convertUint8] refuses it.  In a context after
    the spec [convertUint8] refuses exactly the literals outside 0..255. *)
Theorem vendor_class_data (ctx : EvalContext) (E : tree) (id : Z) (n : string)
        (l1 l2 l3 l4 l5 l6 l7 l8 e : location_type) :
  root E = 63 -> wf token.RBRACKET E = true ->
  enterprise ctx E = Some id ->
  parse ctx
        (mkLexer (make token.TOPLEVEL_STRING (columns 1 1)
                  :: make token.VENDOR_CLASS l1 :: make token.LBRACKET l2
                  :: yield E
                  ++ [make token.RBRACKET l3; make token.DOT l4;
                      make token.DATA l5]) e)
  = Accepted [TokenVendorClassField (getUniverse ctx) id TokenVendor.DATA (Some 0)]
  /\ parse ctx
           (mkLexer (make token.TOPLEVEL_STRING (columns 1 1)
                     :: make token.VENDOR_CLASS l1 :: make token.LBRACKET l2
                     :: yield E
                     ++ [make token.RBRACKET l3; make token.DOT l4;
                         make token.DATA l5; make token.LBRACKET l6;
                         make_literal token.INTEGER n l7;
                         make token.RBRACKET l8]) e)
     = match convertUint8 ctx n l7 with
       | Some index =>
           Accepted [TokenVendorClassField (getUniverse ctx) id TokenVendor.DATA
                                           (Some index)]
       | None => Rejected (ConversionError l7 n) []
       end
  /\ (forall u registry i,
         ctx = spec_context u registry -> decimal n = Some i ->
         convertUint8 ctx n l7
         = if (0 <=? i) && (i <? 256) then Some i else None).
Proof.
  intros Hroot Hwf HE.
  unfold enterprise in HE.
  destruct (eval ctx E []) as [[[st v lE] pE]|o] eqn:HevE; [|discriminate].
  destruct pE; [|discriminate].
  cbn [value] in HE. destruct v; try discriminate. injection HE as ->.
  split; [|split].
  - pose (t := string_text
                 (Node 33 [Leaf (make token.VENDOR_CLASS l1);
                           Leaf (make token.LBRACKET l2); E;
                           Leaf (make token.RBRACKET l3);
                           Leaf (make token.DOT l4);
                           Leaf (make token.DATA l5)])).
    assert (Hy : yield t
                 = make token.TOPLEVEL_STRING (columns 1 1)
                   :: make token.VENDOR_CLASS l1 :: make token.LBRACKET l2
                   :: yield E
                   ++ [make token.RBRACKET l3; make token.DOT l4;
                       make token.DATA l5]).
    { cbn [t string_text yield flat_map app]. rewrite !app_nil_r. reflexivity. }
    rewrite <- Hy. rewrite parse_tree.
    + unfold compile, t, string_text. cbn [eval eval_kids]. rewrite HevE.
      run_eval. reflexivity.
    + unfold wf_start, t, string_text.
      cbn [root wf wf_kids first_type flat_map yield app map type_get make].
      rewrite Hroot, (allowed_plain 33 2 E eq_refl). rewrite Hwf.
      vm_compute. reflexivity.
  - pose (t := string_text
                 (Node 34 [Leaf (make token.VENDOR_CLASS l1);
                           Leaf (make token.LBRACKET l2); E;
                           Leaf (make token.RBRACKET l3);
                           Leaf (make token.DOT l4);
                           Leaf (make token.DATA l5);
                           Leaf (make token.LBRACKET l6);
                           Leaf (make_literal token.INTEGER n l7);
                           Leaf (make token.RBRACKET l8)])).
    assert (Hy : yield t
                 = make token.TOPLEVEL_STRING (columns 1 1)
                   :: make token.VENDOR_CLASS l1 :: make token.LBRACKET l2
                   :: yield E
                   ++ [make token.RBRACKET l3; make token.DOT l4;
                       make token.DATA l5; make token.LBRACKET l6;
                       make_literal token.INTEGER n l7;
                       make token.RBRACKET l8]).
    { cbn [t string_text yield flat_map app]. rewrite !app_nil_r. reflexivity. }
    rewrite <- Hy. rewrite parse_tree.
    + unfold compile, t, string_text. cbn [eval eval_kids]. rewrite HevE.
      run_eval. unfold convert.
      destruct (convertUint8 ctx n l7); cbn; reflexivity.
    + unfold wf_start, t, string_text.
      cbn [root wf wf_kids first_type flat_map yield app map type_get make
                make_literal].
      rewrite Hroot, (allowed_plain 34 2 E eq_refl). rewrite Hwf.
      vm_compute. reflexivity.
  - intros u registry i -> Hi.
    cbn [convertUint8 spec_context]. unfold convert_unsigned. rewrite Hi.
    reflexivity.
Qed.

Lemma vendor_class_data_witness :
  parse (spec_context V6 no_names)
        (mkLexer (make token.TOPLEVEL_STRING (columns 1 1)
                  :: make token.VENDOR_CLASS (columns 1 13)
                  :: make token.LBRACKET (columns 13 14)
                  :: yield enterprise_4491
                  ++ [make token.RBRACKET (columns 18 19);
                      make token.DOT (columns 19 20);
                      make token.DATA (columns 20 24)]) (columns 24 24))
  = Accepted [TokenVendorClassField V6 4491 TokenVendor.DATA (Some 0)].
Proof.
  apply (vendor_class_data (spec_context V6 no_names) enterprise_4491 4491 "3"
           (columns 1 13) (columns 13 14) (columns 18 19) (columns 19 20)
           (columns 20 24) (columns 24 25) (columns 25 26) (columns 26 27)
           (columns 24 24));
    vm_compute; reflexivity.
Defined.

(** C7 (counterexample).  [vendor[].exists], with nothing between the
    brackets, is a syntax error at the closing bracket. *)
Lemma empty_enterprise_id_rejected :
  parse (spec_context V4 no_names) (bool_input vendor_without_id (columns 16 16))
  = Rejected (ParseError SyntaxError (columns 8 9)
                         "syntax error, unexpected ], expecting * or integer") [].
Proof. vm_compute. reflexivity. Qed.

(** C7 (amended).  The enterprise id of a vendor or vendor-class construct
    is exactly one token, an integer or [*], and never empty.  An integer
    [n] denotes the value that [convertUint32] gives for it, and is rejected
    with a conversion error when [convertUint32] refuses it; [*] denotes 0.
    So [vendor[n].exists] compiles to the vendor token of that value,
    [vendor[*].exists] to the vendor token of enterprise 0, and
    [vendor[].exists] is a syntax error at the closing bracket. *)
Theorem enterprise_id_integer_or_star (ctx : EvalContext) (E : tree) (la : Z)
        (l1 l2 l3 l4 l5 e : location_type) :
  root E = 63 -> wf la E = true -> well_lexed E = true ->
  (exists x,
      yield E = [x]
      /\ ((type_get x = token.INTEGER
           /\ exists n,
               sym_value x = v_string n
               /\ enterprise ctx E = convertUint32 ctx n (sym_location x)
               /\ parse ctx
                        (bool_input (make token.VENDOR l1 :: make token.LBRACKET l2
                                     :: yield E
                                     ++ [make token.RBRACKET l3; make token.DOT l4;
                                         make token.EXISTS l5]) e)
                  = match convertUint32 ctx n (sym_location x) with
                    | Some id =>
                        Accepted [TokenVendorRepr (getUniverse ctx) id
                                                  TokenOption.EXISTS None]
                    | None => Rejected (ConversionError (sym_location x) n) []
                    end)
          \/ (type_get x = token.ANY
              /\ enterprise ctx E = Some 0
              /\ parse ctx
                       (bool_input (make token.VENDOR l1 :: make token.LBRACKET l2
                                    :: yield E
                                    ++ [make token.RBRACKET l3; make token.DOT l4;
                                        make token.EXISTS l5]) e)
                 = Accepted [TokenVendorRepr (getUniverse ctx) 0
                                             TokenOption.EXISTS None])))
  /\ parse ctx
           (bool_input [make token.VENDOR l1; make token.LBRACKET l2;
                        make token.RBRACKET l3; make token.DOT l4;
                        make token.EXISTS l5] e)
     = Rejected (ParseError SyntaxError l3
                            "syntax error, unexpected ], expecting * or integer") [].
Proof.
  intros Hroot Hwf Hlex. split; [|vm_compute; reflexivity].
  destruct (enterprise_id_shape la E Hroot Hwf) as [x [[-> Hx]|[-> Hx]]];
    exists x; (split; [reflexivity|]);
    destruct x as [ty v [b f]]; cbn [type_get] in Hx; subst ty.
  - left. split; [reflexivity|].
    cbn in Hlex. destruct v; try discriminate.
    exists s. split; [reflexivity|].
    cbn [sym_value sym_location].
    split.
    + unfold enterprise. cbn [eval eval_kids]. run_eval. unfold convert.
      destruct (convertUint32 ctx s (mkLocation b f)); reflexivity.
    + pose (t := bool_text
                   (Node 16 [Leaf (make token.VENDOR l1);
                             Leaf (make token.LBRACKET l2);
                             Node 46 [Leaf (mkSymbol token.INTEGER (v_string s)
                                                     (mkLocation b f))];
                             Leaf (make token.RBRACKET l3);
                             Leaf (make token.DOT l4);
                             Leaf (make token.EXISTS l5)])).
      change (parse ctx (mkLexer (yield t) e)
              = match convertUint32 ctx s (mkLocation b f) with
                | Some id =>
                    Accepted [TokenVendorRepr (getUniverse ctx) id
                                              TokenOption.EXISTS None]
                | None => Rejected (ConversionError (mkLocation b f) s) []
                end).
      rewrite parse_tree; [|vm_compute; reflexivity].
      unfold compile, t, bool_text. cbn [eval eval_kids]. run_eval.
      unfold convert.
      destruct (convertUint32 ctx s (mkLocation b f)); reflexivity.
  - right. split; [reflexivity|]. split.
    + unfold enterprise. cbn [eval eval_kids]. run_eval. reflexivity.
    + pose (t := bool_text
                   (Node 16 [Leaf (make token.VENDOR l1);
                             Leaf (make token.LBRACKET l2);
                             Node 47 [Leaf (mkSymbol token.ANY v (mkLocation b f))];
                             Leaf (make token.RBRACKET l3);
                             Leaf (make token.DOT l4);
                             Leaf (make token.EXISTS l5)])).
      change (parse ctx (mkLexer (yield t) e)
              = Accepted [TokenVendorRepr (getUniverse ctx) 0
                                          TokenOption.EXISTS None]).
      rewrite parse_tree; [|vm_compute; reflexivity].
      unfold compile, t, bool_text. cbn [eval eval_kids]. run_eval.
      reflexivity.
Qed.

Lemma enterprise_id_integer_or_star_witness :
  parse (spec_context V4 no_names)
        (bool_input [make token.VENDOR (columns 1 7);
                     make token.LBRACKET (columns 7 8);
                     make token.RBRACKET (columns 8 9);
                     make token.DOT (columns 9 10);
                     make token.EXISTS (columns 10 16)] (columns 16 16))
  = Rejected (ParseError SyntaxError (columns 8 9)
                         "syntax error, unexpected ], expecting * or integer") [].
Proof.
  apply (enterprise_id_integer_or_star
           (spec_context V4 no_names) enterprise_4491 token.RBRACKET
           (columns 1 7) (columns 7 8) (columns 8 9) (columns 9 10)
           (columns 10 16) (columns 16 16));
    vm_compute; reflexivity.
Defined.

(** C8 (counterexample).  Under V6 the text [relay4[1].exists] is rejected
    at the span of the keyword with the message "relay4 can only be used in
    DHCPv4.", which is not the message "relay4/pkt4 can only be used in
    DHCPv4." *)
Lemma relay4_message_text :
  parse (spec_context V6 no_names)
        (mkLexer (yield (bool_text relay4_exists)) (columns 17 17))
  = Rejected (ParseError SemanticError (columns 1 7)
                         "relay4 can only be used in DHCPv4.") []
  /\ "relay4 can only be used in DHCPv4." <> "relay4/pkt4 can only be used in DHCPv4.".
Proof.
  split; [vm_compute; reflexivity|discriminate].
Qed.

(** C8 (amended).  Whenever the parser completes a relay4 or pkt4 construct
    while the family of the context is V6, the parse is rejected with a
    semantic error located at the keyword that opens the construct, the
    deepest of the reduced symbols; the message is "relay4 can only be used
    in DHCPv4." for the relay4 constructs (rules 13 and 22) and "pkt4 can
    only be used in DHCPv4." for the pkt4 construct (rule 25).  The program
    is left as it was. *)
Theorem family_mismatch_report (ctx : EvalContext) (r : Z) (p : parser) :
  getUniverse ctx = V6 -> v4_only r = true ->
  (Z.to_nat yyr2_.[r] < List.length (yystack_ p))%nat ->
  exists kw,
    nth_error (yystack_ p) (Z.to_nat yyr2_.[r] - 1) = Some kw
    /\ yyreduce ctx r p
       = inr (Rejected (ParseError SemanticError (location kw)
                          (if r =? 25 then "pkt4 can only be used in DHCPv4."
                           else "relay4 can only be used in DHCPv4."))
                       (expression p)).
Proof.
  intros Hu Hr Hlen. unfold v4_only in Hr.
  assert (Hcases : r = 13 \/ r = 22 \/ r = 25) by lia.
  unfold yyreduce, YYLLOC_DEFAULT, location_at, stack_at, action.
  destruct Hcases as [-> | [-> | ->]]; rewrite Hu;
    (match type of Hlen with
     | (?n < _)%nat => let n' := eval vm_compute in n in change n with n' in Hlen |- *
     end);
    destruct (yystack_ p) as [|e0 [|e1 [|e2 [|e3 [|e4 [|e5 [|e6 st]]]]]]];
    cbn in Hlen; try lia; cbn; eexists; (split; [reflexivity|reflexivity]).
Qed.

Lemma family_mismatch_report_witness :
  exists kw,
    nth_error relay4_stack 5 = Some kw
    /\ yyreduce (spec_context V6 no_names) 13
                (mkParser relay4_stack None (mkLexer [] (columns 17 17)) [])
       = inr (Rejected (ParseError SemanticError (location kw)
                          "relay4 can only be used in DHCPv4.") []).
Proof.
  apply (family_mismatch_report (spec_context V6 no_names) 13
           (mkParser relay4_stack None (mkLexer [] (columns 17 17)) []));
    vm_compute; try reflexivity; lia.
Defined.

(** C9.  The program only grows at its end: after any number [n] of turns
    of the parser loop, [ctx.expression] is what it was before, in the same
    order, followed by at most [n] new tokens. *)
Theorem program_append_only (ctx : EvalContext) (n : nat) (p p' : parser) :
  steps ctx n p = inl p' ->
  exists l, expression p' = expression p ++ l /\ (List.length l <= n)%nat.
Proof.
  revert p. induction n as [|n IH]; intros p H; cbn [steps] in H.
  - injection H as <-. exists []. rewrite app_nil_r. split; [reflexivity|cbn; lia].
  - destruct (step ctx p) as [p1|o] eqn:Hs; [|discriminate].
    destruct (step_expression ctx p p1 Hs) as [l1 [H1 Hl1]].
    destruct (IH p1 H) as [l2 [H2 Hl2]].
    exists (l1 ++ l2). rewrite H2, H1, app_assoc. split; [reflexivity|].
    rewrite length_app. lia.
Qed.

Lemma program_append_only_witness :
  exists p',
    steps (spec_context V4 no_names) 12
          (initial (mkLexer (yield (string_text option_text)) (columns 15 15)))
    = inl p'
    /\ exists l, expression p' = [] ++ l /\ (List.length l <= 12)%nat.
Proof.
  eexists. split; [vm_compute; reflexivity|].
  apply (program_append_only (spec_context V4 no_names) 12
           (initial (mkLexer (yield (string_text option_text)) (columns 15 15)))).
  vm_compute. reflexivity.
Defined.

(** C10.  No vendor or vendor-class rule is gated on the protocol family:
    whatever the context is, under V4 as under V6, when the parser completes
    such a construct whose symbols carry their values, the reduction goes
    through and appends exactly one token, of class [TokenVendorClass] for a
    vendor-class construct and of class [TokenVendor] for a vendor
    construct, that stores the universe of the context.  The only reduction
    that may be refused is that of [vendor-class[...].data[N]], and only
    because the conversion of the context refuses the literal [N]. *)
Theorem vendor_not_gated (ctx : EvalContext) (r : Z) (p : parser)
        (es : list stack_symbol_type) (below : stack_symbol_type)
        (st : list stack_symbol_type) :
  vendor_rule r = true -> typed_stack r es = true ->
  yystack_ p = es ++ below :: st ->
  (exists p' tok,
      yyreduce ctx r p = inl p'
      /\ expression p' = expression p ++ [tok]
      /\ (if vendor_class_rule r then vendor_class_universe tok
          else vendor_universe tok) = Some (getUniverse ctx))
  \/ (r = 34
      /\ exists e literal,
           nth_error es 1 = Some e /\ value e = v_string literal
           /\ convertUint8 ctx literal (location e) = None
           /\ yyreduce ctx r p
              = inr (Rejected (ConversionError (location e) literal) (expression p))).
Proof.
  intros Hr Hty Hst.
  assert (Hlen : List.length es = Z.to_nat yyr2_.[r] /\ 2 <= r <= 63).
  { unfold typed_stack in Hty. apply andb_true_iff in Hty. destruct Hty as [Hl _].
    apply Nat.eqb_eq in Hl. unfold vendor_rule in Hr.
    assert (H2 : 2 <= r <= 63) by lia. split; [|exact H2].
    rewrite Hl. apply (rule_shape r H2). }
  destruct Hlen as [Hlen Hrng].
  apply typed_stack_Forall2 in Hty.
  unfold yyreduce. rewrite Hst, <- Hlen, stack_at_length. cbn [bind].
  rewrite Hlen.
  rewrite (YYLLOC_DEFAULT_strip es (below :: st) _ Hlen) by (apply (rule_shape r Hrng)).
  rewrite (action_strip ctx r es (below :: st) (expression p) Hrng Hlen).
  unfold vendor_rule in Hr.
  assert (Hcases : r = 15 \/ r = 16 \/ r = 17 \/ r = 30 \/ r = 31 \/ r = 32
                   \/ r = 33 \/ r = 34) by lia.
  clear Hr Hrng Hst.
  repeat (destruct Hcases as [-> | Hcases]); try subst r;
    (match type of Hty with
     | Forall2 _ ?l _ => let l' := eval vm_compute in l in change l with l' in Hty
     end);
    open_typed Hty; clear Hlen;
    (match goal with
     | |- context [Z.to_nat yyr2_.[?r]] =>
         let n := eval vm_compute in (Z.to_nat yyr2_.[r]) in
         change (Z.to_nat yyr2_.[r]) with n
     end);
    unfold YYLLOC_DEFAULT, location_at, stack_at, action, value_at, push_back, convert;
    cbn;
    try (left; eexists; eexists; split; [reflexivity|]; split; reflexivity).
  match goal with
  | |- context [convertUint8 ctx ?s ?l] => destruct (convertUint8 ctx s l) eqn:Hc
  end; cbn.
  - left. eexists. eexists. split; [reflexivity|]. split; reflexivity.
  - right. split; [reflexivity|]. eexists. eexists.
    split; [reflexivity|]. split; [reflexivity|]. split; [exact Hc|reflexivity].
Qed.

Lemma vendor_not_gated_witness :
  (exists p' tok,
      yyreduce (spec_context V6 no_names) 16
               (mkParser (vendor_exists_symbols
                          ++ mkStackSymbol 1 v_none (columns 1 1)
                          :: [mkStackSymbol 0 v_none location0])
                         None (mkLexer [] (columns 19 19)) [])
      = inl p'
      /\ expression p' = [] ++ [tok]
      /\ (if vendor_class_rule 16 then vendor_class_universe tok
          else vendor_universe tok) = Some V6)
  \/ (16 = 34
      /\ exists e literal,
           nth_error vendor_exists_symbols 1 = Some e /\ value e = v_string literal
           /\ convertUint8 (spec_context V6 no_names) literal (location e) = None
           /\ yyreduce (spec_context V6 no_names) 16
                       (mkParser (vendor_exists_symbols
                                  ++ mkStackSymbol 1 v_none (columns 1 1)
                                  :: [mkStackSymbol 0 v_none location0])
                                 None (mkLexer [] (columns 19 19)) [])
              = inr (Rejected (ConversionError (location e) literal) [])).
Proof.
  apply (vendor_not_gated (spec_context V6 no_names) 16
           (mkParser (vendor_exists_symbols
                      ++ mkStackSymbol 1 v_none (columns 1 1)
                      :: [mkStackSymbol 0 v_none location0])
                     None (mkLexer [] (columns 19 19)) [])
           vendor_exists_symbols (mkStackSymbol 1 v_none (columns 1 1))
           [mkStackSymbol 0 v_none location0]);
    vm_compute; reflexivity.
Defined.

(** * The parser builds parse trees *)

(** ** The tables, read backwards *)

Lemma backwards_ok :
  forallb (fun s => spine_ok s && decisions_ok s && begin_ok s && permits_ok s) states
  = true.
Proof. vm_compute. reflexivity. Qed.

Lemma accept_ok_holds : accept_ok = true.
Proof. vm_compute. reflexivity. Qed.

Lemma state_backwards (s : Z) :
  valid_state s = true ->
  spine_ok s = true /\ decisions_ok s = true /\ begin_ok s = true
  /\ permits_ok s = true.
Proof.
  intros Hs. pose proof (forall_states _ backwards_ok s Hs) as H. cbv beta in H.
  apply andb_true_iff in H. destruct H as [H H4].
  apply andb_true_iff in H. destruct H as [H H3].
  apply andb_true_iff in H. tauto.
Qed.

(** What [decide] returns on a terminal. *)
Lemma decide_terminal (s la : Z) :
  valid_state s = true -> 0 <= la < yyntokens_ ->
  match decide s la with
  | Shift s' => yystos_.[s'] = la
  | Reduce r => yydefact_.[s] = r /\ follow_ok r la = true
  | Error => True
  end.
Proof.
  intros Hs Hla. destruct (state_backwards s Hs) as [_ [Hd _]].
  unfold decisions_ok in Hd. rewrite forallb_forall in Hd.
  specialize (Hd la (proj2 (Zrange_In 0 yyntokens_ la) Hla)).
  destruct (decide s la) as [s'|r|]; [apply Z.eqb_eq; exact Hd| |exact I].
  apply andb_true_iff in Hd. destruct Hd as [Hd Hf]. apply Z.eqb_eq in Hd.
  split; assumption.
Qed.

(** ** Forests *)

Lemma first_type_app (a b : list tree) (la : Z) :
  first_type (a ++ b) la = first_type a (first_type b la).
Proof.
  unfold first_type. rewrite flat_map_app.
  destruct (flat_map yield a); reflexivity.
Qed.

Lemma ending_app (s : Z) (es1 es2 : list stack_symbol_type) :
  ending s (es1 ++ es2) = ending (ending s es1) es2.
Proof. unfold ending. apply fold_left_app. Qed.

Lemma grown_cons (s la : Z) (e : stack_symbol_type) (es : list stack_symbol_type)
      (t : tree) (ts : list tree) :
  grown s la (e :: es) (t :: ts) = true <->
  valid_state (state e) = true /\ yystos_.[state e] = root t
  /\ trans s (root t) = Some (state e) /\ starts s t = true
  /\ wf (first_type ts la) t = true /\ carries (root t) (value e) = true
  /\ grown (state e) la es ts = true.
Proof.
  cbn [grown]. rewrite !andb_true_iff, Z.eqb_eq.
  destruct (trans s (root t)) as [s'|].
  - rewrite Z.eqb_eq. split.
    + intros [[[[[[? ?] ?] ?] ?] ?] ?]. subst s'. tauto.
    + intros [? [? [Hs ?]]]. injection Hs as Hs. tauto.
  - split; [intros [[[[[[? ?] ?] ?] ?] ?] ?]; discriminate|].
    intros [? [? [? ?]]]. discriminate.
Qed.

Lemma grown_length (es : list stack_symbol_type) :
  forall s la ts, grown s la es ts = true -> List.length es = List.length ts.
Proof.
  induction es as [|e es IH]; intros s la [|t ts] H; try discriminate;
    [reflexivity|].
  apply grown_cons in H. cbn [List.length]. f_equal.
  apply (IH (state e) la ts). tauto.
Qed.

Lemma grown_app (es1 : list stack_symbol_type) :
  forall s la ts1 es2 ts2,
    List.length es1 = List.length ts1 ->
    grown s la (es1 ++ es2) (ts1 ++ ts2)
    = grown s (first_type ts2 la) es1 ts1 && grown (ending s es1) la es2 ts2.
Proof.
  induction es1 as [|e es1 IH]; intros s la [|t ts1] es2 ts2 Hlen;
    try discriminate; [reflexivity|].
  cbn [app grown]. injection Hlen as Hlen.
  rewrite (IH (state e) la ts1 es2 ts2 Hlen), first_type_app.
  change (ending s (e :: es1)) with (ending (state e) es1).
  rewrite !andb_assoc. reflexivity.
Qed.

Lemma grown_valid (es : list stack_symbol_type) :
  forall s la ts,
    grown s la es ts = true -> valid_state s = true ->
    valid_state (ending s es) = true
    /\ Forall (fun e => valid_state (state e) = true) es.
Proof.
  induction es as [|e es IH]; intros s la [|t ts] H Hs; try discriminate;
    [split; [exact Hs|constructor]|].
  apply grown_cons in H. destruct H as [Hv [_ [_ [_ [_ [_ Hrest]]]]]].
  destruct (IH _ _ _ Hrest Hv) as [He Hall].
  split; [exact He|constructor; assumption].
Qed.

Lemma wf_node (la r : Z) (kids : list tree) :
  wf la (Node r kids) = true ->
  2 <= r <= 63 /\ map root kids = rhs r /\ follow_ok r la = true
  /\ wf_kids wf r la 0 kids = true.
Proof.
  cbn [wf]. intros H.
  apply andb_true_iff in H. destruct H as [H Hk].
  apply andb_true_iff in H. destruct H as [H Hf].
  apply andb_true_iff in H. destruct H as [H Hr].
  apply andb_true_iff in H. destruct H as [H2 H63].
  apply list_eqb_eq in Hr. repeat split; try assumption; lia.
Qed.

Lemma wf_root (la : Z) (t : tree) :
  wf la t = true ->
  match t with
  | Leaf x => 0 <= root t < yyntokens_
  | Node r _ => 53 <= root t <= 68
  end.
Proof.
  destruct t as [x|r kids]; intros H.
  - cbn [wf] in H. cbn [root]. lia.
  - destruct (wf_node _ _ _ H) as [Hr _]. cbn [root].
    destruct (rule_shape r Hr) as [Hl _]. exact Hl.
Qed.

Lemma wf_terminal (la : Z) (t : tree) :
  wf la t = true -> root t < yyntokens_ -> exists x, t = Leaf x.
Proof.
  intros H Hlt. pose proof (wf_root la t H) as Hr.
  destruct t as [x|r kids]; [exists x; reflexivity|].
  unfold yyntokens_ in Hlt. lia.
Qed.

(** A well-formed tree has text. *)
Lemma wf_yield (t : tree) : forall la, wf la t = true -> yield t <> [].
Proof.
  induction t as [x|r kids IH] using tree_ind'; intros la H; [discriminate|].
  destruct (wf_node _ _ _ H) as [Hr [Hroots [_ Hk]]].
  destruct (rule_shape r Hr) as [_ [H1 Hlen]].
  destruct kids as [|k ks].
  { cbn [map] in Hroots. rewrite <- Hroots in Hlen. cbn [List.length] in Hlen. lia. }
  rewrite wf_kids_cons in Hk.
  apply andb_true_iff in Hk. destruct Hk as [Hk _].
  apply andb_true_iff in Hk. destruct Hk as [_ Hk].
  inversion IH as [|? ? Hk0 _]; subst.
  specialize (Hk0 _ Hk). cbn [yield flat_map].
  destruct (yield k); [congruence|discriminate].
Qed.

(** The state below a symbol of the stack is among the states that the
    state of the symbol is entered from. *)
Lemma grown_enters (s la : Z) (e : stack_symbol_type) (t : tree) :
  grown s la [e] [t] = true -> valid_state s = true ->
  In s (preds (state e)).
Proof.
  intros H Hs. apply grown_cons in H.
  destruct H as [Hv [Hstos [Htr [Hst [Hwf [_ _]]]]]].
  unfold preds. apply filter_In. split.
  { apply Zrange_In. unfold valid_state in Hs. lia. }
  unfold enters. cbv zeta. rewrite Hstos.
  pose proof (wf_root _ _ Hwf) as Hroot.
  destruct t as [x|r kids].
  - replace (root (Leaf x) <? yyntokens_) with true by (symmetry; lia).
    rewrite Htr. apply Z.eqb_refl.
  - cbn [root] in *.
    assert (Hnt : (yyr1_.[r] <? yyntokens_) = false) by (unfold yyntokens_; lia).
    rewrite Hnt. unfold trans in Htr. rewrite Hnt in Htr.
    injection Htr as Htr. rewrite Htr, Z.eqb_refl.
    apply existsb_exists. exists r.
    destruct (wf_node _ _ _ Hwf) as [Hr _]. split.
    + apply Zrange_In. lia.
    + rewrite Z.eqb_refl. exact Hst.
Qed.

Lemma ending_last (s : Z) (es : list stack_symbol_type) (e : stack_symbol_type) :
  ending s (es ++ [e]) = state e.
Proof. rewrite ending_app. reflexivity. Qed.

(** When the state on top has the symbols [syms] below it, the stack has
    that many symbols over its bottom, and their trees have these roots. *)
Lemma spine_split (syms : list Z) :
  forall la es ts,
    grown 0 la es ts = true ->
    spine syms (ending 0 es) = true ->
    exists es1 es2 ts1 ts2,
      es = es1 ++ es2 /\ ts = ts1 ++ ts2
      /\ List.length es1 = List.length ts1
      /\ List.length es2 = List.length ts2
      /\ map root ts2 = rev syms.
Proof.
  induction syms as [|X syms IH]; intros la es ts Hg Hsp.
  - exists es, [], ts, []. rewrite !app_nil_r.
    repeat split; try reflexivity. exact (grown_length _ _ _ _ Hg).
  - cbn [spine] in Hsp.
    destruct ((yystos_.[ending 0 es] =? X) && negb (ending 0 es =? 0)) eqn:Hc;
      [|discriminate].
    apply andb_true_iff in Hc. destruct Hc as [HX Hn0].
    apply Z.eqb_eq in HX. apply negb_true_iff in Hn0. apply Z.eqb_neq in Hn0.
    pose proof (grown_length _ _ _ _ Hg) as Hlen.
    destruct (exists_last (l := es)) as [es' [e Hes]].
    { intros ->. apply Hn0. reflexivity. }
    destruct (exists_last (l := ts)) as [ts' [t Hts]].
    { intros ->. subst es. rewrite length_app in Hlen. cbn in Hlen. lia. }
    subst es ts. rewrite !length_app in Hlen. cbn [List.length] in Hlen.
    assert (Hlen' : List.length es' = List.length ts') by lia.
    rewrite (grown_app es' 0 la ts' [e] [t] Hlen') in Hg.
    apply andb_true_iff in Hg. destruct Hg as [Hg' Hge].
    rewrite ending_last in Hsp, HX.
    destruct (grown_valid _ _ _ _ Hg' eq_refl) as [Hv _].
    pose proof (grown_enters _ _ _ _ Hge Hv) as Hin.
    rewrite forallb_forall in Hsp. specialize (Hsp _ Hin).
    destruct (IH _ es' ts' Hg' Hsp)
      as [es1 [es2 [ts1 [ts2 [-> [-> [Hl1 [Hl2 Hroots]]]]]]]].
    exists es1, (es2 ++ [e]), ts1, (ts2 ++ [t]).
    rewrite <- !app_assoc. repeat split; try reflexivity; try assumption.
    + rewrite !length_app. cbn. lia.
    + rewrite map_app, Hroots. cbn [map rev]. f_equal. f_equal.
      apply grown_cons in Hge. destruct Hge as [_ [Hst _]]. congruence.
Qed.

Lemma grown_walk (es : list stack_symbol_type) :
  forall s la ts,
    grown s la es ts = true -> walk s (map root ts) = Some (ending s es).
Proof.
  induction es as [|e es IH]; intros s la [|t ts] H; try discriminate;
    [reflexivity|].
  apply grown_cons in H. destruct H as [_ [_ [Htr [_ [_ [_ Hrest]]]]]].
  cbn [map walk]. rewrite Htr. exact (IH _ _ _ Hrest).
Qed.

Lemma grown_carries (es : list stack_symbol_type) :
  forall s la ts,
    grown s la es ts = true ->
    Forall2 (fun X e => carries X (value e) = true) (map root ts) es.
Proof.
  induction es as [|e es IH]; intros s la [|t ts] H; try discriminate;
    [constructor|].
  apply grown_cons in H. destruct H as [_ [_ [_ [_ [_ [Hc Hrest]]]]]].
  cbn [map]. constructor; [exact Hc|exact (IH _ _ _ Hrest)].
Qed.

(** The trees of a right-hand side that the automaton permits are children
    that the rule allows. *)
Lemma grown_kids (r : Z) (es : list stack_symbol_type) :
  forall s la i ts,
    grown s la es ts = true ->
    permits r i s (map root ts) = true ->
    wf_kids wf r la i ts = true.
Proof.
  induction es as [|e es IH]; intros s la i [|t ts] H Hp; try discriminate;
    [reflexivity|].
  apply grown_cons in H. destruct H as [_ [_ [Htr [Hst [Hwf [_ Hrest]]]]]].
  cbn [map permits] in Hp. rewrite Htr in Hp.
  apply andb_true_iff in Hp. destruct Hp as [Hal Hp].
  rewrite wf_kids_cons, Hwf, (IH _ _ _ _ Hrest Hp), andb_true_r.
  destruct t as [x|r' kids']; [reflexivity|]. cbn [allowed].
  pose proof (wf_root _ _ Hwf) as Hroot. cbn [root] in *.
  assert (Hnt : (yyr1_.[r'] <? yyntokens_) = false) by (unfold yyntokens_; lia).
  rewrite Hnt in Hal.
  destruct (wf_node _ _ _ Hwf) as [Hr' [_ [Hfol _]]].
  pose proof (forall_rules _ Hal r' Hr') as Hc. cbv beta in Hc.
  cbn [starts] in Hst. rewrite Z.eqb_refl, Hst in Hc.
  destruct (allowed_child r i r'); [reflexivity|exfalso].
  destruct ts as [|t1 ts]; [discriminate|].
  destruct es as [|e1 es]; [discriminate|].
  apply grown_cons in Hrest. destruct Hrest as [_ [_ [_ [_ [Hwf1 _]]]]].
  cbn [map next_terminal] in Hc.
  destruct (root t1 <? yyntokens_) eqn:Ht1; [|discriminate].
  destruct (wf_terminal _ _ Hwf1 ltac:(lia)) as [x1 ->].
  unfold first_type in Hfol. cbn [flat_map yield app root] in Hfol, Hc.
  rewrite Hfol in Hc. discriminate.
Qed.

(** ** Translating a forest *)

Lemma eval_kids_app (ev : tree -> list Token -> evaluation) (a : list tree) :
  forall b acc ex,
    eval_kids ev (a ++ b) acc ex
    = match eval_kids ev a acc ex with
      | inl (st, ex') => eval_kids ev b st ex'
      | inr o => inr o
      end.
Proof.
  induction a as [|k a IH]; intros b acc ex; [reflexivity|].
  cbn [app]. rewrite !eval_kids_cons.
  destruct (ev k ex) as [[e ex']|o]; [apply IH|reflexivity].
Qed.

Lemma eval_kids_acc (ev : tree -> list Token -> evaluation) (ks : list tree) :
  forall acc ex,
    eval_kids ev ks acc ex
    = match eval_kids ev ks [] ex with
      | inl (st, ex') => inl (st ++ acc, ex')
      | inr o => inr o
      end.
Proof.
  induction ks as [|k ks IH]; intros acc ex; [reflexivity|].
  rewrite !eval_kids_cons.
  destruct (ev k ex) as [[e ex']|o]; [|reflexivity].
  rewrite (IH (e :: acc)), (IH [e]).
  destruct (eval_kids ev ks [] ex') as [[st ex'']|o]; [|reflexivity].
  rewrite <- app_assoc. reflexivity.
Qed.

Lemma eval_kids_length (ev : tree -> list Token -> evaluation) (ks : list tree) :
  forall acc ex st ex',
    eval_kids ev ks acc ex = inl (st, ex') ->
    List.length st = (List.length ks + List.length acc)%nat.
Proof.
  induction ks as [|k ks IH]; intros acc ex st ex' H.
  - injection H as <- _. reflexivity.
  - rewrite eval_kids_cons in H.
    destruct (ev k ex) as [[e ex1]|o]; [|discriminate].
    rewrite (IH _ _ _ _ H). cbn [List.length]. lia.
Qed.

(** ** A reduction is the translation of a node *)

Lemma yyreduce_eval_node (ctx : EvalContext) (r : Z) (q : parser)
      (l : list stack_symbol_type) (below : stack_symbol_type)
      (rest : list stack_symbol_type) :
  2 <= r <= 63 ->
  yystack_ q = l ++ below :: rest ->
  List.length l = Z.to_nat yyr2_.[r] ->
  yyreduce ctx r q
  = match eval_node ctx r (map strip l) (expression q) with
    | inl (sym, ex') =>
        inl (mkParser (mkStackSymbol (yy_lr_goto_state_ (state below) yyr1_.[r])
                                     (value sym) (location sym)
                       :: below :: rest)
                      (yyla q) (lex q) ex')
    | inr o => inr o
    end.
Proof.
  intros Hr Hst Hlen. destruct (rule_shape r Hr) as [_ [H1 _]].
  unfold yyreduce, eval_node. rewrite Hst.
  rewrite <- Hlen at 1. rewrite stack_at_length. cbn [bind].
  rewrite (YYLLOC_DEFAULT_strip l (below :: rest) _ Hlen H1).
  rewrite (action_strip ctx r l (below :: rest) (expression q) Hr Hlen).
  destruct (YYLLOC_DEFAULT (map strip l) (Z.to_nat yyr2_.[r])) as [loc| |];
    cbn [bind]; try reflexivity.
  destruct (action ctx (map strip l) (expression q) r) as [[v ex']| |];
    cbn [bind fst snd value location]; try reflexivity.
  rewrite <- Hlen, skipn_length_app. reflexivity.
Qed.

(** ** The invariant of the loop *)

Lemma list_eqb_refl (l : list Z) : list_eqb l l = true.
Proof.
  unfold list_eqb. rewrite Nat.eqb_refl. cbn [andb].
  induction l as [|x l IH]; [reflexivity|].
  cbn [combine forallb fst snd]. rewrite Z.eqb_refl. exact IH.
Qed.

Lemma Forall2_snoc (A B : Type) (P : A -> B -> Prop) (l1 : list A) (l2 : list B)
      (a : A) (b : B) :
  Forall2 P l1 l2 -> P a b -> Forall2 P (l1 ++ [a]) (l2 ++ [b]).
Proof.
  induction 1 as [|x y l1 l2 Hxy _ IH]; intros Hab; cbn [app].
  - constructor; [exact Hab|constructor].
  - constructor; [exact Hxy|exact (IH Hab)].
Qed.

Lemma Forall2_reverse (A B : Type) (P : A -> B -> Prop) (l1 : list A) (l2 : list B) :
  Forall2 P l1 l2 -> Forall2 P (rev l1) (rev l2).
Proof.
  induction 1 as [|x y l1 l2 Hxy _ IH]; cbn [rev]; [constructor|].
  apply Forall2_snoc; assumption.
Qed.

(** The stack over its bottom: the topmost symbol is in the state that the
    symbols end in. *)
Lemma stack_top (es : list stack_symbol_type) (bottom : stack_symbol_type) :
  state bottom = 0 ->
  exists top st, rev es ++ [bottom] = top :: st /\ state top = ending 0 es.
Proof.
  intros Hb. destruct (rev es) as [|e res] eqn:Hr.
  - exists bottom, []. split; [reflexivity|].
    apply (f_equal (@rev _)) in Hr. rewrite rev_involutive in Hr. subst es.
    exact Hb.
  - exists e, (res ++ [bottom]). split; [reflexivity|].
    apply (f_equal (@rev _)) in Hr. rewrite rev_involutive in Hr. subst es.
    cbn [rev]. rewrite ending_last. reflexivity.
Qed.

Lemma eval_node_state (ctx : EvalContext) (r : Z) (st : list stack_symbol_type)
      (ex ex' : list Token) (sym : stack_symbol_type) :
  eval_node ctx r st ex = inl (sym, ex') -> state sym = 0.
Proof.
  unfold eval_node.
  destruct (YYLLOC_DEFAULT st (Z.to_nat yyr2_.[r])) as [loc| |]; cbn [bind];
    try discriminate.
  destruct (action ctx st ex r) as [[v l]| |]; cbn [bind]; try discriminate.
  intros [= <- _]. reflexivity.
Qed.

Lemma eval_node_rejected (ctx : EvalContext) (r : Z) (st : list stack_symbol_type)
      (ex partial : list Token) (e : exception) :
  eval_node ctx r st ex = inr (Rejected e partial) -> partial = ex.
Proof.
  unfold eval_node.
  destruct (YYLLOC_DEFAULT st (Z.to_nat yyr2_.[r])) as [loc| |]; cbn [bind];
    try discriminate; try (intros [= _ <-]; reflexivity).
  destruct (action ctx st ex r) as [[v l]| |]; cbn [bind]; try discriminate.
  intros [= _ <-]. reflexivity.
Qed.

(** The lookahead of a text of lexed symbols. *)
Lemma peek_lexed (p : parser) (w : list symbol_type) :
  pending p w -> Forall (fun x => lexed x = true) w ->
  0 <= type_get (peek p) < yyntokens_
  /\ carries (type_get (peek p)) (sym_value (peek p)) = true
  /\ match w with
     | [] => type_get (peek p) = yyeof_
     | x :: _ => peek p = x /\ 0 < type_get x
     end.
Proof.
  intros Hp Hw. destruct w as [|x w].
  - destruct (pending_nil p Hp) as [-> _]. cbn.
    repeat split; try reflexivity; unfold yyntokens_; lia.
  - destruct (pending_cons p x w Hp) as [-> _].
    inversion Hw as [|? ? Hx _]; subst. unfold lexed in Hx.
    apply andb_true_iff in Hx. destruct Hx as [Hx Hc].
    apply andb_true_iff in Hx. destruct Hx as [H0 H1].
    repeat split; try assumption; lia.
Qed.

Section Invariant.

Variable ctx : EvalContext.
Variable l : lexer.

Lemma invariant_initial :
  Forall (fun x => lexed x = true) (tokens l) -> invariant ctx l (initial l) [].
Proof.
  intros Hl. exists [], (mkStackSymbol 0 v_none location0), (tokens l).
  repeat split; try reflexivity; try assumption. discriminate.
Qed.

Lemma invariant_read (p : parser) (ts : list tree) :
  invariant ctx l p ts -> invariant ctx l (read_lookahead p) ts.
Proof.
  intros [es [bottom [w [Hst [Hb [Hg [Hev [Htok [Hp [Hw [Heof Hnf]]]]]]]]]]].
  exists es, bottom, w.
  split; [exact Hst|]. split; [exact Hb|]. split; [exact Hg|].
  split; [exact Hev|]. split; [exact Htok|].
  split; [exact (pending_read p w Hp)|]. split; [exact Hw|].
  split; [|exact Hnf].
  cbn [read_lookahead lex]. rewrite eof_advance. exact Heof.
Qed.

End Invariant.

Lemma app_same_length (A : Type) (a c b d : list A) :
  List.length a = List.length c -> a ++ b = c ++ d -> a = c /\ b = d.
Proof.
  revert c. induction a as [|x a IH]; intros [|y c] Hlen H; try discriminate.
  - split; [reflexivity|exact H].
  - injection Hlen as Hlen. injection H as -> H.
    destruct (IH c Hlen H) as [-> ->]. split; reflexivity.
Qed.

Lemma Forall2_strip (l : list Z) (es : list stack_symbol_type) :
  Forall2 (fun X e => carries X (value e) = true) l es ->
  Forall2 (fun X e => carries X (value e) = true) l (map strip es).
Proof.
  induction 1 as [|X e l es H _ IH]; cbn [map]; constructor; assumption.
Qed.

(** The rule that a state reduces, and the state it began in. *)
Lemma reduced_rule (s la r : Z) :
  valid_state s = true -> s <> yyfinal_ -> 0 <= la < yyntokens_ ->
  decide s la = Reduce r ->
  2 <= r <= 63 /\ yydefact_.[s] = r /\ follow_ok r la = true
  /\ spine (rev (rhs r)) s = true.
Proof.
  intros Hv Hnf Hla Hd.
  pose proof (decide_terminal s la Hv Hla) as Hdt. rewrite Hd in Hdt.
  destruct Hdt as [Hdef Hfol].
  assert (Hr : 2 <= r <= 63).
  { destruct (decide_cases s la Hv) as [Hdd|[s' [Hsh _]]]; [|congruence].
    rewrite Hd in Hdd.
    destruct (default_cases s Hv Hnf) as [He|[r0 [Hr0 [_ [Hr _]]]]]; congruence. }
  split; [exact Hr|]. split; [exact Hdef|]. split; [exact Hfol|].
  destruct (state_backwards s Hv) as [Hsp _]. unfold spine_ok in Hsp.
  cbv zeta in Hsp. rewrite Hdef in Hsp.
  replace (r =? 0) with false in Hsp by (symmetry; lia).
  replace (s =? yyfinal_) with false in Hsp by (symmetry; apply Z.eqb_neq; exact Hnf).
  exact Hsp.
Qed.

(** The node that a reduction builds from the trees of the symbols it
    pops, which began in state [s1]. *)
Lemma grown_node (r s1 la : Z) (es2 : list stack_symbol_type) (ts2 : list tree) :
  valid_state s1 = true -> 2 <= r <= 63 ->
  grown s1 la es2 ts2 = true -> map root ts2 = rhs r ->
  yydefact_.[ending s1 es2] = r -> follow_ok r la = true ->
  expects s1 r = true /\ wf la (Node r ts2) = true.
Proof.
  intros Hv Hr Hg Hroots Hdef Hfol.
  destruct (rule_shape r Hr) as [_ [H1 Hlen]].
  destruct (state_backwards s1 Hv) as [_ [_ [Hbeg Hper]]].
  assert (Hlead : leads_to s1 (rhs r) r = true).
  { unfold leads_to. rewrite <- Hroots, (grown_walk _ _ _ _ Hg).
    apply Z.eqb_eq. exact Hdef. }
  assert (Hexp : expects s1 r = true).
  { unfold begin_ok in Hbeg. pose proof (forall_rules _ Hbeg r Hr) as Hb.
    cbv beta in Hb. rewrite Hlead in Hb.
    destruct ts2 as [|t0 ts2].
    { cbn [map] in Hroots. rewrite <- Hroots in Hlen. cbn [List.length] in Hlen. lia. }
    destruct es2 as [|e0 es2]; [discriminate|].
    apply grown_cons in Hg. destruct Hg as [_ [_ [_ [Hst [Hwf _]]]]].
    cbn [map] in Hroots. rewrite <- Hroots in Hb.
    pose proof (wf_root _ _ Hwf) as Hroot.
    destruct t0 as [x|r0 kids0].
    - replace (root (Leaf x) <? yyntokens_) with true in Hb by (symmetry; lia).
      exact Hb.
    - cbn [root] in *.
      replace (yyr1_.[r0] <? yyntokens_) with false in Hb
        by (symmetry; unfold yyntokens_; lia).
      destruct (wf_node _ _ _ Hwf) as [Hr0 _].
      pose proof (forall_rules _ Hb r0 Hr0) as Hc. cbv beta in Hc.
      cbn [starts] in Hst. rewrite Z.eqb_refl, Hst in Hc. exact Hc. }
  split; [exact Hexp|].
  unfold permits_ok in Hper. pose proof (forall_rules _ Hper r Hr) as Hp.
  cbv beta in Hp. rewrite Hexp, <- Hroots in Hp.
  cbn [wf]. rewrite (grown_kids r es2 s1 la 0 ts2 Hg Hp).
  rewrite Hroots, list_eqb_refl, Hfol.
  replace (2 <=? r) with true by (symmetry; lia).
  replace (r <=? 63) with true by (symmetry; lia). reflexivity.
Qed.

Section Reduce.

Variable ctx : EvalContext.
Variable l : lexer.

(** A reduction keeps the invariant: the trees of the symbols it pops
    become the children of a node; or it is rejected the way the
    translation of that node is. *)
Lemma invariant_reduce (q : parser) (ts : list tree) (r : Z) :
  invariant ctx l q ts ->
  decide (top_state q) (type_get (peek q)) = Reduce r ->
  match yyreduce ctx r q with
  | inl p' => exists ts', invariant ctx l p' ts'
  | inr o =>
      exists e ts1 kids,
        o = Rejected e (expression q) /\ semantic e = true
        /\ ts = ts1 ++ kids
        /\ wf (type_get (peek q)) (Node r kids) = true
        /\ eval_kids (eval ctx) (ts1 ++ [Node r kids]) [] []
           = inr (Rejected e (expression q))
  end.
Proof.
  intros [es [bottom [w [Hst [Hb [Hg [Hev [Htok [Hp [Hw [Heof Hnf]]]]]]]]]]] Hd.
  destruct (stack_top es bottom Hb) as [top [st [Hts Htop]]].
  assert (Htq : top_state q = ending 0 es).
  { unfold top_state. rewrite Hst, Hts. exact Htop. }
  rewrite Htq in Hd, Hnf.
  destruct (grown_valid _ _ _ _ Hg eq_refl) as [Hv _].
  destruct (peek_lexed q w Hp Hw) as [Hla _].
  destruct (reduced_rule _ _ _ Hv Hnf Hla Hd) as [Hr [Hdef [Hfol Hsp]]].
  destruct (spine_split (rev (rhs r)) _ es ts Hg Hsp)
    as [es1 [es2 [ts1 [ts2 [-> [-> [Hl1 [Hl2 Hroots]]]]]]]].
  rewrite rev_involutive in Hroots.
  rewrite (grown_app es1 0 _ ts1 es2 ts2 Hl1) in Hg.
  apply andb_true_iff in Hg. destruct Hg as [Hg1 Hg2].
  destruct (grown_valid _ _ _ _ Hg1 eq_refl) as [Hv1 _].
  rewrite ending_app in Hdef, Hnf.
  destruct (grown_node r _ _ es2 ts2 Hv1 Hr Hg2 Hroots Hdef Hfol) as [Hexp Hwf].
  destruct (rule_shape r Hr) as [Hlhs [_ Hlen]].
  assert (Hlen2 : List.length (rev es2) = Z.to_nat yyr2_.[r]).
  { rewrite length_rev, Hl2, <- (length_map root), Hroots. exact Hlen. }
  rewrite rev_app_distr, <- app_assoc in Hst.
  destruct (stack_top es1 bottom Hb) as [below [rest [Hbelow Hsb]]].
  rewrite Hbelow in Hst.
  rewrite (yyreduce_eval_node ctx r q (rev es2) below rest Hr Hst Hlen2).
  rewrite eval_kids_app in Hev.
  destruct (eval_kids (eval ctx) ts1 [] []) as [[st1 ex1]|o] eqn:Hev1; [|discriminate].
  rewrite eval_kids_acc in Hev.
  destruct (eval_kids (eval ctx) ts2 [] ex1) as [[st2 ex2]|o] eqn:Hev2; [|discriminate].
  injection Hev as Hstk Hex. subst ex2.
  rewrite rev_app_distr, map_app in Hstk.
  apply app_same_length in Hstk.
  2:{ rewrite (eval_kids_length _ _ _ _ _ _ Hev2), length_map, length_rev. cbn. lia. }
  destruct Hstk as [-> ->].
  assert (HF : Forall2 (fun X e => carries X (value e) = true)
                       (rev (rhs r)) (map strip (rev es2))).
  { apply Forall2_strip. rewrite <- Hroots. apply Forall2_reverse.
    exact (grown_carries _ _ _ _ Hg2). }
  pose proof (node_sound ctx r (map strip (rev es2)) (expression q) Hr HF) as Hsound.
  assert (HevT : eval ctx (Node r ts2) ex1
                 = eval_node ctx r (map strip (rev es2)) (expression q)).
  { cbn [eval]. rewrite Hev2. reflexivity. }
  destruct (eval_node ctx r (map strip (rev es2)) (expression q))
    as [[sym ex']|o] eqn:Hnode; cbn [sound] in Hsound.
  - pose proof (eval_node_state _ _ _ _ _ _ Hnode) as Hs0.
    destruct (goto_cases _ yyr1_.[r] Hv1 Hlhs) as [Hgv [_ Hgnf]].
    destruct (state_ok _ Hv1) as [_ [_ Hgo]].
    unfold goto_ok in Hgo. rewrite forallb_forall in Hgo.
    assert (Hin : In yyr1_.[r] (Zrange 53 69)) by (apply Zrange_In; lia).
    specialize (Hgo yyr1_.[r] Hin).
    cbv zeta in Hgo.
    apply andb_true_iff in Hgo. destruct Hgo as [Hgo _].
    apply andb_true_iff in Hgo. destruct Hgo as [_ Hstos]. apply Z.eqb_eq in Hstos.
    exists (ts1 ++ [Node r ts2]).
    exists (es1 ++ [mkStackSymbol (yy_lr_goto_state_ (ending 0 es1) yyr1_.[r])
                                  (value sym) (location sym)]), bottom, w.
    cbn [yystack_ expression lex].
    split.
    { rewrite rev_app_distr. cbn [rev app]. rewrite Hbelow, Hsb. reflexivity. }
    split; [exact Hb|].
    split.
    { change (peek _) with (peek q).
      rewrite (grown_app es1 0 _ ts1 _ _ Hl1). apply andb_true_iff. split.
      - replace (first_type [Node r ts2] (type_get (peek q)))
          with (first_type ts2 (type_get (peek q))); [exact Hg1|].
        unfold first_type. cbn [flat_map yield]. rewrite app_nil_r. reflexivity.
      - apply grown_cons. cbn [state value root].
        split; [exact Hgv|]. split; [exact Hstos|].
        split.
        { unfold trans.
          replace (yyr1_.[r] <? yyntokens_) with false
            by (symmetry; unfold yyntokens_; lia).
          reflexivity. }
        split; [exact Hexp|]. split; [exact Hwf|]. split; [exact Hsound|reflexivity]. }
    split.
    { rewrite eval_kids_app, Hev1, eval_kids_cons, HevT.
      cbn [eval_kids]. rewrite rev_app_distr, map_app. cbn [rev app map].
      unfold strip at 1. cbn [value location].
      destruct sym as [s0 v0 l0]. cbn in Hs0. subst s0. reflexivity. }
    split.
    { rewrite Htok, !flat_map_app. cbn [flat_map yield]. rewrite app_nil_r.
      reflexivity. }
    split; [exact Hp|]. split; [exact Hw|]. split; [exact Heof|].
    unfold top_state. cbn [yystack_ state]. rewrite Hsb. exact Hgnf.
  - destruct o as [|e partial| |]; try contradiction.
    pose proof (eval_node_rejected _ _ _ _ _ _ Hnode) as ->.
    exists e, ts1, ts2.
    split; [reflexivity|]. split; [exact Hsound|]. split; [reflexivity|].
    split; [exact Hwf|].
    rewrite eval_kids_app, Hev1, eval_kids_cons, HevT. reflexivity.
Qed.

End Reduce.

Lemma enters_preds (p s : Z) :
  In p (preds s) -> valid_state p = true /\ enters p s = true.
Proof.
  unfold preds. intros H. apply filter_In in H. destruct H as [Hin He].
  apply Zrange_In in Hin. split; [unfold valid_state; lia|exact He].
Qed.

Lemma accept_cases (s : Z) :
  valid_state s = true ->
  enters s 0 = false
  /\ (enters s yyfinal_ = true -> yystos_.[s] = 53)
  /\ (yystos_.[s] = 53 ->
      forall p, valid_state p = true -> enters p s = true -> p = 0).
Proof.
  intros Hs. pose proof (forall_states _ accept_ok_holds s Hs) as H. cbv beta in H.
  apply andb_true_iff in H. destruct H as [H H3].
  apply andb_true_iff in H. destruct H as [H1 H2].
  apply negb_true_iff in H1. split; [exact H1|]. split.
  - intros He. rewrite He in H2. apply Z.eqb_eq. exact H2.
  - intros H53 p Hp He. apply Z.eqb_eq in H53. rewrite H53 in H3.
    pose proof (forall_states _ H3 p Hp) as H. cbv beta in H. rewrite He in H.
    apply Z.eqb_eq. exact H.
Qed.

(** Every symbol over the bottom of the stack is pushed with its tree. *)
Lemma grown_last (la : Z) (es : list stack_symbol_type) (ts : list tree) :
  grown 0 la es ts = true -> es <> [] ->
  exists es' e ts' t,
    es = es' ++ [e] /\ ts = ts' ++ [t]
    /\ List.length es' = List.length ts'
    /\ grown 0 (first_type [t] la) es' ts' = true
    /\ grown (ending 0 es') la [e] [t] = true
    /\ valid_state (ending 0 es') = true
    /\ enters (ending 0 es') (state e) = true.
Proof.
  intros Hg Hne. pose proof (grown_length _ _ _ _ Hg) as Hlen.
  destruct (exists_last Hne) as [es' [e Hes]].
  destruct (exists_last (l := ts)) as [ts' [t Hts]].
  { intros ->. subst es. rewrite length_app in Hlen. cbn in Hlen. lia. }
  subst es ts. rewrite !length_app in Hlen. cbn [List.length] in Hlen.
  assert (Hlen' : List.length es' = List.length ts') by lia.
  rewrite (grown_app es' 0 la ts' [e] [t] Hlen') in Hg.
  apply andb_true_iff in Hg. destruct Hg as [Hg' Hge].
  destruct (grown_valid _ _ _ _ Hg' eq_refl) as [Hv' _].
  destruct (enters_preds _ _ (grown_enters _ _ _ _ Hge Hv')) as [_ Hen].
  exists es', e, ts', t. repeat split; assumption.
Qed.

(** State 0 is at the bottom of the stack only. *)
Lemma grown_no_bottom (la : Z) (es : list stack_symbol_type) (ts : list tree) :
  grown 0 la es ts = true -> es <> [] -> ending 0 es <> 0.
Proof.
  intros Hg Hne.
  destruct (grown_last la es ts Hg Hne)
    as [es' [e [ts' [t [-> [-> [_ [_ [_ [Hv' Hen]]]]]]]]]].
  rewrite ending_last. intros H0. rewrite H0 in Hen.
  destruct (accept_cases _ Hv') as [Hno _]. congruence.
Qed.

(** A stack whose top state the end of the file is shifted from holds one
    tree, an instance of [start]. *)
Lemma grown_start (la : Z) (es : list stack_symbol_type) (ts : list tree) :
  grown 0 la es ts = true ->
  trans (ending 0 es) yyeof_ = Some yyfinal_ ->
  exists e t, es = [e] /\ ts = [t] /\ root t = 53.
Proof.
  intros Hg Htr.
  destruct (grown_valid _ _ _ _ Hg eq_refl) as [Hv _].
  destruct (accept_cases _ Hv) as [_ [Hfin H53]].
  assert (Hs : yystos_.[ending 0 es] = 53).
  { apply Hfin. unfold enters. cbv zeta.
    change (yystos_.[yyfinal_]) with yyeof_. change (yyeof_ <? yyntokens_) with true.
    cbv iota. rewrite Htr. reflexivity. }
  specialize (H53 Hs).
  assert (Hne : es <> []) by (intros ->; discriminate Hs).
  destruct (grown_last la es ts Hg Hne)
    as [es' [e [ts' [t [-> [-> [Hlen' [Hg' [Hge [Hv' Hen]]]]]]]]]].
  rewrite ending_last in H53, Hs.
  pose proof (H53 _ Hv' Hen) as H0.
  assert (es' = []).
  { destruct es' as [|e0 es0]; [reflexivity|exfalso].
    refine (grown_no_bottom _ _ _ Hg' _ H0). discriminate. }
  subst es'. destruct ts'; [|discriminate].
  exists e, t. split; [reflexivity|]. split; [reflexivity|].
  apply grown_cons in Hge. destruct Hge as [_ [Hst _]]. congruence.
Qed.

Section Turn.

Variable ctx : EvalContext.
Variable l : lexer.

(** A shift keeps the invariant, the shifted symbol being a new leaf; or it
    is the shift of the end of the file, over an instance of [start] that
    is all of the text. *)
Lemma invariant_shift (p : parser) (ts : list tree) (s' : Z) :
  invariant ctx l p ts ->
  decide (top_state p) (type_get (peek p)) = Shift s' ->
  (exists ts', invariant ctx l (shifted s' p) ts')
  \/ (s' = yyfinal_
      /\ exists t sym, wf_start t = true /\ yield t = tokens l
                       /\ eval ctx t [] = inl (sym, expression p)).
Proof.
  intros [es [bottom [w [Hst [Hb [Hg [Hev [Htok [Hp [Hw [Heof Hnf]]]]]]]]]]] Hd.
  destruct (stack_top es bottom Hb) as [top [st [Hts Htop]]].
  assert (Htq : top_state p = ending 0 es).
  { unfold top_state. rewrite Hst, Hts. exact Htop. }
  rewrite Htq in Hd, Hnf.
  destruct (grown_valid _ _ _ _ Hg eq_refl) as [Hv _].
  destruct (peek_lexed p w Hp Hw) as [Hla [Hcar Hw0]].
  pose proof (decide_terminal _ _ Hv Hla) as Hstos. rewrite Hd in Hstos.
  destruct (decide_cases _ (type_get (peek p)) Hv) as [Hdd|[s'' [Hsh [Hv' [Hfin _]]]]].
  { rewrite Hd in Hdd. unfold decide_default in Hdd.
    destruct (yydefact_.[ending 0 es] =? 0); discriminate. }
  assert (s'' = s') by congruence. subst s''.
  assert (Htr : trans (ending 0 es) (type_get (peek p)) = Some s').
  { unfold trans. replace (type_get (peek p) <? yyntokens_) with true by (symmetry; lia).
    rewrite Hd. replace (ending 0 es =? yyfinal_) with false; [reflexivity|].
    symmetry. apply Z.eqb_neq. exact Hnf. }
  destruct w as [|x w].
  - right. assert (Hf : s' = yyfinal_) by (apply Hfin; exact Hw0).
    split; [exact Hf|]. subst s'. rewrite Hw0 in Htr, Hg.
    destruct (grown_start _ _ _ Hg Htr) as [e [t [-> [-> Hroot]]]].
    apply grown_cons in Hg. destruct Hg as [_ [_ [_ [_ [Hwf _]]]]].
    exists t, (strip e).
    split; [unfold wf_start; apply andb_true_iff; split;
            [apply Z.eqb_eq; exact Hroot|exact Hwf]|].
    split; [rewrite Htok; cbn [flat_map]; rewrite !app_nil_r; reflexivity|].
    rewrite eval_kids_cons in Hev.
    destruct (eval ctx t []) as [[e0 ex0]|o]; [|discriminate].
    cbn [eval_kids rev app map] in Hev. congruence.
  - left. destruct Hw0 as [Hx Hpos].
    assert (Hnf' : s' <> yyfinal_).
    { intros Hf. apply Hfin in Hf. rewrite Hx in Hf. unfold yyeof_ in Hf. lia. }
    exists (ts ++ [Leaf x]).
    exists (es ++ [mkStackSymbol s' (sym_value x) (sym_location x)]), bottom, w.
    unfold shifted at 1 2 4 5. cbn [yystack_ expression lex].
    rewrite Hx in *.
    split; [rewrite rev_app_distr, Hst; reflexivity|].
    split; [exact Hb|].
    split.
    { rewrite (grown_app es 0 _ ts _ _ (grown_length _ _ _ _ Hg)).
      apply andb_true_iff. split; [exact Hg|].
      apply grown_cons. cbn [state value root].
      split; [exact Hv'|]. split; [exact Hstos|]. split; [exact Htr|].
      split; [cbn [starts]; rewrite Htr; reflexivity|].
      split; [cbn [wf]; apply andb_true_iff; split; lia|].
      split; [exact Hcar|reflexivity]. }
    split.
    { rewrite eval_kids_app, Hev, rev_app_distr. reflexivity. }
    split.
    { rewrite Htok, flat_map_app. cbn [flat_map yield app].
      rewrite <- app_assoc. reflexivity. }
    split; [rewrite <- Hx in Hp; rewrite <- Hx; exact (pending_shifted p s' _ w Hp)|].
    split; [inversion Hw; assumption|].
    split; [rewrite eof_advance; exact Heof|].
    unfold top_state. cbn [shifted yystack_ state]. exact Hnf'.
Qed.

End Turn.

Lemma grown_wf (es : list stack_symbol_type) :
  forall s la ts,
    grown s la es ts = true -> Forall (fun t => exists la', wf la' t = true) ts.
Proof.
  induction es as [|e es IH]; intros s la [|t ts] H; try discriminate;
    [constructor|].
  apply grown_cons in H. destruct H as [_ [_ [_ [_ [Hwf [_ Hrest]]]]]].
  constructor; [eexists; exact Hwf|exact (IH _ _ _ Hrest)].
Qed.

Section Ends.

Variable ctx : EvalContext.
Variable l : lexer.

Lemma invariant_valid (p : parser) (ts : list tree) :
  invariant ctx l p ts -> valid p.
Proof.
  intros [es [bottom [w [Hst [Hb [Hg _]]]]]].
  destruct (grown_valid _ _ _ _ Hg eq_refl) as [_ Hall].
  unfold valid. rewrite Hst. apply Forall_app. split.
  - apply Forall_rev. exact Hall.
  - constructor; [rewrite Hb; reflexivity|constructor].
Qed.

Lemma invariant_top (p : parser) (ts : list tree) :
  invariant ctx l p ts ->
  exists top st, yystack_ p = top :: st /\ state top <> yyfinal_.
Proof.
  intros [es [bottom [w [Hst [Hb [_ [_ [_ [_ [_ [_ Hnf]]]]]]]]]]].
  destruct (stack_top es bottom Hb) as [top [st [Hts _]]].
  exists top, st. rewrite Hst, Hts. split; [reflexivity|].
  unfold top_state in Hnf. rewrite Hst, Hts in Hnf. exact Hnf.
Qed.

Lemma invariant_forest (p : parser) (ts : list tree) :
  invariant ctx l p ts ->
  Forall (fun t => exists la, wf la t = true) ts
  /\ (exists st, eval_kids (eval ctx) ts [] [] = inl (st, expression p))
  /\ valid_state (top_state p) = true
  /\ exists w, tokens l = flat_map yield ts ++ w /\ peek p = next_symbol l w.
Proof.
  intros Hinv. pose proof (invariant_valid p ts Hinv) as Hval.
  destruct (invariant_top p ts Hinv) as [top [st [Hst _]]].
  destruct Hinv as [es [bottom [w [_ [_ [Hg [Hev [Htok [Hp [_ [Heof _]]]]]]]]]]].
  split; [exact (grown_wf _ _ _ _ Hg)|].
  split; [eexists; exact Hev|].
  split.
  { unfold valid in Hval. rewrite Hst in Hval. inversion Hval; subst.
    rewrite (top_state_cons p top st Hst). assumption. }
  exists w. split; [exact Htok|].
  destruct w as [|x w]; cbn [next_symbol].
  - destruct (pending_nil p Hp) as [-> _]. unfold eof_symbol. rewrite Heof.
    reflexivity.
  - destruct (pending_cons p x w Hp) as [-> _]. reflexivity.
Qed.

(** One turn of the loop, from a stack that stands for a forest. *)
Lemma invariant_turn (p : parser) (ts : list tree) :
  invariant ctx l p ts ->
  match step ctx p with
  | inl p' =>
      (exists ts', invariant ctx l p' ts')
      \/ (p' = shifted yyfinal_ p
          /\ exists t sym, wf_start t = true /\ yield t = tokens l
                           /\ eval ctx t [] = inl (sym, expression p'))
  | inr o =>
      exists e,
        o = Rejected e (expression p)
        /\ ((e = ParseError SyntaxError (sym_location (peek p))
                            (syntax_message (top_state p) (type_get (peek p)))
             /\ decide (top_state p) (type_get (peek p)) = Error)
            \/ (semantic e = true
                /\ exists ts1 r kids,
                    ts = ts1 ++ kids
                    /\ wf (type_get (peek p)) (Node r kids) = true
                    /\ eval_kids (eval ctx) (ts1 ++ [Node r kids]) [] []
                       = inr (Rejected e (expression p))))
  end.
Proof.
  intros Hinv.
  destruct (invariant_top p ts Hinv) as [top [st [Hst Hnf]]].
  pose proof (top_state_cons p top st Hst) as Htop.
  pose proof (step_decide ctx p top st Hst Hnf) as Hstep.
  rewrite <- Htop in Hstep.
  destruct (decide (top_state p) (type_get (peek p))) as [s'|r|] eqn:Hd.
  - rewrite Hstep.
    destruct (invariant_shift ctx l p ts s' Hinv Hd) as [H|[Hf [t [sym H]]]];
      [left; exact H|right].
    subst s'. split; [reflexivity|]. exists t, sym. exact H.
  - assert (Hq : exists q, step ctx p = yyreduce ctx r q
                           /\ invariant ctx l q ts
                           /\ top_state q = top_state p /\ peek q = peek p
                           /\ expression q = expression p).
    { rewrite Hstep.
      destruct (yy_pact_value_is_default_ yypact_.[top_state p]).
      - exists p. repeat split. exact Hinv.
      - exists (read_lookahead p). repeat split.
        exact (invariant_read ctx l p ts Hinv). }
    destruct Hq as [q [-> [Hinvq [Htq [Hpq Hexq]]]]].
    rewrite <- Htq, <- Hpq in Hd.
    pose proof (invariant_reduce ctx l q ts r Hinvq Hd) as Hred.
    destruct (yyreduce ctx r q) as [p'|o]; [left; exact Hred|].
    destruct Hred as [e [ts1 [kids [-> [Hsem [Hts [Hwf Hev]]]]]]].
    exists e. rewrite <- Hexq. split; [reflexivity|]. right.
    split; [exact Hsem|]. exists ts1, r, kids. rewrite <- Hpq.
    repeat split; assumption.
  - assert (Ho : exists loc msg q,
               step ctx p = inr (Rejected (ParseError SyntaxError loc msg)
                                          (expression q))).
    { rewrite Hstep.
      destruct (yy_pact_value_is_default_ yypact_.[top_state p]);
        unfold yyerrlab; cbn [read_lookahead yystack_]; rewrite Hst;
        eexists; eexists; eexists; reflexivity. }
    destruct Ho as [loc [msg [q Ho]]]. rewrite Ho.
    destruct (step_syntax_error ctx p loc msg _ (invariant_valid p ts Hinv) Ho)
      as [-> [-> [_ [_ Hex]]]].
    eexists. rewrite Hex. split; [reflexivity|]. left. split; reflexivity.
Qed.

End Ends.

Section Forest.

Variable ctx : EvalContext.
Variable l : lexer.

(** How a run from a stack that stands for a forest ends: it accepts an
    instance of [start] that is all of the text, or it is rejected after a
    forest of well-formed trees, by the translation of the last of them or
    by the symbol that follows them. *)
Lemma forest_ends (p : parser) (o : outcome) :
  ends ctx p o ->
  forall ts,
    invariant ctx l p ts ->
    match o with
    | Accepted program =>
        exists t, wf_start t = true /\ yield t = tokens l
                  /\ compile ctx t = Accepted program
    | Rejected e partial =>
        exists (F : list tree) (w : list symbol_type),
          tokens l = flat_map yield F ++ w
          /\ Forall (fun t => exists la, wf la t = true) F
          /\ if semantic e
             then eval_kids (eval ctx) F [] [] = inr (Rejected e partial)
             else exists s st,
                 valid_state s = true
                 /\ decide s (type_get (next_symbol l w)) = Error
                 /\ e = ParseError SyntaxError (sym_location (next_symbol l w))
                                   (syntax_message s (type_get (next_symbol l w)))
                 /\ eval_kids (eval ctx) F [] [] = inl (st, partial)
    | _ => False
    end.
Proof.
  induction 1 as [p o Hs|p p' o Hs He IH]; intros ts Hinv;
    pose proof (invariant_turn ctx l p ts Hinv) as Ht; rewrite Hs in Ht.
  - destruct Ht as [e [-> [[-> Hd]|[Hsem [ts1 [r [kids [-> [Hwf Hev]]]]]]]]].
    + destruct (invariant_forest ctx l p ts Hinv)
        as [HF [[st Hev] [Hv [w [Htok Hpk]]]]].
      exists ts, w. split; [exact Htok|]. split; [exact HF|].
      cbn [semantic]. exists (top_state p), st. rewrite <- Hpk.
      repeat split; assumption.
    + destruct (invariant_forest ctx l p _ Hinv) as [HF [_ [_ [w [Htok _]]]]].
      exists (ts1 ++ [Node r kids]), w.
      split.
      { rewrite Htok, !flat_map_app. cbn [flat_map yield]. rewrite app_nil_r.
        reflexivity. }
      split.
      { apply Forall_app in HF. destruct HF as [HF1 _].
        apply Forall_app. split; [exact HF1|].
        constructor; [eexists; exact Hwf|constructor]. }
      rewrite Hsem. exact Hev.
  - destruct Ht as [[ts' Hinv']|[Hsh [t [sym [Hwf [Hy Hev]]]]]];
      [exact (IH ts' Hinv')|].
    pose proof (step_final ctx p' _ _ (f_equal yystack_ Hsh) eq_refl) as Hfin.
    assert (o = Accepted (expression p')).
    { inversion He; congruence. }
    subst o. exists t. split; [exact Hwf|]. split; [exact Hy|].
    unfold compile. rewrite Hev. reflexivity.
Qed.

Lemma parse_forest :
  Forall (fun x => lexed x = true) (tokens l) ->
  match parse ctx l with
  | Accepted program =>
      exists t, wf_start t = true /\ yield t = tokens l
                /\ compile ctx t = Accepted program
  | Rejected e partial =>
      exists (F : list tree) (w : list symbol_type),
        tokens l = flat_map yield F ++ w
        /\ Forall (fun t => exists la, wf la t = true) F
        /\ if semantic e
           then eval_kids (eval ctx) F [] [] = inr (Rejected e partial)
           else exists s st,
               valid_state s = true
               /\ decide s (type_get (next_symbol l w)) = Error
               /\ e = ParseError SyntaxError (sym_location (next_symbol l w))
                                 (syntax_message s (type_get (next_symbol l w)))
               /\ eval_kids (eval ctx) F [] [] = inl (st, partial)
  | _ => False
  end.
Proof.
  intros Hl.
  exact (forest_ends _ _ (ends_parse ctx l) [] (invariant_initial ctx l Hl)).
Qed.

End Forest.

(** * Where errors come from *)

Section Conversions.

Variable ctx : EvalContext.

(** A conversion error is thrown by a rule that converts a literal, for the
    literal on the stack that the conversion of the context refuses. *)
Lemma action_conversion (r : Z) (st : list stack_symbol_type) (ex : list Token)
      (loc : location_type) (literal : string) :
  0 <= r <= 63 ->
  action ctx st ex r = Throw (ConversionError loc literal) ->
  converts r = true
  /\ value_at as_string st (literal_index r) = Ok literal
  /\ location_at st (literal_index r) = Ok loc
  /\ conversion ctx r literal loc = None.
Proof.
  intros Hr. assert (Hin : In r (Zrange 0 64)) by (apply Zrange_In; lia).
  vm_compute in Hin.
  repeat (destruct Hin as [<-|Hin]; [|]); try contradiction;
    unfold action, push_back, assign, error;
    destruct (getUniverse ctx);
    repeat match goal with
           | |- context [bind (convert ?f ?s ?l) _] =>
               unfold convert at 1; destruct (f s l) eqn:?; cbn [bind]
           | |- context [bind ?c _] => destruct c eqn:?; cbn [bind]
           end;
    try discriminate;
    try match goal with
        | H : location_at _ _ = Throw _ |- _ =>
            exfalso; exact (location_at_no_throw _ _ _ H)
        | H : value_at _ _ _ = Throw _ |- _ =>
            exfalso; refine (value_at_no_throw _ _ _ _ _ _ H);
            intros []; discriminate
        end;
    intros [= <- <-];
    (split; [reflexivity|]); (split; [assumption|]); (split; [assumption|]);
    assumption.
Qed.

End Conversions.

Lemma gated_keyword (u : Universe) :
  forallb (fun r =>
             if gated u r then
               match nth_error (rev (rhs r)) (keyword_index r) with
               | Some kw => (kw <? yyntokens_) && foreign u kw
                            && String.eqb (mismatch_message r) (keyword_message kw)
               | None => false
               end
             else true) rules = true.
Proof. destruct u; vm_compute; reflexivity. Qed.

Lemma converts_literal :
  forallb (fun r =>
             if converts r then
               match nth_error (rev (rhs r)) (literal_index r) with
               | Some X => (X =? 48) || (X =? 50)
               | None => false
               end
             else true) rules = true.
Proof. vm_compute. reflexivity. Qed.

Lemma wf_kids_all (r : Z) (ks : list tree) :
  forall la i, wf_kids wf r la i ks = true ->
               Forall (fun k => exists la', wf la' k = true) ks.
Proof.
  induction ks as [|k ks IH]; intros la i H; [constructor|].
  rewrite wf_kids_cons in H.
  apply andb_true_iff in H. destruct H as [H Hks].
  apply andb_true_iff in H. destruct H as [_ Hk].
  constructor; [eexists; exact Hk|exact (IH _ _ Hks)].
Qed.

Section Sites.

Variable ctx : EvalContext.

(** The symbol of a leaf among the children of a node, on the stack that
    the action of the node reads. *)
Lemma eval_kids_leaf (a b : list tree) (x : symbol_type)
      (ex ex' : list Token) (st : list stack_symbol_type) :
  eval_kids (eval ctx) (a ++ Leaf x :: b) [] ex = inl (st, ex') ->
  stack_at st (List.length b)
  = Ok (mkStackSymbol 0 (sym_value x) (sym_location x)).
Proof.
  rewrite eval_kids_app.
  destruct (eval_kids (eval ctx) a [] ex) as [[sta exa]|o]; [|discriminate].
  rewrite eval_kids_cons. cbn [eval]. rewrite eval_kids_acc.
  destruct (eval_kids (eval ctx) b [] exa) as [[stb exb]|o] eqn:Hb; [|discriminate].
  intros [= <- _].
  rewrite <- (Nat.add_0_r (List.length b)).
  change 0%nat with (List.length (A := stack_symbol_type) []).
  rewrite <- (eval_kids_length _ _ _ _ _ _ Hb).
  apply stack_at_length.
Qed.

(** The terminals of a right-hand side are leaves among the children. *)
Lemma kids_terminal (ks : list tree) (i : nat) (X : Z) :
  Forall (fun k => exists la, wf la k = true) ks ->
  nth_error (rev (map root ks)) i = Some X -> X < yyntokens_ ->
  exists a x b, ks = a ++ Leaf x :: b /\ List.length b = i /\ type_get x = X.
Proof.
  intros Hall Hn HX. rewrite <- map_rev in Hn.
  rewrite nth_error_map in Hn.
  destruct (nth_error (rev ks) i) as [k|] eqn:Hk; [|discriminate].
  injection Hn as Hroot.
  assert (Hin : In k ks).
  { apply in_rev. eapply nth_error_In. exact Hk. }
  rewrite Forall_forall in Hall. destruct (Hall k Hin) as [la Hwf].
  rewrite <- Hroot in HX. destruct (wf_terminal _ _ Hwf HX) as [x ->].
  apply nth_error_split in Hk. destruct Hk as [l1 [l2 [Hrev Hlen]]].
  exists (rev l2), x, (rev l1).
  split.
  { rewrite <- (rev_involutive ks), Hrev, rev_app_distr. cbn [rev].
    rewrite <- app_assoc. reflexivity. }
  split; [rewrite length_rev; exact Hlen|exact Hroot].
Qed.

(** A translation that is rejected is rejected by the action of a rule, on
    a stack where the terminals of the rule are symbols of the text. *)
Lemma eval_throw_site (t : tree) :
  forall la ex e partial,
    wf la t = true ->
    eval ctx t ex = inr (Rejected e partial) ->
    exists r st ex',
      2 <= r <= 63 /\ action ctx st ex' r = Throw e
      /\ forall i X,
          nth_error (rev (rhs r)) i = Some X -> X < yyntokens_ ->
          exists x, In x (yield t) /\ type_get x = X
                    /\ stack_at st i
                       = Ok (mkStackSymbol 0 (sym_value x) (sym_location x)).
Proof.
  induction t as [x|r kids IH] using tree_ind'; intros la ex e partial Hwf Hev;
    [discriminate|].
  destruct (wf_node _ _ _ Hwf) as [Hr [Hroots [_ Hkids]]].
  pose proof (wf_kids_all _ _ _ _ Hkids) as Hall.
  cbn [eval] in Hev.
  destruct (eval_kids (eval ctx) kids [] ex) as [[st ex']|o] eqn:Hk.
  - exists r, st, ex'. split; [exact Hr|]. split.
    + unfold eval_node in Hev.
      destruct (YYLLOC_DEFAULT st (Z.to_nat yyr2_.[r])) as [loc|e0|] eqn:Hloc;
        cbn [bind] in Hev; try discriminate.
      * destruct (action ctx st ex' r) as [[v l0]|e0|]; cbn [bind] in Hev;
          try discriminate. congruence.
      * exfalso. exact (YYLLOC_DEFAULT_no_throw _ _ _ Hloc).
    + intros i X Hn HX. rewrite <- Hroots in Hn.
      destruct (kids_terminal kids i X Hall Hn HX) as [a [x [b [-> [Hlen Hty]]]]].
      exists x. split.
      { cbn [yield]. rewrite flat_map_app. apply in_or_app. right. left. reflexivity. }
      split; [exact Hty|]. rewrite <- Hlen. exact (eval_kids_leaf _ _ _ _ _ _ Hk).
  - injection Hev as ->. clear Hroots Hkids Hwf.
    assert (Hsite : forall acc0 ex0,
               eval_kids (eval ctx) kids acc0 ex0 = inr (Rejected e partial) ->
               exists k la' ex1, In k kids /\ wf la' k = true
                                 /\ eval ctx k ex1 = inr (Rejected e partial)).
    { clear Hk IH. induction kids as [|k ks IHks]; intros acc0 ex0 H0; [discriminate|].
      rewrite eval_kids_cons in H0. inversion Hall as [|? ? [la' Hwk] Hall']; subst.
      destruct (eval ctx k ex0) as [[e1 ex1]|o] eqn:Hk1.
      - destruct (IHks Hall' _ _ H0) as [k' [la'' [ex2 [Hin H]]]].
        exists k', la'', ex2. split; [right; exact Hin|exact H].
      - injection H0 as ->. exists k, la', ex0.
        split; [left; reflexivity|]. split; assumption. }
    destruct (Hsite _ _ Hk) as [k [la' [ex1 [Hin [Hwk Hek]]]]].
    rewrite Forall_forall in IH.
    destruct (IH k Hin la' ex1 e partial Hwk Hek) as [r' [st [ex' [Hr' [Hact Hterm]]]]].
    exists r', st, ex'. split; [exact Hr'|]. split; [exact Hact|].
    intros i X Hn HX. destruct (Hterm i X Hn HX) as [x [Hx H]].
    exists x. split; [|exact H].
    cbn [yield]. apply in_flat_map. exists k. split; assumption.
Qed.

(** The same for a forest. *)
Lemma forest_throw_site (F : list tree) :
  forall acc ex e partial,
    Forall (fun t => exists la, wf la t = true) F ->
    eval_kids (eval ctx) F acc ex = inr (Rejected e partial) ->
    exists r st ex',
      2 <= r <= 63 /\ action ctx st ex' r = Throw e
      /\ forall i X,
          nth_error (rev (rhs r)) i = Some X -> X < yyntokens_ ->
          exists x, In x (flat_map yield F) /\ type_get x = X
                    /\ stack_at st i
                       = Ok (mkStackSymbol 0 (sym_value x) (sym_location x)).
Proof.
  induction F as [|t F IH]; intros acc ex e partial Hall H; [discriminate|].
  rewrite eval_kids_cons in H. inversion Hall as [|? ? [la Hwf] Hall']; subst.
  destruct (eval ctx t ex) as [[e1 ex1]|o] eqn:Ht.
  - destruct (IH _ _ _ _ Hall' H) as [r [st [ex' [Hr [Hact Hterm]]]]].
    exists r, st, ex'. split; [exact Hr|]. split; [exact Hact|].
    intros i X Hn HX. destruct (Hterm i X Hn HX) as [x [Hx Hs]].
    exists x. split; [|exact Hs]. cbn [flat_map]. apply in_or_app. right. exact Hx.
  - injection H as ->.
    destruct (eval_throw_site t la ex e partial Hwf Ht)
      as [r [st [ex' [Hr [Hact Hterm]]]]].
    exists r, st, ex'. split; [exact Hr|]. split; [exact Hact|].
    intros i X Hn HX. destruct (Hterm i X Hn HX) as [x [Hx Hs]].
    exists x. split; [|exact Hs]. cbn [flat_map]. apply in_or_app. left. exact Hx.
Qed.

End Sites.

(** * More properties of the parser *)

Lemma lexed_all (w : list symbol_type) :
  forallb lexed w = true -> Forall (fun x => lexed x = true) w.
Proof. intros H. apply Forall_forall. apply forallb_forall. exact H. Qed.

(** X1.  [parse ()] always leaves its loop: on a text of [n] lexed symbols,
    whatever the context, it returns the program or throws within
    [16 * n + 16] turns of the loop, and never runs into undefined
    behaviour on the way. *)
Theorem parse_halts (ctx : EvalContext) (l : lexer) :
  forallb lexed (tokens l) = true ->
  exists n,
    (n <= 16 * List.length (tokens l) + 16)%nat
    /\ ((exists program,
            steps ctx n (initial l) = inr (Accepted program)
            /\ parse ctx l = Accepted program)
        \/ (exists e partial,
               steps ctx n (initial l) = inr (Rejected e partial)
               /\ parse ctx l = Rejected e partial)).
Proof.
  intros Hl.
  pose proof (parse_terminates ctx l) as Hn.
  destruct (run_steps ctx (fuel_for l) (initial l) (parse ctx l) eq_refl Hn)
    as [n [Hle Hst]].
  exists n. split; [exact Hle|].
  pose proof (parse_forest ctx l (lexed_all _ Hl)) as H.
  destruct (parse ctx l) as [program|e partial| |]; try contradiction.
  - left. exists program. split; [exact Hst|reflexivity].
  - right. exists e, partial. split; [exact Hst|reflexivity].
Qed.

Lemma parse_halts_witness :
  exists n,
    (n <= 16 * List.length (tokens relay4_1_exists) + 16)%nat
    /\ ((exists program,
            steps (spec_context V6 no_names) n (initial relay4_1_exists)
            = inr (Accepted program)
            /\ parse (spec_context V6 no_names) relay4_1_exists = Accepted program)
        \/ (exists e partial,
               steps (spec_context V6 no_names) n (initial relay4_1_exists)
               = inr (Rejected e partial)
               /\ parse (spec_context V6 no_names) relay4_1_exists
                  = Rejected e partial)).
Proof.
  apply (parse_halts (spec_context V6 no_names) relay4_1_exists).
  vm_compute. reflexivity.
Defined.

(** X2.  On a text of lexed symbols (terminals other than the end of the
    file, each with the value of its type) [parse ()] never reads below the
    bottom of its stack and never reads a semantic value at another type
    than the one it holds: it returns the program or throws. *)
Theorem parse_safe (ctx : EvalContext) (l : lexer) :
  forallb lexed (tokens l) = true ->
  (exists program, parse ctx l = Accepted program)
  \/ (exists e partial, parse ctx l = Rejected e partial).
Proof.
  intros Hl. pose proof (parse_forest ctx l (lexed_all _ Hl)) as H.
  destruct (parse ctx l) as [program|e partial| |]; try contradiction.
  - left. exists program. reflexivity.
  - right. exists e, partial. reflexivity.
Qed.

Lemma parse_safe_witness :
  (exists program, parse (spec_context V4 no_names) option_1_exists = Accepted program)
  \/ (exists e partial,
         parse (spec_context V4 no_names) option_1_exists = Rejected e partial).
Proof.
  apply (parse_safe (spec_context V4 no_names) option_1_exists).
  vm_compute. reflexivity.
Defined.

(** X3.  The parser accepts exactly the texts of the parse trees of the
    grammar in which operands respect precedence, and the program it
    leaves is the post-order translation of the tree: a text of lexed
    symbols is accepted with [program] if and only if it is the text of a
    well-formed instance of [start] whose translation is [program]. *)
Theorem accepts_parse_trees (ctx : EvalContext) (l : lexer) (program : list Token) :
  forallb lexed (tokens l) = true ->
  parse ctx l = Accepted program
  <-> exists t, wf_start t = true /\ yield t = tokens l
                /\ compile ctx t = Accepted program.
Proof.
  intros Hl. split.
  - intros Hp. pose proof (parse_forest ctx l (lexed_all _ Hl)) as H.
    rewrite Hp in H. exact H.
  - intros [t [Hwf [Hy Hc]]]. rewrite <- Hc, <- (parse_tree ctx t (eof l) Hwf), Hy.
    destruct l; reflexivity.
Qed.

Lemma accepts_parse_trees_witness :
  parse (spec_context V4 no_names) option_1_exists
  = Accepted [TokenOption 1 TokenOption.EXISTS]
  <-> exists t, wf_start t = true /\ yield t = tokens option_1_exists
                /\ compile (spec_context V4 no_names) t
                   = Accepted [TokenOption 1 TokenOption.EXISTS].
Proof.
  apply (accepts_parse_trees (spec_context V4 no_names) option_1_exists).
  vm_compute. reflexivity.
Defined.

Lemma in_text (l : lexer) (F : list tree) (w : list symbol_type) (x : symbol_type) :
  tokens l = flat_map yield F ++ w -> In x (flat_map yield F) -> In x (tokens l).
Proof. intros -> H. apply in_or_app. left. exact H. Qed.

(** X4.  A protocol-family error comes from a keyword of the text: when the
    parse of a text of lexed symbols is rejected with a semantic parse
    error, the text holds a keyword of the family that the context does
    not have ([relay6] or [pkt6] under V4, [relay4] or [pkt4] under V6),
    the error is located at that keyword, and its message is the message of
    that keyword. *)
Theorem family_error_source (ctx : EvalContext) (l : lexer) (loc : location_type)
        (msg : string) (partial : list Token) :
  forallb lexed (tokens l) = true ->
  parse ctx l = Rejected (ParseError SemanticError loc msg) partial ->
  exists x, In x (tokens l)
            /\ foreign (getUniverse ctx) (type_get x) = true
            /\ sym_location x = loc
            /\ msg = keyword_message (type_get x).
Proof.
  intros Hl Hp. pose proof (parse_forest ctx l (lexed_all _ Hl)) as H.
  rewrite Hp in H. destruct H as [F [w [Htok [HF Hev]]]]. cbn [semantic] in Hev.
  destruct (forest_throw_site ctx F _ _ _ _ HF Hev) as [r [st [ex' [Hr [Hact Hterm]]]]].
  destruct (action_throws ctx r st ex' _ ltac:(lia) Hact)
    as [[loc0 [lit Hc]]|[Hg [loc0 [He Hloc]]]]; [discriminate|].
  injection He as <- ->.
  pose proof (forall_rules _ (gated_keyword (getUniverse ctx)) r Hr) as Hk.
  cbv beta in Hk. rewrite Hg in Hk.
  destruct (nth_error (rev (rhs r)) (keyword_index r)) as [kw|] eqn:Hn; [|discriminate].
  apply andb_true_iff in Hk. destruct Hk as [Hk Hmsg].
  apply andb_true_iff in Hk. destruct Hk as [Hlt Hfor].
  apply String.eqb_eq in Hmsg.
  destruct (Hterm _ _ Hn ltac:(lia)) as [x [Hx [Hty Hst]]].
  exists x. split; [exact (in_text l F w x Htok Hx)|].
  rewrite Hty. split; [exact Hfor|]. split; [|exact Hmsg].
  unfold location_at in Hloc. rewrite Hst in Hloc. cbn [bind location] in Hloc.
  congruence.
Qed.

Lemma family_error_source_witness :
  exists x, In x (tokens relay4_1_exists)
            /\ foreign V6 (type_get x) = true
            /\ sym_location x = columns 1 7
            /\ "relay4 can only be used in DHCPv4." = keyword_message (type_get x).
Proof.
  apply (family_error_source (spec_context V6 no_names) relay4_1_exists
           (columns 1 7) "relay4 can only be used in DHCPv4." []);
    vm_compute; reflexivity.
Defined.

(** X5.  A conversion error comes from a literal of the text: when the
    parse of a text of lexed symbols is rejected because a conversion
    failed, the text holds an integer or an option name with that spelling
    at that location, and the conversion that the rule of the literal calls
    refuses it there. *)
Theorem conversion_error_source (ctx : EvalContext) (l : lexer) (loc : location_type)
        (literal : string) (partial : list Token) :
  forallb lexed (tokens l) = true ->
  parse ctx l = Rejected (ConversionError loc literal) partial ->
  exists x r, In x (tokens l)
              /\ (type_get x = 48 \/ type_get x = 50)
              /\ sym_value x = v_string literal
              /\ sym_location x = loc
              /\ converts r = true
              /\ conversion ctx r literal loc = None.
Proof.
  intros Hl Hp. pose proof (parse_forest ctx l (lexed_all _ Hl)) as H.
  rewrite Hp in H. destruct H as [F [w [Htok [HF Hev]]]]. cbn [semantic] in Hev.
  destruct (forest_throw_site ctx F _ _ _ _ HF Hev) as [r [st [ex' [Hr [Hact Hterm]]]]].
  destruct (action_conversion ctx r st ex' loc literal ltac:(lia) Hact)
    as [Hc [Hval [Hloc Hnone]]].
  pose proof (forall_rules _ converts_literal r Hr) as Hk.
  cbv beta in Hk. rewrite Hc in Hk.
  destruct (nth_error (rev (rhs r)) (literal_index r)) as [X|] eqn:Hn; [|discriminate].
  assert (HX : X = 48 \/ X = 50).
  { apply orb_true_iff in Hk. destruct Hk as [Hk|Hk]; apply Z.eqb_eq in Hk; tauto. }
  destruct (Hterm _ _ Hn ltac:(unfold yyntokens_; lia)) as [x [Hx [Hty Hst]]].
  exists x, r. split; [exact (in_text l F w x Htok Hx)|].
  rewrite Hty. split; [exact HX|].
  unfold value_at in Hval. unfold location_at in Hloc.
  rewrite Hst in Hval, Hloc. cbn [bind value location] in Hval, Hloc.
  split.
  { destruct (sym_value x); try discriminate. cbn in Hval. congruence. }
  split; [congruence|]. split; assumption.
Qed.

Lemma conversion_error_source_witness :
  exists x r, In x (tokens option_70000_exists)
              /\ (type_get x = 48 \/ type_get x = 50)
              /\ sym_value x = v_string "70000"
              /\ sym_location x = columns 8 13
              /\ converts r = true
              /\ conversion (spec_context V4 no_names) r "70000" (columns 8 13) = None.
Proof.
  apply (conversion_error_source (spec_context V4 no_names) option_70000_exists
           (columns 8 13) "70000" []);
    vm_compute; reflexivity.
Defined.

Lemma well_lexed_yield (t : tree) :
  Forall (fun x => carries (type_get x) (sym_value x) = true) (yield t) ->
  well_lexed t = true.
Proof.
  induction t as [x|r kids IH] using tree_ind'; intros H.
  - inversion H; assumption.
  - cbn [well_lexed yield] in *. apply forallb_forall. intros k Hk.
    rewrite Forall_forall in IH. apply (IH k Hk).
    apply Forall_forall. intros x Hx. rewrite Forall_forall in H. apply H.
    apply in_flat_map. exists k. split; assumption.
Qed.

Lemma lexed_carries (w : list symbol_type) :
  forallb lexed w = true ->
  Forall (fun x => carries (type_get x) (sym_value x) = true) w.
Proof.
  intros H. apply Forall_forall. intros x Hx.
  rewrite forallb_forall in H. specialize (H x Hx). unfold lexed in H.
  apply andb_true_iff in H. tauto.
Qed.

(** X6.  Whether a text is grammatical does not depend on the context: a
    text of lexed symbols that is accepted under one context is, under any
    other context (another protocol family, other conversions), accepted
    as well or rejected by a semantic check, never by a syntax error. *)
Theorem acceptance_is_syntactic (ctx ctx' : EvalContext) (l : lexer)
        (program : list Token) :
  forallb lexed (tokens l) = true ->
  parse ctx l = Accepted program ->
  (exists program', parse ctx' l = Accepted program')
  \/ (exists e partial, parse ctx' l = Rejected e partial /\ semantic e = true).
Proof.
  intros Hl Hp. pose proof (parse_forest ctx l (lexed_all _ Hl)) as H.
  rewrite Hp in H. destruct H as [t [Hwf [Hy _]]].
  assert (Hpt : parse ctx' l = compile ctx' t).
  { rewrite <- (parse_tree ctx' t (eof l) Hwf), Hy. destruct l; reflexivity. }
  rewrite Hpt. unfold compile.
  unfold wf_start in Hwf. apply andb_true_iff in Hwf. destruct Hwf as [_ Hwf].
  assert (Hwl : well_lexed t = true).
  { apply well_lexed_yield. rewrite Hy. exact (lexed_carries _ Hl). }
  pose proof (eval_sound ctx' t yyeof_ [] Hwf Hwl) as Hs. unfold sound in Hs.
  destruct (eval ctx' t []) as [[sym program']|o].
  - left. exists program'. reflexivity.
  - destruct o as [|e partial| |]; try contradiction.
    right. exists e, partial. split; [reflexivity|exact Hs].
Qed.

Lemma acceptance_is_syntactic_witness :
  (exists program', parse (spec_context V6 no_names) relay4_1_exists = Accepted program')
  \/ (exists e partial,
         parse (spec_context V6 no_names) relay4_1_exists = Rejected e partial
         /\ semantic e = true).
Proof.
  apply (acceptance_is_syntactic
           (spec_context V4 no_names) (spec_context V6 no_names)
           relay4_1_exists [TokenRelay4Option 1 TokenOption.EXISTS]);
    vm_compute; reflexivity.
Defined.

Lemma steps_snoc (ctx : EvalContext) (n : nat) :
  forall p, steps ctx (S n) p
            = match steps ctx n p with
              | inl q => step ctx q
              | inr o => inr o
              end.
Proof.
  induction n as [|n IH]; intros p.
  - cbn [steps]. destruct (step ctx p); reflexivity.
  - cbn [steps]. destruct (step ctx p) as [p'|o]; [|reflexivity].
    exact (IH p').
Qed.

Lemma step_depth (ctx : EvalContext) (p p' : parser) :
  step ctx p = inl p' ->
  (List.length (yystack_ p') <= S (List.length (yystack_ p)))%nat.
Proof.
  intros Hs.
  destruct (yystack_ p) as [|top st] eqn:Hst.
  { unfold step in Hs. rewrite Hst in Hs. discriminate. }
  destruct (Z.eq_dec (state top) yyfinal_) as [Hf|Hf].
  { rewrite (step_final ctx p top st Hst Hf) in Hs. discriminate. }
  rewrite (step_decide ctx p top st Hst Hf) in Hs.
  destruct (decide (state top) (type_get (peek p))) as [s'|r|]; try discriminate.
  - injection Hs as <-. cbn [shifted yystack_ List.length]. rewrite Hst. cbn. lia.
  - assert (Hq : exists q, yyreduce ctx r q = inl p' /\ yystack_ q = yystack_ p).
    { destruct (yy_pact_value_is_default_ yypact_.[state top]);
        eexists; (split; [exact Hs|reflexivity]). }
    destruct Hq as [q [Hred Hq]]. unfold yyreduce in Hred.
    destruct (stack_at (yystack_ q) (Z.to_nat yyr2_.[r])) as [below| |];
      cbn [bind] in Hred; try discriminate.
    destruct (YYLLOC_DEFAULT (yystack_ q) (Z.to_nat yyr2_.[r])) as [loc| |];
      cbn [bind] in Hred; try discriminate.
    destruct (action ctx (yystack_ q) (expression q) r) as [[v ex']| |];
      cbn [bind] in Hred; try discriminate.
    injection Hred as <-. cbn [yystack_ List.length].
    rewrite length_skipn, Hq, Hst. cbn [List.length]. lia.
Qed.

Section Depth.

Variable ctx : EvalContext.
Variable l : lexer.

Lemma invariant_depth (p : parser) (ts : list tree) :
  invariant ctx l p ts ->
  (List.length (yystack_ p) <= List.length (tokens l) + 1)%nat.
Proof.
  intros Hinv. destruct (invariant_forest ctx l p ts Hinv) as [HF [_ [_ [w [Htok _]]]]].
  destruct Hinv as [es [bottom [w' [Hst [_ [Hg _]]]]]].
  rewrite Hst, length_app, length_rev, (grown_length _ _ _ _ Hg), Htok, length_app.
  cbn [List.length].
  assert (H : (List.length ts <= List.length (flat_map yield ts))%nat).
  { clear - HF. induction HF as [|t ts [la Hwf] _ IH]; [cbn; lia|].
    cbn [flat_map List.length]. rewrite length_app.
    pose proof (wf_yield t la Hwf) as Hne.
    destruct (yield t); [congruence|cbn [List.length]; lia]. }
  lia.
Qed.

Lemma steps_forest (n : nat) :
  forall p,
    Forall (fun x => lexed x = true) (tokens l) ->
    steps ctx n (initial l) = inl p ->
    (exists ts, invariant ctx l p ts)
    \/ (exists q ts, invariant ctx l q ts /\ p = shifted yyfinal_ q).
Proof.
  induction n as [|n IH]; intros p Hl Hs.
  - injection Hs as <-. left. exists []. exact (invariant_initial ctx l Hl).
  - rewrite steps_snoc in Hs.
    destruct (steps ctx n (initial l)) as [q|o] eqn:Hq; [|discriminate].
    destruct (IH q Hl eq_refl) as [[ts Hinv]|[q0 [ts [_ Hf]]]].
    + pose proof (invariant_turn ctx l q ts Hinv) as Ht. rewrite Hs in Ht.
      destruct Ht as [Hinv'|[Hf _]]; [left; exact Hinv'|right].
      exists q, ts. split; [exact Hinv|exact Hf].
    + exfalso.
      rewrite (step_final ctx q _ _ (f_equal yystack_ Hf) eq_refl) in Hs.
      discriminate.
Qed.

End Depth.

(** X7.  The stack never holds more symbols than the text has, the bottom
    and the end of the file apart: after any number of turns of the loop on
    a text of [n] lexed symbols the stack has at most [n + 2] entries. *)
Theorem stack_depth (ctx : EvalContext) (l : lexer) (n : nat) (p : parser) :
  forallb lexed (tokens l) = true ->
  steps ctx n (initial l) = inl p ->
  (List.length (yystack_ p) <= List.length (tokens l) + 2)%nat.
Proof.
  intros Hl Hs.
  destruct (steps_forest ctx l n p (lexed_all _ Hl) Hs)
    as [[ts Hinv]|[q [ts [Hinv ->]]]].
  - pose proof (invariant_depth ctx l p ts Hinv). lia.
  - pose proof (invariant_depth ctx l q ts Hinv).
    cbn [shifted yystack_ List.length]. lia.
Qed.

Lemma stack_depth_witness :
  exists p,
    steps (spec_context V4 no_names) 9 (initial option_1_exists) = inl p
    /\ (List.length (yystack_ p) <= List.length (tokens option_1_exists) + 2)%nat.
Proof.
  eexists. split; [vm_compute; reflexivity|].
  apply (stack_depth (spec_context V4 no_names) option_1_exists 9);
    vm_compute; reflexivity.
Defined.

(** X8.  Every state on the stack is a state of the automaton, whatever the
    symbols of the text are: after any number of turns of the loop the
    states on the stack are indices of [yypact_], [yydefact_] and
    [yystos_], which are equally long. *)
Theorem states_in_range (ctx : EvalContext) (l : lexer) (n : nat) (p : parser) :
  steps ctx n (initial l) = inl p ->
  Forall (fun e => 0 <= state e < Z.of_nat (List.length yypact_)) (yystack_ p)
  /\ List.length yydefact_ = List.length yypact_
  /\ List.length yystos_ = List.length yypact_.
Proof.
  intros Hs. split; [|split; reflexivity].
  assert (Hv : valid p).
  { revert p Hs. induction n as [|n IH]; intros p Hs.
    - injection Hs as <-. apply valid_initial.
    - rewrite steps_snoc in Hs.
      destruct (steps ctx n (initial l)) as [q|o]; [|discriminate].
      exact (proj1 (step_measure ctx q p (IH q eq_refl) Hs)). }
  unfold valid in Hv. apply Forall_forall. intros e He.
  rewrite Forall_forall in Hv. specialize (Hv e He).
  unfold valid_state in Hv. change (Z.of_nat (List.length yypact_)) with 166. lia.
Qed.

Lemma states_in_range_witness :
  exists p,
    steps (spec_context V4 no_names) 9 (initial option_1_exists) = inl p
    /\ Forall (fun e => 0 <= state e < Z.of_nat (List.length yypact_)) (yystack_ p).
Proof.
  eexists. split; [vm_compute; reflexivity|].
  apply (states_in_range (spec_context V4 no_names) option_1_exists 9).
  vm_compute. reflexivity.
Defined.

Section Program.

Variable ctx : EvalContext.

Lemma yyreduce_with_program (ex : list Token) (r : Z) (p : parser) :
  yyreduce ctx r (with_program ex p)
  = match yyreduce ctx r p with
    | inl p' => inl (with_program ex p')
    | inr o => inr (prepend_outcome ex o)
    end.
Proof.
  unfold yyreduce, with_program. cbn [yystack_ yyla lex expression].
  destruct (stack_at (yystack_ p) (Z.to_nat yyr2_.[r])) as [below| |];
    cbn [bind]; try reflexivity.
  destruct (YYLLOC_DEFAULT (yystack_ p) (Z.to_nat yyr2_.[r])) as [loc| |];
    cbn [bind]; try reflexivity.
  rewrite (action_app ctx r (yystack_ p) (ex ++ expression p)).
  rewrite (action_app ctx r (yystack_ p) (expression p)).
  destruct (action ctx (yystack_ p) [] r) as [[v l0]| |]; cbn [bind fst snd];
    try reflexivity.
  rewrite <- app_assoc. reflexivity.
Qed.

Lemma yyerrlab_with_program (ex : list Token) (p : parser) :
  yyerrlab (with_program ex p) = prepend_outcome ex (yyerrlab p).
Proof.
  unfold yyerrlab, with_program. cbn [yystack_ yyla expression].
  destruct (yystack_ p); reflexivity.
Qed.

Lemma step_with_program (ex : list Token) (p : parser) :
  step ctx (with_program ex p)
  = match step ctx p with
    | inl p' => inl (with_program ex p')
    | inr o => inr (prepend_outcome ex o)
    end.
Proof.
  destruct (yystack_ p) as [|top st] eqn:Hst.
  { unfold step, with_program. cbn [yystack_]. rewrite Hst. reflexivity. }
  destruct (Z.eq_dec (state top) yyfinal_) as [Hf|Hf].
  { rewrite (step_final ctx p top st Hst Hf).
    rewrite (step_final ctx (with_program ex p) top st Hst Hf). reflexivity. }
  rewrite (step_decide ctx p top st Hst Hf).
  rewrite (step_decide ctx (with_program ex p) top st Hst Hf).
  change (peek (with_program ex p)) with (peek p).
  destruct (decide (state top) (type_get (peek p))) as [s'|r|].
  - reflexivity.
  - destruct (yy_pact_value_is_default_ yypact_.[state top]).
    + apply yyreduce_with_program.
    + exact (yyreduce_with_program ex r (read_lookahead p)).
  - destruct (yy_pact_value_is_default_ yypact_.[state top]).
    + rewrite yyerrlab_with_program. reflexivity.
    + f_equal. exact (yyerrlab_with_program ex (read_lookahead p)).
Qed.

(** X9.  The parser never reads the program: it only appends to it.  A run
    that starts with [ex] before the program takes the same turns as the
    run without, and ends the same way, with [ex] before the program. *)
Theorem program_not_read (ex : list Token) (n : nat) (p : parser) :
  steps ctx n (with_program ex p)
  = match steps ctx n p with
    | inl p' => inl (with_program ex p')
    | inr o => inr (prepend_outcome ex o)
    end.
Proof.
  revert p. induction n as [|n IH]; intros p; [reflexivity|].
  cbn [steps]. rewrite step_with_program.
  destruct (step ctx p) as [p'|o]; [apply IH|reflexivity].
Qed.

Lemma step_fits (p : parser) :
  Forall (fits_in ctx) (expression p) ->
  match step ctx p with
  | inl p' => Forall (fits_in ctx) (expression p')
  | inr (Accepted program) | inr (Rejected _ program) =>
      Forall (fits_in ctx) program
  | inr _ => True
  end.
Proof.
  intros Hex.
  destruct (yystack_ p) as [|top st] eqn:Hst.
  { unfold step. rewrite Hst. exact I. }
  destruct (Z.eq_dec (state top) yyfinal_) as [Hf|Hf].
  { rewrite (step_final ctx p top st Hst Hf). exact Hex. }
  rewrite (step_decide ctx p top st Hst Hf).
  destruct (decide (state top) (type_get (peek p))) as [s'|r|].
  - exact Hex.
  - assert (Hq : forall q, expression q = expression p ->
                           match yyreduce ctx r q with
                           | inl p' => Forall (fits_in ctx) (expression p')
                           | inr (Accepted program) | inr (Rejected _ program) =>
                               Forall (fits_in ctx) program
                           | inr _ => True
                           end).
    { intros q Hq. destruct (yyreduce ctx r q) as [p'|o] eqn:Hred.
      - destruct (yyreduce_expression ctx r q p' Hred) as [l0 [-> [_ Hl0]]].
        apply Forall_app. rewrite Hq. split; assumption.
      - destruct o as [program|e program| |]; try exact I.
        + unfold yyreduce in Hred.
          destruct (stack_at (yystack_ q) (Z.to_nat yyr2_.[r])) as [below| |];
            cbn [bind] in Hred; try discriminate.
          destruct (YYLLOC_DEFAULT (yystack_ q) (Z.to_nat yyr2_.[r])) as [loc| |];
            cbn [bind] in Hred; try discriminate.
          destruct (action ctx (yystack_ q) (expression q) r) as [[v ex']| |];
            cbn [bind] in Hred; discriminate.
        + rewrite (yyreduce_rejected ctx r q e program Hred), Hq. exact Hex. }
    destruct (yy_pact_value_is_default_ yypact_.[state top]); apply Hq; reflexivity.
  - destruct (yy_pact_value_is_default_ yypact_.[state top]);
      unfold yyerrlab; cbn [read_lookahead yystack_ expression]; rewrite Hst;
      exact Hex.
Qed.

Lemma ends_fits (p : parser) (o : outcome) :
  ends ctx p o -> Forall (fits_in ctx) (expression p) ->
  match o with
  | Accepted program | Rejected _ program => Forall (fits_in ctx) program
  | _ => True
  end.
Proof.
  induction 1 as [p o Hs|p p' o Hs _ IH]; intros Hex;
    pose proof (step_fits p Hex) as H; rewrite Hs in H; [exact H|exact (IH H)].
Qed.

(** X10.  However [parse ()] ends, every token of the program fits the
    protocol family of the context: no [relay6], [pkt6] or relay6-field
    token under V4, no [relay4] or [pkt4] token under V6, and the vendor
    tokens store the family of the context.  The symbols of the text need
    not even be lexed. *)
Theorem program_fits_family (l : lexer) :
  match parse ctx l with
  | Accepted program | Rejected _ program => Forall (fits_in ctx) program
  | _ => True
  end.
Proof.
  apply (ends_fits (initial l) (parse ctx l) (ends_parse ctx l)). constructor.
Qed.

End Program.

(** X11.  The terminals that a verbose syntax-error message may list as
    expected are the terminals that the parser shifts in the state of the
    error, no other and no less: [yysyntax_error_] builds its message from
    the terminals of [expected], and a terminal is among them if and only
    if [parse ()] decides to shift it in that state. *)
Theorem expected_are_shifts (s : Z) (la : symbol_type) (x : Z) :
  valid_state s = true ->
  yysyntax_error_ s (Some la) = syntax_message s (type_get la)
  /\ (In x (expected s)
      <-> 0 <= x < yyntokens_ /\ exists s', decide s x = Shift s').
Proof.
  intros Hs. split; [exact (yysyntax_error_message s la Hs)|].
  unfold expected. rewrite filter_In, Zrange_In.
  pose proof (forall_states _ shiftable_decides s Hs) as H. cbv beta in H.
  rewrite forallb_forall in H.
  split.
  - intros [Hx Hsh]. split; [exact Hx|].
    specialize (H x (proj2 (Zrange_In _ _ _) Hx)). rewrite Hsh in H.
    destruct (decide s x) as [s'| |]; try discriminate. exists s'. reflexivity.
  - intros [Hx [s' Hd]]. split; [exact Hx|].
    specialize (H x (proj2 (Zrange_In _ _ _) Hx)). rewrite Hd in H.
    destruct (shiftable s x); [reflexivity|discriminate].
Qed.

Lemma expected_are_shifts_witness :
  In token.AND (expected 84)
  <-> 0 <= token.AND < yyntokens_ /\ exists s', decide 84 token.AND = Shift s'.
Proof.
  apply (expected_are_shifts 84 (make token.RPAREN (columns 1 2)) token.AND).
  reflexivity.
Defined.

Lemma append_string_assoc (a b c : string) :
  ((a ++ b) ++ c)%string = (a ++ b ++ c)%string.
Proof. induction a as [|x a IH]; cbn; [reflexivity|]. rewrite IH. reflexivity. Qed.

Lemma strip_quotes_plain (s : string) :
  forall yyr rest,
    plain s = true ->
    strip_quotes (s ++ String dquote rest)%string yyr = Some (yyr ++ s)%string.
Proof.
  induction s as [|c s IH]; intros yyr rest Hp.
  - cbn. rewrite append_empty_r. reflexivity.
  - cbn [plain] in Hp. apply andb_true_iff in Hp. destruct Hp as [Hc Hp].
    apply negb_true_iff in Hc.
    apply orb_false_iff in Hc. destruct Hc as [Hc Hq].
    apply orb_false_iff in Hc. destruct Hc as [Hc Hb].
    cbn [append strip_quotes]. rewrite Hc, Hb, Hq.
    rewrite (IH _ rest Hp), append_string_assoc. reflexivity.
Qed.

Lemma strip_quotes_special (s : string) :
  forall yyr c rest,
    plain s = true -> c = "'"%char \/ c = ","%char ->
    strip_quotes (s ++ String c rest)%string yyr = None.
Proof.
  induction s as [|c0 s IH]; intros yyr c rest Hp Hc.
  - cbn. destruct Hc as [-> | ->]; reflexivity.
  - cbn [plain] in Hp. apply andb_true_iff in Hp. destruct Hp as [Hc0 Hp].
    apply negb_true_iff in Hc0.
    apply orb_false_iff in Hc0. destruct Hc0 as [Hc0 Hq].
    apply orb_false_iff in Hc0. destruct Hc0 as [Hc0 Hb].
    cbn [append strip_quotes]. rewrite Hc0, Hb, Hq.
    exact (IH _ c rest Hp Hc).
Qed.

(** X12.  [yytnamerr_] undoes the quoting of a symbol name, unless the name
    has a character that needs the quotes: a name without apostrophe,
    comma, backslash and double quote that is written between double quotes
    comes back without them, and a quoted name in which an apostrophe or a
    comma follows such characters comes back as it is, with its quotes. *)
Theorem yytnamerr_quoted (s : string) :
  plain s = true ->
  yytnamerr_ (quoted s) = s
  /\ forall c rest,
      c = "'"%char \/ c = ","%char ->
      yytnamerr_ (quoted (s ++ String c rest)) = quoted (s ++ String c rest).
Proof.
  intros Hp. split.
  - unfold yytnamerr_, quoted.
    replace (Ascii.eqb dquote dquote) with true by reflexivity.
    rewrite (strip_quotes_plain s "" EmptyString Hp). reflexivity.
  - intros c rest Hc. unfold yytnamerr_, quoted.
    replace (Ascii.eqb dquote dquote) with true by reflexivity.
    rewrite append_string_assoc. cbn [append].
    rewrite (strip_quotes_special s "" c _ Hp Hc). reflexivity.
Qed.

Lemma yytnamerr_quoted_witness : yytnamerr_ (quoted "end of file") = "end of file".
Proof. apply (yytnamerr_quoted "end of file"). reflexivity. Defined.

Lemma size_rules :
  forallb (fun r =>
             Nat.leb ((if appends_token r then 1 else 0) + slack yyr1_.[r])
                     (list_sum (map slack (rhs r)))
             && (if needs yyr1_.[r]
                 then appends_token r || existsb needs (rhs r)
                 else true)) rules = true.
Proof. vm_compute. reflexivity. Qed.

Lemma list_sum_cons (x : nat) (l : list nat) :
  list_sum (x :: l) = (x + list_sum l)%nat.
Proof. reflexivity. Qed.

Section Size.

Variable ctx : EvalContext.

Lemma eval_kids_emits (ks : list tree) :
  Forall (fun t => forall ex sym ex',
              eval ctx t ex = inl (sym, ex') ->
              List.length ex' = (List.length ex + emits t)%nat) ks ->
  forall acc ex st ex',
    eval_kids (eval ctx) ks acc ex = inl (st, ex') ->
    List.length ex' = (List.length ex + list_sum (map emits ks))%nat.
Proof.
  induction 1 as [|k ks Hk _ IH]; intros acc ex st ex' H.
  - injection H as _ <-. cbn. lia.
  - rewrite eval_kids_cons in H.
    destruct (eval ctx k ex) as [[e ex1]|o] eqn:Hev; [|discriminate].
    rewrite (IH _ _ _ _ H), (Hk _ _ _ Hev). cbn [map]. rewrite list_sum_cons. lia.
Qed.

(** The translation of a tree appends one token for each node whose rule
    appends one. *)
Lemma eval_emits (t : tree) :
  forall ex sym ex',
    eval ctx t ex = inl (sym, ex') ->
    List.length ex' = (List.length ex + emits t)%nat.
Proof.
  induction t as [x|r kids IH] using tree_ind'; intros ex sym ex' H.
  - injection H as _ <-. cbn. lia.
  - cbn [eval] in H.
    destruct (eval_kids (eval ctx) kids [] ex) as [[st ex1]|o] eqn:Hk; [|discriminate].
    pose proof (eval_kids_emits kids IH _ _ _ _ Hk) as Hlen.
    unfold eval_node in H.
    destruct (YYLLOC_DEFAULT st (Z.to_nat yyr2_.[r])) as [loc| |]; cbn [bind] in H;
      try discriminate.
    destruct (action ctx st ex1 r) as [[v ex2]| |] eqn:Ha; cbn [bind] in H;
      try discriminate.
    injection H as _ <-.
    destruct (action_step ctx r st ex1 ex2 v Ha) as [l0 [-> [Hone _]]].
    rewrite length_app, Hlen. cbn [emits].
    destruct (appends_token r); [destruct Hone as [tok ->]|subst l0]; cbn; lia.
Qed.

End Size.

(** The text of a tree is at least as long as what it appends. *)
Lemma emits_bound (t : tree) :
  forall la, wf la t = true ->
             (emits t + slack (root t) <= List.length (yield t))%nat.
Proof.
  induction t as [x|r kids IH] using tree_ind'; intros la Hwf.
  - pose proof (wf_root _ _ Hwf) as Hr. cbn [root] in Hr.
    cbn [emits yield root List.length]. unfold slack.
    replace (type_get x <? yyntokens_) with true by (symmetry; lia). lia.
  - destruct (wf_node _ _ _ Hwf) as [Hr [Hroots [_ Hkids]]].
    pose proof (forall_rules _ size_rules r Hr) as Ht. cbv beta in Ht.
    apply andb_true_iff in Ht. destruct Ht as [Ht _].
    apply Nat.leb_le in Ht. rewrite <- Hroots in Ht.
    pose proof (wf_kids_all _ _ _ _ Hkids) as Hall.
    cbn [emits yield root].
    assert (Hsum : (list_sum (map emits kids) + list_sum (map slack (map root kids))
                    <= List.length (flat_map yield kids))%nat).
    { clear - IH Hall. induction kids as [|k ks IHks]; [cbn; lia|].
      inversion IH as [|? ? Hk IH']; subst.
      inversion Hall as [|? ? [la Hwk] Hall']; subst.
      specialize (Hk la Hwk). specialize (IHks IH' Hall').
      cbn [map flat_map]. rewrite !list_sum_cons, length_app. lia. }
    lia.
Qed.

(** An expression appends at least one token. *)
Lemma emits_needed (t : tree) :
  forall la, wf la t = true -> needs (root t) = true -> (1 <= emits t)%nat.
Proof.
  induction t as [x|r kids IH] using tree_ind'; intros la Hwf Hn.
  - pose proof (wf_root _ _ Hwf) as Hr. cbn [root] in Hr, Hn.
    unfold needs in Hn. unfold yyntokens_ in Hr. lia.
  - destruct (wf_node _ _ _ Hwf) as [Hr [Hroots [_ Hkids]]].
    pose proof (forall_rules _ size_rules r Hr) as Ht. cbv beta in Ht.
    apply andb_true_iff in Ht. destruct Ht as [_ Ht].
    cbn [root] in Hn. rewrite Hn in Ht. cbn [emits].
    destruct (appends_token r); [lia|]. cbn [orb] in Ht.
    rewrite <- Hroots in Ht. apply existsb_exists in Ht.
    destruct Ht as [X [HX HnX]]. apply in_map_iff in HX.
    destruct HX as [k [<- Hk]].
    pose proof (wf_kids_all _ _ _ _ Hkids) as Hall.
    rewrite Forall_forall in IH, Hall. destruct (Hall k Hk) as [la' Hwk].
    pose proof (IH k Hk la' Hwk HnX) as H1.
    assert (Hle : (emits k <= list_sum (map emits kids))%nat).
    { clear - Hk. induction kids as [|k0 ks IHks]; [contradiction|].
      cbn [map]. rewrite list_sum_cons. destruct Hk as [->|Hk]; [lia|].
      specialize (IHks Hk). lia. }
    lia.
Qed.

(** X13.  An accepted program is never empty and is shorter than the text:
    when the parse of a text of lexed symbols is accepted, the program has
    at least one token and fewer tokens than the text has symbols. *)
Theorem program_size (ctx : EvalContext) (l : lexer) (program : list Token) :
  forallb lexed (tokens l) = true ->
  parse ctx l = Accepted program ->
  (1 <= List.length program < List.length (tokens l))%nat.
Proof.
  intros Hl Hp. pose proof (parse_forest ctx l (lexed_all _ Hl)) as H.
  rewrite Hp in H. destruct H as [t [Hwf [Hy Hc]]].
  unfold wf_start in Hwf. apply andb_true_iff in Hwf. destruct Hwf as [Hroot Hwf].
  apply Z.eqb_eq in Hroot. unfold compile in Hc.
  destruct (eval ctx t []) as [[sym ex]|o] eqn:Hev; [|].
  - injection Hc as ->. pose proof (eval_emits ctx t _ _ _ Hev) as Hlen.
    cbn [List.length] in Hlen.
    pose proof (emits_bound t _ Hwf) as Hb. rewrite Hroot in Hb.
    change (slack 53) with 1%nat in Hb.
    assert (Hn : needs (root t) = true) by (rewrite Hroot; reflexivity).
    pose proof (emits_needed t _ Hwf Hn). rewrite <- Hy. lia.
  - subst o.
    pose proof (eval_sound ctx t yyeof_ [] Hwf) as Hs.
    assert (Hwl : well_lexed t = true).
    { apply well_lexed_yield. rewrite Hy. exact (lexed_carries _ Hl). }
    specialize (Hs Hwl). rewrite Hev in Hs. exact (False_ind _ Hs).
Qed.

Lemma program_size_witness :
  (1 <= List.length [TokenOption 1 TokenOption.EXISTS]
   < List.length (tokens option_1_exists))%nat.
Proof.
  apply (program_size (spec_context V4 no_names) option_1_exists);
    vm_compute; reflexivity.
Defined.

Lemma grown_roots (es : list stack_symbol_type) :
  forall s la ts,
    grown s la es ts = true -> map root ts = map (fun e => yystos_.[state e]) es.
Proof.
  induction es as [|e es IH]; intros s la [|t ts] H; try discriminate;
    [reflexivity|].
  apply grown_cons in H. destruct H as [_ [Hst [_ [_ [_ [_ Hrest]]]]]].
  cbn [map]. rewrite Hst, (IH _ _ _ Hrest). reflexivity.
Qed.

(** X14.  A syntax error is reported at the first symbol that was not
    shifted, by the state on top of the stack: when the parse of a text of
    lexed symbols ends in a syntax error, it has reached, after some [n]
    turns, a parser [p] whose turn throws the error.  The stack of [p],
    over its bottom, stands for a forest [F] of complete constructs, one
    tree for each symbol of the stack ([grown]: each state is the one
    entered on the root of its tree, each tree is well formed before the
    text that follows it); the text of the forest is the symbols shifted in
    the [n] turns, the lookahead of [p] is the symbol that comes next in
    the text (the end of the file after it), the partial program and the
    values on the stack are the translation of the forest, the error is
    located at the lookahead, and the state on top of the stack has no
    action for it. *)
Theorem syntax_error_position (ctx : EvalContext) (l : lexer) (loc : location_type)
        (msg : string) (partial : list Token) :
  forallb lexed (tokens l) = true ->
  parse ctx l = Rejected (ParseError SyntaxError loc msg) partial ->
  exists (n : nat) (p : parser) (F : list tree) (es : list stack_symbol_type)
         (bottom : stack_symbol_type) (rest : list symbol_type),
    steps ctx n (initial l) = inl p
    /\ step ctx p = inr (Rejected (ParseError SyntaxError loc msg) partial)
    /\ yystack_ p = rev es ++ [bottom]
    /\ grown 0 (type_get (peek p)) es F = true
    /\ map root F = map (fun e => yystos_.[state e]) es
    /\ flat_map yield F = shifts ctx n (initial l)
    /\ tokens l ++ [eof_symbol l] = flat_map yield F ++ peek p :: rest
    /\ eval_kids (eval ctx) F [] [] = inl (map strip (rev es), partial)
    /\ loc = sym_location (peek p)
    /\ decide (top_state p) (type_get (peek p)) = Error
    /\ msg = syntax_message (top_state p) (type_get (peek p)).
Proof.
  intros Hl Hp. pose proof (lexed_all _ Hl) as Hall.
  destruct (syntax_error_turn ctx l loc msg partial Hp)
    as [n [p [w [Hn [Hs [_ [Hpw [Hw [Heof [Hloc [Hmsg [_ [Hd Hpart]]]]]]]]]]]]].
  destruct (steps_forest ctx l n p Hall Hn) as [[F Hinv]|[q [F [_ Hq]]]].
  2: { exfalso. apply (rejected_not_final ctx p _ _ Hs). rewrite Hq. reflexivity. }
  destruct Hinv as [es [bottom [w0 [Hst [_ [Hg [Hev [Htok [Hpw0 [Hlw0 _]]]]]]]]]].
  assert (Hlw : Forall (fun x => lexed x = true) w).
  { rewrite Hw in Hall. apply Forall_app in Hall. tauto. }
  pose proof (pending_unique p w0 w Hpw0 Hpw Hlw0 Hlw) as Heq. subst w0.
  assert (Hsh : flat_map yield F = shifts ctx n (initial l)).
  { rewrite Hw in Htok. apply app_inv_tail in Htok. symmetry. exact Htok. }
  destruct (pending_peek p w Hpw) as [rest Hrest].
  exists n, p, F, es, bottom, rest.
  split; [exact Hn|]. split; [exact Hs|]. split; [exact Hst|]. split; [exact Hg|].
  split; [exact (grown_roots es 0 _ F Hg)|].
  split; [exact Hsh|].
  split.
  { rewrite Htok, <- app_assoc. f_equal. rewrite <- Hrest.
    unfold eof_symbol. rewrite Heof. reflexivity. }
  split; [rewrite Hpart; exact Hev|].
  split; [exact Hloc|]. split; [exact Hd|exact Hmsg].
Qed.

Lemma syntax_error_position_witness :
  exists (n : nat) (p : parser) (F : list tree) (es : list stack_symbol_type)
         (bottom : stack_symbol_type) (rest : list symbol_type),
    steps (spec_context V4 no_names) n
          (initial (bool_input vendor_without_id (columns 16 16))) = inl p
    /\ step (spec_context V4 no_names) p
       = inr (Rejected (ParseError SyntaxError (columns 8 9)
                          "syntax error, unexpected ], expecting * or integer") [])
    /\ yystack_ p = rev es ++ [bottom]
    /\ grown 0 (type_get (peek p)) es F = true
    /\ map root F = map (fun e => yystos_.[state e]) es
    /\ flat_map yield F
       = shifts (spec_context V4 no_names) n
                (initial (bool_input vendor_without_id (columns 16 16)))
    /\ tokens (bool_input vendor_without_id (columns 16 16))
       ++ [eof_symbol (bool_input vendor_without_id (columns 16 16))]
       = flat_map yield F ++ peek p :: rest
    /\ eval_kids (eval (spec_context V4 no_names)) F [] []
       = inl (map strip (rev es), [])
    /\ columns 8 9 = sym_location (peek p)
    /\ decide (top_state p) (type_get (peek p)) = Error
    /\ "syntax error, unexpected ], expecting * or integer"
       = syntax_message (top_state p) (type_get (peek p)).
Proof.
  apply (syntax_error_position (spec_context V4 no_names)
           (bool_input vendor_without_id (columns 16 16)) (columns 8 9)
           "syntax error, unexpected ], expecting * or integer" []);
    vm_compute; reflexivity.
Defined.

Lemma top_rules :
  forallb (fun r => (if yyr1_.[r] =? 53 then (r =? 2) || (r =? 3) else true)
                    && (if yyr1_.[r] =? 54 then (r =? 4) || (r =? 5) else true)
                    && (if yyr1_.[r] =? 55 then r =? 6 else true)
                    && (if yyr1_.[r] =? 56 then (7 <=? r) && (r <=? 17) else true))
          rules = true.
Proof. vm_compute. reflexivity. Qed.

Lemma kids_one (la r X : Z) (kids : list tree) :
  wf la (Node r kids) = true -> rhs r = [X] ->
  exists k, kids = [k] /\ root k = X /\ wf la k = true.
Proof.
  intros Hwf Hrhs. destruct (wf_node _ _ _ Hwf) as [_ [Hroots [_ Hk]]].
  rewrite Hrhs in Hroots.
  destruct kids as [|k [|k' ks]]; try discriminate.
  injection Hroots as Hroot. exists k. split; [reflexivity|]. split; [exact Hroot|].
  rewrite wf_kids_cons in Hk.
  apply andb_true_iff in Hk. destruct Hk as [Hk _].
  apply andb_true_iff in Hk. destruct Hk as [_ Hk]. exact Hk.
Qed.

(** A text begins with the symbol that says what it is: a boolean text
    goes on with a boolean expression, a string text with a boolean or a
    string expression. *)
Lemma start_shape (t : tree) :
  wf_start t = true ->
  exists x r b,
    (t = Node 2 [Leaf x; Node r [b]] /\ type_get x = token.TOPLEVEL_BOOL
     /\ r = 6 /\ root b = 56
     \/ t = Node 3 [Leaf x; Node r [b]] /\ type_get x = token.TOPLEVEL_STRING
        /\ (r = 4 /\ root b = 56 \/ r = 5 /\ root b = 57))
    /\ wf yyeof_ b = true.
Proof.
  unfold wf_start. intros H. apply andb_true_iff in H. destruct H as [Hroot Hwf].
  apply Z.eqb_eq in Hroot.
  destruct t as [x|r kids].
  { pose proof (wf_root _ _ Hwf) as Hr. rewrite Hroot in Hr.
    unfold yyntokens_ in Hr. lia. }
  destruct (wf_node _ _ _ Hwf) as [Hr [Hroots [_ Hk]]]. cbn [root] in Hroot.
  pose proof (forall_rules _ top_rules r Hr) as Ht. cbv beta in Ht.
  repeat (apply andb_true_iff in Ht; destruct Ht as [Ht _]).
  rewrite Hroot in Ht. cbn [Z.eqb Pos.eqb] in Ht.
  assert (Hkids : forall X Y, rhs r = [X; Y] -> X < yyntokens_ -> 53 <= Y ->
                  exists x r2 kids2, kids = [Leaf x; Node r2 kids2]
                                     /\ type_get x = X /\ yyr1_.[r2] = Y
                                     /\ wf yyeof_ (Node r2 kids2) = true).
  { intros X Y Hrhs HX HY. rewrite Hrhs in Hroots.
    destruct kids as [|k1 [|k2 [|k3 ks]]]; try discriminate.
    injection Hroots as H1 H2.
    rewrite !wf_kids_cons in Hk.
    apply andb_true_iff in Hk. destruct Hk as [Hk Hk2].
    apply andb_true_iff in Hk. destruct Hk as [_ Hw1].
    apply andb_true_iff in Hk2. destruct Hk2 as [Hk2 _].
    apply andb_true_iff in Hk2. destruct Hk2 as [_ Hw2].
    destruct (wf_terminal _ _ Hw1 ltac:(lia)) as [x ->].
    pose proof (wf_root _ _ Hw2) as Hr2.
    destruct k2 as [x2|r2 kids2]; [unfold yyntokens_ in Hr2; lia|].
    exists x, r2, kids2. repeat split; assumption. }
  apply orb_true_iff in Ht. destruct Ht as [Ht|Ht]; apply Z.eqb_eq in Ht; subst r.
  - destruct (Hkids 45 55 eq_refl ltac:(unfold yyntokens_; lia) ltac:(lia))
      as [x [r2 [kids2 [-> [Hx [Hl2 Hw2]]]]]].
    destruct (wf_node _ _ _ Hw2) as [Hr2 _].
    pose proof (forall_rules _ top_rules r2 Hr2) as Ht. cbv beta in Ht.
    apply andb_true_iff in Ht. destruct Ht as [Ht _].
    apply andb_true_iff in Ht. destruct Ht as [_ Ht].
    rewrite Hl2 in Ht. cbn [Z.eqb Pos.eqb] in Ht. apply Z.eqb_eq in Ht. subst r2.
    destruct (kids_one _ _ 56 _ Hw2 eq_refl) as [b [-> [Hb Hwb]]].
    exists x, 6, b. split; [left; repeat split; assumption|exact Hwb].
  - destruct (Hkids 46 54 eq_refl ltac:(unfold yyntokens_; lia) ltac:(lia))
      as [x [r2 [kids2 [-> [Hx [Hl2 Hw2]]]]]].
    destruct (wf_node _ _ _ Hw2) as [Hr2 _].
    pose proof (forall_rules _ top_rules r2 Hr2) as Ht. cbv beta in Ht.
    apply andb_true_iff in Ht. destruct Ht as [Ht _].
    apply andb_true_iff in Ht. destruct Ht as [Ht _].
    apply andb_true_iff in Ht. destruct Ht as [_ Ht].
    rewrite Hl2 in Ht. cbn [Z.eqb Pos.eqb] in Ht.
    apply orb_true_iff in Ht. destruct Ht as [Ht|Ht]; apply Z.eqb_eq in Ht; subst r2.
    + destruct (kids_one _ _ 56 _ Hw2 eq_refl) as [b [-> [Hb Hwb]]].
      exists x, 4, b. split; [right; repeat split; try assumption; left; tauto|exact Hwb].
    + destruct (kids_one _ _ 57 _ Hw2 eq_refl) as [b [-> [Hb Hwb]]].
      exists x, 5, b. split; [right; repeat split; try assumption; right; tauto|exact Hwb].
Qed.

Section Booleans.

Variable ctx : EvalContext.

Lemma action_boolean (r : Z) (st : list stack_symbol_type) (ex ex' : list Token)
      (v : semantic_type) :
  8 <= r <= 17 -> action ctx st ex r = Ok (v, ex') ->
  exists tok, ex' = ex ++ [tok] /\ boolean_token tok = true.
Proof.
  intros Hr. assert (Hin : In r (Zrange 8 18)) by (apply Zrange_In; lia).
  vm_compute in Hin.
  repeat (destruct Hin as [<-|Hin]; [|]); try contradiction;
    unfold action, push_back, assign, error;
    destruct (getUniverse ctx);
    repeat match goal with
           | |- context [bind ?c _] => destruct c; cbn [bind]
           end;
    try discriminate;
    intros [= _ <-]; eexists; (split; [reflexivity|reflexivity]).
Qed.

(** The program of a boolean expression ends with a boolean token. *)
Lemma eval_bool_last (t : tree) :
  forall la ex sym ex',
    wf la t = true -> root t = 56 ->
    eval ctx t ex = inl (sym, ex') ->
    exists pre tok, ex' = pre ++ [tok] /\ boolean_token tok = true.
Proof.
  induction t as [x|r kids IH] using tree_ind'; intros la ex sym ex' Hwf Hroot Hev.
  { pose proof (wf_root _ _ Hwf) as Hr. rewrite Hroot in Hr.
    unfold yyntokens_ in Hr. lia. }
  destruct (wf_node _ _ _ Hwf) as [Hr [Hroots [_ Hk]]]. cbn [root] in Hroot.
  pose proof (forall_rules _ top_rules r Hr) as Ht. cbv beta in Ht.
  apply andb_true_iff in Ht. destruct Ht as [_ Ht].
  rewrite Hroot in Ht. cbn [Z.eqb Pos.eqb] in Ht.
  cbn [eval] in Hev.
  destruct (eval_kids (eval ctx) kids [] ex) as [[st ex1]|o] eqn:Hkids; [|discriminate].
  unfold eval_node in Hev.
  destruct (YYLLOC_DEFAULT st (Z.to_nat yyr2_.[r])) as [loc| |]; cbn [bind] in Hev;
    try discriminate.
  destruct (action ctx st ex1 r) as [[v ex2]| |] eqn:Ha; cbn [bind] in Hev;
    try discriminate.
  injection Hev as _ Hex. cbn [snd] in Hex. subst ex'.
  destruct (Z.eq_dec r 7) as [->|H7].
  - destruct (action_step ctx 7 st ex1 ex2 v Ha) as [l0 [-> [Hl0 _]]].
    cbn in Hl0. subst l0. rewrite app_nil_r.
    pose proof (wf_kids_all _ _ _ _ Hk) as Hall.
    change (rhs 7) with [3; 56; 4] in Hroots.
    destruct kids as [|k1 [|k2 [|k3 [|k4 ks]]]]; try discriminate.
    injection Hroots as H1 H2 H3.
    inversion Hall as [|? ? [la1 Hw1] Hall2]; subst.
    inversion Hall2 as [|? ? [la2 Hw2] Hall3]; subst.
    inversion Hall3 as [|? ? [la3 Hw3] _]; subst.
    destruct (wf_terminal _ _ Hw1 ltac:(unfold yyntokens_; lia)) as [y1 ->].
    destruct (wf_terminal _ _ Hw3 ltac:(unfold yyntokens_; lia)) as [y3 ->].
    inversion IH as [|? ? _ IH2]; subst. inversion IH2 as [|? ? Hk2 _]; subst.
    rewrite eval_kids_cons in Hkids. cbn [eval] in Hkids.
    rewrite eval_kids_cons in Hkids.
    destruct (eval ctx k2 ex) as [[e2 x2]|o] eqn:He2; [|discriminate].
    rewrite eval_kids_cons in Hkids. cbn [eval eval_kids] in Hkids.
    injection Hkids as _ <-.
    exact (Hk2 _ _ _ _ Hw2 H2 He2).
  - destruct (action_boolean r st ex1 ex2 v ltac:(lia) Ha) as [tok H].
    exists ex1, tok. exact H.
Qed.

End Booleans.

(** X15.  The program of a boolean text ends with a boolean token: when a
    text of lexed symbols that begins with the top-level symbol of boolean
    texts is accepted, the last token of the program is a logical operator,
    the comparison, or an existence test. *)
Theorem boolean_text_program (ctx : EvalContext) (l : lexer) (x : symbol_type)
        (ts : list symbol_type) (program : list Token) :
  forallb lexed (tokens l) = true ->
  tokens l = x :: ts -> type_get x = token.TOPLEVEL_BOOL ->
  parse ctx l = Accepted program ->
  exists pre tok, program = pre ++ [tok] /\ boolean_token tok = true.
Proof.
  intros Hl Htok Hx Hp. pose proof (parse_forest ctx l (lexed_all _ Hl)) as H.
  rewrite Hp in H. destruct H as [t [Hwf [Hy Hc]]].
  destruct (start_shape t Hwf) as [x' [r [b [[[-> [Hx' [-> Hb]]]|[-> [Hx' _]]] Hwb]]]].
  - unfold compile in Hc. cbn [eval] in Hc.
    rewrite eval_kids_cons in Hc. cbn [eval] in Hc.
    rewrite eval_kids_cons in Hc. cbn [eval] in Hc.
    rewrite eval_kids_cons in Hc.
    destruct (eval ctx b []) as [[symb exb]|o] eqn:Hev.
    + destruct (eval_bool_last ctx b _ _ _ _ Hwb Hb Hev) as [pre [tok [-> Htokb]]].
      revert Hc. run_eval. intros [= <-]. exists pre, tok.
      split; [reflexivity|exact Htokb].
    + cbn in Hc. subst o.
      pose proof (eval_sound ctx b yyeof_ [] Hwb) as Hs.
      assert (Hwl : well_lexed b = true).
      { apply well_lexed_yield. apply Forall_forall. intros y Hin.
        pose proof (lexed_carries _ Hl) as Hcar. rewrite Forall_forall in Hcar.
        apply Hcar. rewrite <- Hy. cbn [yield flat_map].
        apply in_or_app. right. apply in_or_app. left. rewrite app_nil_r. exact Hin. }
      specialize (Hs Hwl). rewrite Hev in Hs. exact (False_ind _ Hs).
  - exfalso. rewrite Htok in Hy. cbn [yield flat_map app] in Hy.
    injection Hy as -> _. rewrite Hx in Hx'. discriminate.
Qed.

Lemma boolean_text_program_witness :
  exists pre tok,
    [TokenOption 1 TokenOption.EXISTS] = pre ++ [tok] /\ boolean_token tok = true.
Proof.
  apply (boolean_text_program
           (spec_context V4 no_names) option_1_exists
           (make token.TOPLEVEL_BOOL (columns 1 1)) (yield (option_exists "1" 1)));
    vm_compute; reflexivity.
Defined.

(** X16.  A string text accepts every boolean expression: whatever is
    accepted after the top-level symbol of boolean texts is accepted after
    the top-level symbol of string texts as well, with the same program. *)
Theorem string_text_accepts_boolean (ctx : EvalContext) (ts : list symbol_type)
        (e loc loc' : location_type) (program : list Token) :
  forallb lexed ts = true ->
  parse ctx (mkLexer (make token.TOPLEVEL_BOOL loc :: ts) e) = Accepted program ->
  parse ctx (mkLexer (make token.TOPLEVEL_STRING loc' :: ts) e) = Accepted program.
Proof.
  intros Hl Hp.
  assert (Hl' : Forall (fun x => lexed x = true)
                       (tokens (mkLexer (make token.TOPLEVEL_BOOL loc :: ts) e))).
  { cbn [tokens]. constructor; [reflexivity|exact (lexed_all _ Hl)]. }
  pose proof (parse_forest ctx _ Hl') as H.
  rewrite Hp in H. destruct H as [t [Hwf [Hy Hc]]]. cbn [tokens] in Hy.
  destruct (start_shape t Hwf) as [x' [r [b [[[-> [Hx' [-> Hb]]]|[-> [Hx' _]]] Hwb]]]].
  - cbn [yield flat_map app] in Hy. rewrite !app_nil_r in Hy. injection Hy as _ Hy.
    pose (t' := Node 3 [Leaf (make token.TOPLEVEL_STRING loc'); Node 4 [b]]).
    assert (Hy' : yield t' = make token.TOPLEVEL_STRING loc' :: ts).
    { cbn [t' yield flat_map app]. rewrite !app_nil_r, Hy. reflexivity. }
    rewrite <- Hy'. rewrite parse_tree.
    + unfold compile in *. cbn [t' eval] in *.
      rewrite eval_kids_cons in Hc |- *. cbn [eval] in Hc |- *.
      rewrite eval_kids_cons in Hc |- *. cbn [eval] in Hc |- *.
      rewrite eval_kids_cons in Hc |- *.
      destruct (eval ctx b []) as [[symb exb]|o] eqn:Hev.
      * revert Hc. run_eval. intros [= <-]. reflexivity.
      * cbn in Hc |- *. exact Hc.
    + unfold wf_start, t'.
      cbn [root wf wf_kids first_type flat_map yield app map type_get make].
      rewrite Hb, (allowed_plain 4 0 b eq_refl).
      rewrite Hwb.
      vm_compute. reflexivity.
  - exfalso. cbn [yield flat_map app] in Hy. injection Hy as Hxx _.
    rewrite Hxx in Hx'. discriminate Hx'.
Qed.

Lemma string_text_accepts_boolean_witness :
  parse (spec_context V4 no_names)
        (mkLexer (make token.TOPLEVEL_STRING (columns 1 1)
                  :: yield (option_exists "1" 1)) (columns 17 17))
  = Accepted [TokenOption 1 TokenOption.EXISTS].
Proof.
  apply (string_text_accepts_boolean
           (spec_context V4 no_names) (yield (option_exists "1" 1))
           (columns 17 17) (columns 1 1) (columns 1 1));
    vm_compute; reflexivity.
Defined.

Lemma grown_typed (es : list stack_symbol_type) :
  forall s la ts,
    grown s la es ts = true ->
    Forall (fun e => carries yystos_.[state e] (value e) = true) es.
Proof.
  induction es as [|e es IH]; intros s la [|t ts] H; try discriminate;
    [constructor|].
  apply grown_cons in H. destruct H as [_ [Hst [_ [_ [_ [Hc Hrest]]]]]].
  constructor; [rewrite Hst; exact Hc|exact (IH _ _ _ Hrest)].
Qed.

Lemma invariant_typed (ctx : EvalContext) (l : lexer) (p : parser) (ts : list tree) :
  invariant ctx l p ts ->
  Forall (fun e => carries yystos_.[state e] (value e) = true) (yystack_ p).
Proof.
  intros [es [bottom [w [Hst [Hb [Hg _]]]]]]. rewrite Hst.
  apply Forall_app. split.
  - apply Forall_rev. exact (grown_typed _ _ _ _ Hg).
  - constructor; [rewrite Hb; reflexivity|constructor].
Qed.

(** X17.  Every symbol on the stack holds a value of the type that its
    state stands for: after any number of turns of the loop on a text of
    lexed symbols, the value of each entry of the stack has the type of the
    symbol that [by_state::type_get] gives for the state of the entry
    ([yystos_]), which is the type at which the entry is copied and
    destroyed. *)
Theorem stack_values_typed (ctx : EvalContext) (l : lexer) (n : nat) (p : parser) :
  forallb lexed (tokens l) = true ->
  steps ctx n (initial l) = inl p ->
  Forall (fun e => carries yystos_.[state e] (value e) = true) (yystack_ p).
Proof.
  intros Hl Hs.
  destruct (steps_forest ctx l n p (lexed_all _ Hl) Hs)
    as [[ts Hinv]|[q [ts [Hinv ->]]]].
  - exact (invariant_typed ctx l p ts Hinv).
  - cbn [shifted yystack_]. constructor; [reflexivity|].
    exact (invariant_typed ctx l q ts Hinv).
Qed.

Lemma stack_values_typed_witness :
  exists p,
    steps (spec_context V4 no_names) 9 (initial option_1_exists) = inl p
    /\ Forall (fun e => carries yystos_.[state e] (value e) = true) (yystack_ p).
Proof.
  eexists. split; [vm_compute; reflexivity|].
  apply (stack_values_typed (spec_context V4 no_names) option_1_exists 9);
    vm_compute; reflexivity.
Defined.

(** X18.  The action of a rule reads the symbols of its right-hand side
    only, and of these the values and locations only: on two stacks whose
    topmost symbols, as many as the rule has, agree in value and location,
    the action does the same, whatever the states of these symbols and
    whatever lies deeper in the stacks. *)
Theorem action_reads_its_symbols (ctx : EvalContext) (r : Z)
        (l l' rest rest' : list stack_symbol_type) (ex : list Token) :
  2 <= r <= 63 ->
  List.length l = Z.to_nat yyr2_.[r] ->
  map strip l = map strip l' ->
  action ctx (l ++ rest) ex r = action ctx (l' ++ rest') ex r.
Proof.
  intros Hr Hlen Hmap.
  assert (Hlen' : List.length l' = Z.to_nat yyr2_.[r]).
  { rewrite <- Hlen, <- (length_map strip l'), <- Hmap, length_map. reflexivity. }
  rewrite (action_strip ctx r l rest ex Hr Hlen).
  rewrite (action_strip ctx r l' rest' ex Hr Hlen'), Hmap. reflexivity.
Qed.

Lemma action_reads_its_symbols_witness :
  action (spec_context V4 no_names)
         (vendor_exists_symbols ++ [mkStackSymbol 1 v_none (columns 1 1)]) [] 16
  = action (spec_context V4 no_names) (map strip vendor_exists_symbols ++ []) [] 16.
Proof.
  apply (action_reads_its_symbols (spec_context V4 no_names) 16);
    [lia|reflexivity|reflexivity].
Defined.
